(** * gdsyncpy: resilient request runner, path resolution and reconciliation

    A shallow embedding of the Python sources
    [drive/http.py], [drive/api.py], [commands/dedup.py],
    [commands/sync/sync.py] and [commands/sync/state.py], together with the
    properties stated about them.

    Conventions.
    - Python exceptions are values of [exn]; a computation that may raise
      returns [result A].
    - Python [dict]s whose iteration order is observable are insertion-ordered
      association lists ([dict_set], [dict_del], [dict_get]); sets are [gset].
    - The remote service, the clock and the file system are an explicit world
      that is threaded through every effectful function. *)

From Stdlib Require Import ZArith Lia.
From stdpp Require Import base list strings gmap pretty.

Open Scope Z_scope.

Set Warnings "-clear-no-such-hyp".

(** ** Tactics *)


(** ** Exceptions and results *)

(** The body of a Drive API error, as far as [HttpErrorPolicy.reason] looks at
    it: either the decoded JSON document is not an object, or it is one and
    [error_list] holds the ['reason'] field (if any) of every entry of
    [errors['error']['errors']]. *)
Inductive ErrorBody :=
| BodyNotDict
| BodyErrors (error_list : list (option string)).

(** [googleapiclient.errors.HttpError]: [resp['status']] and [content]. *)
Record HttpError := mkHttpError {
  status : string;
  content : ErrorBody
}.

Inductive exn :=
| HttpErrorExn (e : HttpError)
| KeyError (key : string)
| IndexError
| AttributeError (attr : string)
| RecursionError
| FileNotFoundError (path : string)
| Exception (msg : string).

Inductive result (A : Type) :=
| Ok (a : A)
| Raise (e : exn).
Arguments Ok {A} a.
Arguments Raise {A} e.

#[global] Instance result_bind : MBind result := λ A B k m,
  match m with
  | Ok a => k a
  | Raise e => Raise e
  end.

(** ** Insertion-ordered dictionaries *)

Section Dict.
Context {K : Type} `{!EqDecision K} {V : Type}.

Definition dict := list (K * V).

(** [d[k] = v]: an existing key keeps its position. *)
Fixpoint dict_set (k : K) (v : V) (d : dict) : dict :=
  match d with
  | [] => [(k, v)]
  | (k', v') :: d' =>
      if decide (k = k') then (k, v) :: d' else (k', v') :: dict_set k v d'
  end.

(** [del d[k]]: [None] stands for the [KeyError]. *)
Fixpoint dict_del (k : K) (d : dict) : option dict :=
  match d with
  | [] => None
  | (k', v') :: d' =>
      if decide (k = k') then Some d' else cons (k', v') <$> dict_del k d'
  end.

(** [d[k]]: [None] stands for the [KeyError]. *)
Fixpoint dict_get (k : K) (d : dict) : option V :=
  match d with
  | [] => None
  | (k', v') :: d' => if decide (k = k') then Some v' else dict_get k d'
  end.

Definition keys (d : dict) : list K := d.*1.
Definition values (d : dict) : list V := d.*2.
End Dict.
Arguments dict K V : clear implicits.

(** [mapM]: the elements are handled in order and the first exception
    ends the traversal. *)
Fixpoint traverse {A B} (f : A → result B) (l : list A) : result (list B) :=
  match l with
  | [] => Ok []
  | a :: l' =>
      b ← f a;
      bs ← traverse f l';
      Ok ((b : B) :: (bs : list B))
  end.

(** The order in which Python iterates over a set of strings. The language
    leaves it open; all that is known is that every element comes once. *)
Class SetOrder := {
  iter_set : gset string → list string;
  iter_set_perm : ∀ X, iter_set X ≡ₚ elements X
}.

(** * drive/http.py *)
Module Http.

Definition RETRY : Z := 0.
Definition SKIP : Z := 1.
Definition FAIL : Z := 2.

Record HttpErrorPolicy := mkPolicy {
  codes : list string;
  reasons : option (gset string);
  print_always : bool;
  action : Z;
  warning : string
}.

(** [HttpErrorPolicy.reason]: raises when the body is not an object, is
    [None] when the error list is empty or its head has no reason. *)
Definition reason (error : HttpError) : result (option string) :=
  match content error with
  | BodyNotDict => Raise (Exception "Cannot handle Drive API exception")
  | BodyErrors [] => Ok None
  | BodyErrors (r :: _) => Ok r
  end.

Definition matches_status (p : HttpErrorPolicy) (error : HttpError) : bool :=
  bool_decide (status error ∈ codes p).

Definition matches_reason (p : HttpErrorPolicy) (error : HttpError)
  : result bool :=
  match reasons p with
  | None => Ok true
  | Some rs =>
      r ← reason error;
      Ok (match (r : option string) with
          | Some s => bool_decide (s ∈ rs)
          | None => false
          end)
  end.

(** [matches_status(error) and matches_reason(error)]: [and] does not
    evaluate its right operand when the left one is false. *)
Definition matches (p : HttpErrorPolicy) (error : HttpError) : result bool :=
  if matches_status p error then matches_reason p error else Ok false.

Definition HttpErrorTable := list HttpErrorPolicy.

(** [[policy for policy in self.policies if policy.matches(error)]] *)
Fixpoint matching_policies (policies : HttpErrorTable) (error : HttpError)
  : result (list HttpErrorPolicy) :=
  match policies with
  | [] => Ok []
  | p :: ps =>
      b ← matches p error;
      rest ← matching_policies ps error;
      Ok (if (b : bool) then p :: rest else rest)
  end.

Definition matching (table : HttpErrorTable) (error : HttpError)
  : result (option HttpErrorPolicy * string) :=
  policies ← matching_policies table error;
  Ok (match (policies : list HttpErrorPolicy) with
      | [] => None
      | p :: _ => Some p
      end, status error).

Fixpoint policy_for (table : HttpErrorTable) (code : string)
  : option HttpErrorPolicy :=
  match table with
  | [] => None
  | p :: ps =>
      if bool_decide (code ∈ codes p) then Some p else policy_for ps code
  end.

Definition DEFAULT_POLICIES : HttpErrorTable :=
  [ mkPolicy ["104"] None true RETRY
      "Connection reset by peer while processing {rid}.";
    mkPolicy ["404"] None true SKIP
      "Request {rid} resulted in a 404 (not found) and has been skipped. Is your snapshot stale?";
    mkPolicy ["403"; "429"]
      (Some ({["rateLimitExceeded"; "userRateLimitExceeded"]} : gset string))
      false RETRY
      "Request {rid} resulted in a 4XX. Slowing down.";
    mkPolicy ["500"] None false RETRY
      "The API returned a server error (500) for {rid}. Retrying." ].

(** *** Vocabulary for the policy table *)

(** The reason code of an error signature, as [HttpErrorPolicy.reason] reads
    it from a well-formed body. *)
Definition reason_code (error_list : list (option string)) : option string :=
  match error_list with
  | [] => None
  | r :: _ => r
  end.

(** What the policy table is meant to do with a signature
    [(status, reason)]: the status must be one of the policy's codes, and a
    policy that declares reasons must list the reason. *)
Definition policy_accepts (p : HttpErrorPolicy) (st : string)
  (rsn : option string) : Prop :=
  st ∈ codes p ∧
  match reasons p with
  | None => True
  | Some rs => ∃ s, rsn = Some s ∧ s ∈ rs
  end.

(** *** Requests, results and the remote service *)

Record _Request (Request : Type) := mk_Request {
  request : Request;
  request_id : string
}.
Arguments mk_Request {Request} request request_id.
Arguments request {Request} _.
Arguments request_id {Request} _.

Record RequestResult (Response : Type) := mkRequestResult {
  id : string;
  response : option Response;
  error : option HttpError
}.
Arguments mkRequestResult {Response} id response error.
Arguments id {Response} _.
Arguments response {Response} _.
Arguments error {Response} _.

(** What [request.execute()] does: it returns, raises an [HttpError], or
    raises something else. *)
Inductive ExecOutcome (Response : Type) :=
| Responded (r : Response)
| HttpFailed (e : HttpError)
| Crashed (x : exn).
Arguments Responded {Response} r.
Arguments HttpFailed {Response} e.
Arguments Crashed {Response} x.

(** The capabilities the runners use: executing one request, executing a
    batch (the callbacks' arguments come back as results, in the order the
    service calls them), reading the monotonic clock and sleeping. *)
Class Service (World Request Response : Type) := {
  request_execute : Request → World → ExecOutcome Response * World;
  batch_execute :
    list (_Request Request) → World →
    result (list (RequestResult Response)) * World;
  monotonic : World → Z * World;
  sleep : Z → World → World
}.

Inductive Delegate :=
| SequentialRequestRunner
| GAPIBatchRunner.

Definition GAPI_BATCH_LIMIT : nat := 100.

(** [float('Inf')] or a finite number of clock units. *)
Inductive Timeout :=
| Inf
| Finite (t : Z).

Definition lt_timeout (elapsed : Z) (t : Timeout) : bool :=
  match t with
  | Inf => true
  | Finite t => bool_decide (elapsed < t)
  end.

Record ErrorHandlingRunner := mkRunner {
  timeout : Timeout;
  min_backoff : Z;
  max_retries : Z;
  policies : HttpErrorTable;
  delegate : Delegate
}.

(** What a run shows to the outside, in the order it happens. [Executed] is
    a physical call to the service with the ids it carries; [Yielded] is a
    result handed to the caller of the generator. *)
Inductive Event (Response : Type) :=
| Executed (ids : list string)
| Yielded (r : RequestResult Response)
| Warned (template rid : string)
| Eprint (msg : string)
| Slept (secs : Z).
Arguments Executed {Response} ids.
Arguments Yielded {Response} r.
Arguments Warned {Response} template rid.
Arguments Eprint {Response} msg.
Arguments Slept {Response} secs.

Inductive Completion :=
| Returned
| Raised (e : exn)
| OutOfFuel.

(** [list(islice(cursor, n))] until the empty list comes back. *)
Fixpoint batches {A} (fuel : nat) (n : nat) (l : list A) : list (list A) :=
  match fuel with
  | O => []
  | S fuel' =>
      match l with
      | [] => []
      | _ => take n l :: batches fuel' n (drop n l)
      end
  end.

Section Runner.
Context {World Request Response : Type}.
Context `{!Service World Request Response}.

Abbreviation Req := (_Request Request).
Abbreviation Res := (RequestResult Response).
Abbreviation Ev := (Event Response).

(** The local variables of [ErrorHandlingRunner.execute]. *)
Record Locals := mkLocals {
  pending : dict string Req;
  warnings : gset string;
  attempts : Z;
  backoff : Z
}.

(** [{str(request.id): request for request in self.requests}] *)
Definition make_pending (requests : list Req) : dict string Req :=
  foldl (λ d r, dict_set (request_id r) r d) [] requests.

(** A physical call of the delegate: one request at a time for
    [SequentialRequestRunner], up to [GAPI_BATCH_LIMIT] for
    [GAPIBatchRunner]. *)
Inductive Chunk :=
| One (r : Req)
| Batch (rs : list Req).

Definition delegate_chunks (d : Delegate) (requests : list Req)
  : list Chunk :=
  match d with
  | SequentialRequestRunner => One <$> requests
  | GAPIBatchRunner =>
      Batch <$> batches (length requests) GAPI_BATCH_LIMIT requests
  end.

Definition chunk_ids (c : Chunk) : list string :=
  match c with
  | One r => [request_id r]
  | Batch rs => request_id <$> rs
  end.

Definition run_chunk (c : Chunk) (w : World) : result (list Res) * World :=
  match c with
  | One r =>
      match request_execute (request r) w with
      | (Responded x, w') =>
          (Ok [mkRequestResult (request_id r) (Some x) None], w')
      | (HttpFailed e, w') =>
          (Ok [mkRequestResult (request_id r) None (Some e)], w')
      | (Crashed x, w') => (Raise x, w')
      end
  | Batch rs => batch_execute rs w
  end.

Variable self : ErrorHandlingRunner.

(** The body of [for result in self._run_requests(...)], for one
    result. The exception, if any, comes with the locals and the output
    as they are when it is raised. *)
Definition handle_result (st : Locals) (r : Res)
  : Locals * list Ev * option exn :=
  match error r with
  | None =>
      match dict_del (id r) (pending st) with
      | None => (st, [], Some (KeyError (id r)))
      | Some pending' =>
          (mkLocals pending' (warnings st) 1 (min_backoff self),
           [Yielded r], None)
      end
  | Some err =>
      match matching (policies self) err with
      | Raise x => (st, [], Some x)
      | Ok (None, _) => (st, [], Some (HttpErrorExn err))
      | Ok (Some policy, error_code) =>
          let warn :=
            print_always policy || bool_decide (error_code ∉ warnings st) in
          let warnings' :=
            if warn then warnings st ∪ {[error_code]} else warnings st in
          let out : list Ev :=
          if warn then [Warned (warning policy) (id r)] else [] in
          let st' :=
            mkLocals (pending st) warnings' (attempts st) (backoff st) in
          if action policy =? SKIP then
            match dict_del (id r) (pending st) with
            | None => (st', out, Some (KeyError (id r)))
            | Some pending' =>
                (mkLocals pending' warnings' (attempts st) (backoff st),
                 out, None)
            end
          else if action policy =? RETRY then (st', out, None)
          else if action policy =? FAIL then
            (st', out, Some (HttpErrorExn err))
          else
            (st', out, Some (Exception "Don't know how to handle action."))
      end
  end.

Fixpoint handle_results (st : Locals) (rs : list Res)
  : Locals * list Ev * option exn :=
  match rs with
  | [] => (st, [], None)
  | r :: rs' =>
      match handle_result st r with
      | (st', out, Some x) => (st', out, Some x)
      | (st', out, None) =>
          let '(st'', out', x) := handle_results st' rs' in
          (st'', out ++ out', x)
      end
  end.

(** The generator of the delegate is consumed lazily: a chunk is sent to
    the service only after every result of the chunks before it has been
    handled. *)
Fixpoint run_chunks (st : Locals) (cs : list Chunk) (w : World)
  : Locals * list Ev * option exn * World :=
  match cs with
  | [] => (st, [], None, w)
  | c :: cs' =>
      match run_chunk c w with
      | (Raise x, w') => (st, [Executed (chunk_ids c)], Some x, w')
      | (Ok rs, w') =>
          match handle_results st rs with
          | (st', out, Some x) =>
              (st', Executed (chunk_ids c) :: out, Some x, w')
          | (st', out, None) =>
              let '(st'', out', x, w'') := run_chunks st' cs' w' in
              (st'', Executed (chunk_ids c) :: out ++ out', x, w'')
          end
      end
  end.

(** One pass: the whole [for] loop over the currently pending requests. *)
Definition run_pass (st : Locals) (w : World)
  : Locals * list Ev * option exn * World :=
  run_chunks st (delegate_chunks (delegate self) (values (pending st))) w.

Inductive PassEnd :=
| Finished (c : Completion)
| Continue (st : Locals).

(** The body of the [while] loop: a pass, then either the end of the run
    or the back-off. *)
Definition loop_body (st : Locals) (w : World)
  : PassEnd * list Ev * World :=
  match run_pass st w with
  | (st', out, Some x, w') => (Finished (Raised x), out, w')
  | (st', out, None, w') =>
      match pending st' with
      | [] => (Finished Returned, out, w')
      | _ =>
          (Continue
             (mkLocals (pending st') (warnings st')
                (attempts st' + 1) (backoff st' * 2)),
           out ++
             [Eprint "Some of the requests could not be fulfilled. Backing off and retrying.";
              Slept (backoff st')],
           sleep (backoff st') w')
      end
  end.

Definition too_many : exn :=
  Exception "Could not process request(s). Too many retry attempts.".
Definition timed_out : exn :=
  Exception "Could not process request(s). Operation timed out.".

Fixpoint execute_loop (fuel : nat) (start : Z) (st : Locals) (w : World)
  : Completion * list Ev * World :=
  match fuel with
  | O => (OutOfFuel, [], w)
  | S fuel' =>
      let '(now, w1) := monotonic w in
      if lt_timeout (now - start) (timeout self)
         && (attempts st <=? max_retries self)
      then
        match loop_body st w1 with
        | (Finished c, out, w2) => (c, out, w2)
        | (Continue st', out, w2) =>
            let '(c, out', w3) := execute_loop fuel' start st' w2 in
            (c, out ++ out', w3)
        end
      else
        (Raised (if max_retries self <? attempts st
                 then too_many else timed_out), [], w1)
  end.

Definition initial (requests : list Req) : Locals :=
  mkLocals (make_pending requests) ∅ 1 (min_backoff self).

(** [ErrorHandlingRunner.execute], run to its end by a caller that
    consumes every result. [fuel] bounds the number of passes. *)
Definition execute (fuel : nat) (requests : list Req) (w : World)
  : Completion * list Ev * World :=
  let '(start, w0) := monotonic w in
  execute_loop fuel start (initial requests) w0.

(** The results the caller receives. *)
Definition yielded (out : list Ev) : list Res :=
  omap (λ e, match e with Yielded r => Some r | _ => None end) out.

(** The back-offs slept. *)
Definition slept (out : list Ev) : list Z :=
  omap (λ e, match e with Slept s => Some s | _ => None end) out.

(** The physical calls made, each with the ids it carried. *)
Definition executed (out : list Ev) : list (list string) :=
  omap (λ e, match e with Executed ids => Some ids | _ => None end) out.

(** *** Vocabulary for the runner *)

(** The retry counters after handling results: untouched when nothing was
    yielded, at their initial values otherwise. *)
Definition counters_after (st st' : Locals) (out : list Ev) : Prop :=
  match yielded out with
  | [] => attempts st' = attempts st ∧ backoff st' = backoff st
  | _ => attempts st' = 1 ∧ backoff st' = min_backoff self
  end.

(** Every physical call answers, and every answer is an error for which
    the table selects a policy that retries. *)
Definition always_retries (cs : list Chunk) : Prop :=
  ∀ c, c ∈ cs → ∀ w, ∃ rs w',
    run_chunk c w = (Ok rs, w') ∧
    Forall (λ r, ∃ e p code,
              error r = Some e ∧
              matching (policies self) e = Ok (Some p, code) ∧
              action p = RETRY) rs.

(** Every physical call answers each of its requests once, and every answer
    is either a success or an error for which the table selects a policy
    that skips. *)
Definition skips_or_succeeds (cs : list Chunk) : Prop :=
  ∀ c, c ∈ cs → ∀ w, ∃ rs w',
    run_chunk c w = (Ok rs, w') ∧
    id <$> rs ≡ₚ chunk_ids c ∧
    Forall (λ r, error r = None ∨
                 ∃ e p code,
                   error r = Some e ∧
                   matching (policies self) e = Ok (Some p, code) ∧
                   action p = SKIP) rs.

(** The results the service gives when the chunks are sent one after the
    other. *)
Fixpoint collect_results (cs : list Chunk) (w : World) : list Res :=
  match cs with
  | [] => []
  | c :: cs' =>
      match run_chunk c w with
      | (Ok rs, w') => rs ++ collect_results cs' w'
      | (Raise _, _) => []
      end
  end.

(** Output that consists of warnings only. *)
Definition only_warnings (out : list Ev) : Prop :=
  Forall (λ e, ∃ t rid, e = Warned t rid) out.

(** An answer that is a success or an error that the table skips. *)
Definition ok_or_skipped (r : Res) : Prop :=
  error r = None ∨
  ∃ e p code,
    error r = Some e ∧
    matching (policies self) e = Ok (Some p, code) ∧
    action p = SKIP.

(** The number of passes a run can still make from the locals [st]: every
    pass either yields a result, which takes a request out of [pending], or
    uses up an attempt. *)
Definition passes_left (st : Locals) : nat :=
  (length (pending st) * (Z.to_nat (max_retries self) + 1) +
   Z.to_nat (max_retries self + 1 - attempts st))%nat.

(** The back-offs of a run, from the back-off [b] at the head of the loop:
    each sleep is either the current back-off or [min_backoff], and the
    back-off after it is twice the time slept. *)
Fixpoint backoff_chain (b : Z) (sleeps : list Z) : Prop :=
  match sleeps with
  | [] => True
  | s :: sleeps' =>
      (s = b ∨ s = min_backoff self) ∧ backoff_chain (2 * s) sleeps'
  end.

(** The chunks of the first pass of a run. *)
Definition first_pass (requests : list Req) : list Chunk :=
  delegate_chunks (delegate self) (values (make_pending requests)).
End Runner.

(** *** More vocabulary for the runner *)

Section Accounting.
Context {Request Response : Type}.
Variable self : ErrorHandlingRunner.

(** What has become of the keys of [pending]: yielded, skipped, or still
    there. Without a policy that skips, nothing is skipped. *)
Definition accounted (before : dict string (_Request Request))
  (out : list (Event Response)) (rest : list string) : Prop :=
  Forall (λ r, error r = None) (yielded out) ∧
  ∃ skipped,
    keys before ≡ₚ (id <$> yielded out) ++ skipped ++ rest ∧
    (Forall (λ p, action p ≠ SKIP) (policies self) → skipped = []).
End Accounting.

(** *** [multiget_gd] *)

(** [table.policy_for(code).action = a] on a copy of the table: the first
    policy that lists the code gets the new action. When no policy lists it,
    [policy_for] returns [None] and the assignment raises. *)
Fixpoint set_action_for (code : string) (a : Z) (table : HttpErrorTable)
  : result HttpErrorTable :=
  match table with
  | [] => Raise (AttributeError "action")
  | p :: ps =>
      if bool_decide (code ∈ codes p) then
        Ok (mkPolicy (codes p) (reasons p) (print_always p) a (warning p) :: ps)
      else
        ps' ← set_action_for code a ps;
        Ok (p :: (ps' : HttpErrorTable))
  end.

Section Multiget.
Context {World Request Response : Type}.
Context `{!Service World Request Response}.

(** [files.get(fileId=fid, fields=...)] *)
Variable files_get : string → string → Request.

(** [multiget_gd], run to its end by a caller that consumes every response:
    what the run does, and the responses it yields. *)
Definition multiget_gd (fuel : nat) (ids fields : list string) (w : World)
  : Completion * list (Event Response) * list (option Response) * World :=
  match set_action_for "404" FAIL DEFAULT_POLICIES with
  | Raise x => (Raised x, [], [], w)
  | Ok fail_on_404 =>
      let runner := mkRunner Inf 5 10 fail_on_404 GAPIBatchRunner in
      let requests :=
        (λ fid, mk_Request (files_get fid (String.concat "," fields)) fid)
          <$> ids in
      let '(c, out, w') := execute runner fuel requests w in
      (c, out, response <$> yielded out, w')
  end.
End Multiget.

End Http.

(** * drive/api.py *)
Module Api.

Definition FolderMimeType : string := "application/vnd.google-apps.folder".

(** The classes [Resource], [DriveFolder] and [DriveFile]. *)
Inductive Resource :=
| PlainResource (id mimeType : string) (parents : list string)
| DriveFolder (name id mimeType : string) (parents : list string)
| DriveFile (name id mimeType : string) (parents : list string)
    (md5Checksum : option string).

Definition id (r : Resource) : string :=
  match r with
  | PlainResource i _ _ | DriveFolder _ i _ _ | DriveFile _ i _ _ _ => i
  end.

Definition parents (r : Resource) : list string :=
  match r with
  | PlainResource _ _ ps | DriveFolder _ _ _ ps | DriveFile _ _ _ ps _ => ps
  end.

(** Only folders and files have a [name] attribute. *)
Definition name (r : Resource) : result string :=
  match r with
  | PlainResource _ _ _ => Raise (AttributeError "name")
  | DriveFolder n _ _ _ | DriveFile n _ _ _ _ => Ok n
  end.

(** The requests the commands build. *)
Inductive ApiRequest :=
| FilesGet (fileId : string)
| FilesDelete (fileId : string)
| FilesCreate (folderId local_file_path : string).

(** [Resource.delete] *)
Definition delete (r : Resource) : ApiRequest := FilesDelete (id r).

(** [DriveFolder.create_file]: only folders have it. *)
Definition create_file (r : Resource) (local_file_path : string)
  : result ApiRequest :=
  match r with
  | DriveFolder _ i _ _ => Ok (FilesCreate i local_file_path)
  | _ => Raise (AttributeError "create_file")
  end.

Record Snapshot := mkSnapshot { entries : list Resource }.

Definition merge (self other : Snapshot) : Snapshot :=
  mkSnapshot (entries self ++ entries other).

Record ResourcePath := mkResourcePath {
  resource : Resource;
  path : list Resource
}.

(** [ResourcePath.__str__] *)
Definition str (self : ResourcePath) : result string :=
  n ← name (resource self);
  ns ← traverse name (path self);
  Ok ("/" +:+ String.concat "/" (reverse ((n : string) :: (ns : list string)))).

Definition startswith (self : ResourcePath) (prefix : string) : result bool :=
  s ← str self;
  Ok (String.prefix prefix (s : string)).

Definition unique {A} (resources : list A) (alias : string)
  (allow_none allow_multiple : bool) : result A :=
  if bool_decide (length resources = 0%nat) && negb allow_none then
    Raise (Exception ("Resource " +:+ alias +:+ " not found."))
  else if bool_decide (1 < length resources)%nat && negb allow_multiple then
    Raise (Exception ("Ambiguous resource alias " +:+ alias +:+ "."))
  else
    match resources with
    | [] => Raise IndexError
    | r :: _ => Ok r
    end.

Definition multiple_parents : exn :=
  Exception "Resources with multiple parents are not supported.".

(** [_resource_path]. [depth] is what is left of the interpreter's recursion
    limit. *)
Fixpoint _resource_path (depth : nat) (r : Resource)
  (table : dict string Resource) : result (list Resource) :=
  match depth with
  | O => Raise RecursionError
  | S depth' =>
      match parents r with
      | [] => Ok []
      | p :: ps =>
          if bool_decide (1 < length (parents r))%nat then
            Raise multiple_parents
          else
            match dict_get p table with
            | None => Raise (KeyError p)
            | Some parent =>
                rest ← _resource_path depth' parent table;
                Ok (parent :: (rest : list Resource))
            end
      end
  end.

(** [get_resources]: a bulk fetch by id. It goes through [multiget_gd] and
    the runner of drive/http.py; the resolver only sees what comes back, the
    resources or an exception. *)
Class Drive (World : Type) := {
  get_resources : list string → World → result (list Resource) * World
}.

Section Resolver.
Context {World : Type} `{!Drive World} `{!SetOrder}.

(** [resolved.update({resource.id: resource for resource in ...})] *)
Definition update (resolved : dict string Resource) (rs : list Resource)
  : dict string Resource :=
  foldl (λ d r, dict_set (id r) r d) resolved rs.

Definition unresolved_parents (resolved : dict string Resource)
  : gset string :=
  list_to_set (values resolved ≫= parents) ∖ list_to_set (keys resolved).

(** The [while True] loop of [resolve_paths]; [None] when [fuel] rounds do
    not reach the [break]. *)
Fixpoint resolve_loop (fuel : nat) (resolved : dict string Resource)
  (w : World) : option (result (dict string Resource) * World) :=
  match fuel with
  | O => None
  | S fuel' =>
      let unresolved := unresolved_parents resolved in
      if decide (unresolved = ∅) then Some (Ok resolved, w)
      else
        match get_resources (iter_set unresolved) w with
        | (Raise x, w') => Some (Raise x, w')
        | (Ok rs, w') => resolve_loop fuel' (update resolved rs) w'
        end
  end.

Definition resolve_paths (fuel depth : nat) (leaves : list Resource)
  (w : World) : option (result (list (Resource * ResourcePath)) * World) :=
  match resolve_loop fuel (update [] leaves) w with
  | None => None
  | Some (Raise x, w') => Some (Raise x, w')
  | Some (Ok resolved, w') =>
      Some (traverse
              (λ leaf,
                 p ← _resource_path depth leaf resolved;
                 Ok (leaf, mkResourcePath leaf (p : list Resource)))
              leaves, w')
  end.
End Resolver.

(** *** Items of the Drive API *)

(** A [GAPIJson] item, as far as the three classes look at it: the fields
    the item has, with the types the API gives them. *)
Record Item := mkItem {
  item_id : option string;
  item_mimeType : option string;
  item_name : option string;
  item_parents : option (list string);
  item_md5Checksum : option string
}.

(** [field in item] *)
Definition has_field (item : Item) (field : string) : bool :=
  if decide (field = "id") then bool_decide (is_Some (item_id item))
  else if decide (field = "mimeType") then
    bool_decide (is_Some (item_mimeType item))
  else if decide (field = "name") then bool_decide (is_Some (item_name item))
  else if decide (field = "parents") then
    bool_decide (is_Some (item_parents item))
  else if decide (field = "md5Checksum") then
    bool_decide (is_Some (item_md5Checksum item))
  else false.

Inductive Class_ :=
| ResourceClass
| DriveFolderClass
| DriveFileClass.

(** What [inspect.getfullargspec] reports for the three constructors: the
    argument names and the number of defaults. *)
Definition constructor_args (cls : Class_) : list string :=
  match cls with
  | ResourceClass => ["self"; "service"; "id"; "mimeType"; "parents"]
  | DriveFolderClass =>
      ["self"; "service"; "name"; "id"; "mimeType"; "parents"]
  | DriveFileClass =>
      ["self"; "service"; "name"; "id"; "mimeType"; "parents"; "md5Checksum"]
  end.

Definition constructor_defaults (cls : Class_) : nat :=
  match cls with
  | ResourceClass | DriveFolderClass => 1
  | DriveFileClass => 2
  end.

Definition MetaFields : gset string := {["self"; "service"]}.

Record Fields := mkFields {
  mandatory : gset string;
  optional : gset string;
  all : gset string
}.

(** [cls.fields()] *)
Definition fields (cls : Class_) : Fields :=
  let args := constructor_args cls in
  let all := list_to_set args ∖ MetaFields in
  let optionals : gset string :=
    list_to_set (drop (length args - constructor_defaults cls) args) in
  mkFields (all ∖ optionals) optionals all.

(** [cls.is_a(item)] *)
Definition is_a (cls : Class_) (item : Item) : result bool :=
  match cls with
  | DriveFolderClass =>
      match item_mimeType item with
      | None => Raise (KeyError "mimeType")
      | Some m => Ok (bool_decide (m = FolderMimeType))
      end
  | DriveFileClass => Ok (bool_decide (is_Some (item_md5Checksum item)))
  | ResourceClass =>
      Ok (forallb (has_field item) (elements (mandatory (fields ResourceClass))))
  end.

(** [cls(service, **actual)], once the mandatory fields are known to be
    there; a missing optional field takes the default of the constructor. *)
Definition construct (cls : Class_) (item : Item) : Resource :=
  let i := default "" (item_id item) in
  let m := default "" (item_mimeType item) in
  let n := default "" (item_name item) in
  let ps := default [] (item_parents item) in
  match cls with
  | ResourceClass => PlainResource i m ps
  | DriveFolderClass => DriveFolder n i m ps
  | DriveFileClass => DriveFile n i m ps (item_md5Checksum item)
  end.

(** The exception at the end of [Resource.from_item]; the message of the
    source goes on with the item. *)
Definition unknown_item : exn :=
  Exception "Don't know how make resource from item".

Section Items.
Context `{!SetOrder}.

(** The body of the loop of [Resource.from_item] for a class the item
    belongs to: [item[k]] for every mandatory [k], in the order of the set,
    then the constructor. *)
Definition make (cls : Class_) (item : Item) : result Resource :=
  match
    list_find (λ k, has_field item k = false)
      (iter_set (mandatory (fields cls)))
  with
  | Some (_, k) => Raise (KeyError k)
  | None => Ok (construct cls item)
  end.

(** [Resource.from_item]: the classes are tried in the order of
    [_RESOURCES]. *)
Definition from_item (item : Item) : result Resource :=
  folder ← is_a DriveFolderClass item;
  if (folder : bool) then make DriveFolderClass item
  else
    file ← is_a DriveFileClass item;
    if (file : bool) then make DriveFileClass item
    else
      plain ← is_a ResourceClass item;
      if (plain : bool) then make ResourceClass item
      else Raise unknown_item.
End Items.

(** *** [ResourcePath.from_name] *)

Definition slash : Ascii.ascii :=
  Ascii.Ascii true true true true false true false false.

(** [path.split('/')] *)
Fixpoint split_slash (s : string) : list string :=
  match s with
  | EmptyString => [EmptyString]
  | String c s' =>
      if decide (c = slash) then EmptyString :: split_slash s'
      else
        match split_slash s' with
        | h :: t => String c h :: t
        | [] => [String c EmptyString]
        end
  end.

(** [[element for element in path.split('/') if element]] *)
Definition path_elements (path : string) : list string :=
  filter (λ element, element ≠ EmptyString) (split_slash path).

(** The two requests [from_name] makes: [files.get(fileId='root')] and
    [files.list(q="'<id>' in parents and name = '<name>'")], the latter with
    the [files] of the response. An [HttpError] is not caught here. *)
Class Files (World : Type) := {
  get_root : World → Http.ExecOutcome Item * World;
  list_named : string → string → World → Http.ExecOutcome (list Item) * World
}.

Definition raised {A} (o : Http.ExecOutcome A) : result A :=
  match o with
  | Http.Responded a => Ok a
  | Http.HttpFailed e => Raise (HttpErrorExn e)
  | Http.Crashed x => Raise x
  end.

Section FromName.
Context {World : Type} `{!Files World} `{!SetOrder}.

(** [DriveFolder.root] *)
Definition DriveFolder_root (w : World) : result Resource * World :=
  let '(o, w') := get_root w in
  (item ← raised o; from_item item, w').

(** [DriveFolder.children_named] *)
Definition children_named (folder_id name : string) (w : World)
  : result (list Resource) * World :=
  let '(o, w') := list_named folder_id name w in
  (items ← raised o; traverse from_item (items : list Item), w').

Definition not_a_folder (element : string) : exn :=
  Exception (element +:+ " is not a Google Drive folder.").

(** The loop of [from_name] over the elements of the path. *)
Fixpoint walk (path : string) (elements : list string)
  (resource : list Resource) (w : World) : result (list Resource) * World :=
  match elements with
  | [] => (Ok resource, w)
  | element :: rest =>
      match unique resource path false false with
      | Raise x => (Raise x, w)
      | Ok (DriveFolder _ folder_id _ _) =>
          match children_named folder_id element w with
          | (Raise x, w') => (Raise x, w')
          | (Ok found, w') => walk path rest found w'
          end
      | Ok _ => (Raise (not_a_folder element), w)
      end
  end.

Definition from_name (path : string) (w : World)
  : result (list Resource) * World :=
  match DriveFolder_root w with
  | (Raise x, w') => (Raise x, w')
  | (Ok r, w') => walk path (path_elements path) [r] w'
  end.
End FromName.

(** *** [DriveFolder.list] *)

(** [files.list(q="'<id>' in parents", pageToken=...).execute()]: the
    [files] of the page and its [nextPageToken]. *)
Class Listing (World : Type) := {
  list_page :
    string → option string → World →
    Http.ExecOutcome (list Item * option string) * World
}.

(** What [_list] prints while it scans. *)
Inductive Progress :=
| Scanning (folder : Resource)
| Examined (total : nat) (folder : Resource)
| DoneScanning (folder : Resource)
| Recursing (parent child : Resource).

Definition is_folder (r : Resource) : bool :=
  match r with
  | DriveFolder _ _ _ _ => true
  | _ => false
  end.

(** [folders.add(item)]: a set of resources, which compare by id, keeps the
    element it has. *)
Definition add_folder (r : Resource) (folders : list Resource)
  : list Resource :=
  if decide (id r ∈ id <$> folders) then folders else folders ++ [r].

(** The ids of the folders that the progress says were scanned. *)
Definition scanned (log : list Progress) : list string :=
  omap (λ e, match e with
             | Scanning folder => Some (id folder)
             | _ => None
             end) log.

Section Listing.
Context {World : Type} `{!Listing World} `{!SetOrder}.

(** The [while True] loop of [_list] over the pages of one folder, with the
    resources yielded and the set of subfolders. [None] when [fuel] pages do
    not reach the last one. *)
Fixpoint scan_pages (fuel : nat) (self : Resource) (recurse : bool)
  (token : option string) (total : nat) (folders : list Resource) (w : World)
  : option (result (list Resource * list Resource) * list Progress * World) :=
  match fuel with
  | O => None
  | S fuel' =>
      let '(o, w1) := list_page (id self) token w in
      match
        page ← raised o;
        rs ← traverse from_item (page : list Item * option string).1;
        Ok (rs : list Resource, page)
      with
      | Raise x => Some (Raise x, [], w1)
      | Ok (rs, (items, next)) =>
          let folders' :=
            if recurse then
              foldl (λ fs r, if is_folder r then add_folder r fs else fs)
                folders rs
            else folders in
          let total' := (total + length items)%nat in
          match next with
          | None => Some (Ok (rs, folders'), [Examined total' self], w1)
          | Some page_token =>
              match
                scan_pages fuel' self recurse (Some page_token) total'
                  folders' w1
              with
              | None => None
              | Some (Raise x, log, w2) =>
                  Some (Raise x, Examined total' self :: log, w2)
              | Some (Ok (rs', folders''), log, w2) =>
                  Some (Ok (rs ++ rs', folders''),
                        Examined total' self :: log, w2)
              end
          end
      end
  end.

(** The final loop of [_list] over the new subfolders. [rec] is the
    recursive call; the set of excluded folders is shared with it. *)
Fixpoint recurse_into
  (rec : Resource → gset string → World →
         option (result (list Resource) * gset string * list Progress * World))
  (self : Resource) (folders : list Resource) (exclude : gset string)
  (w : World)
  : option (result (list Resource) * gset string * list Progress * World) :=
  match folders with
  | [] => Some (Ok [], exclude, [], w)
  | folder :: rest =>
      match rec folder exclude w with
      | None => None
      | Some (Raise x, exclude1, log, w1) =>
          Some (Raise x, exclude1, Recursing self folder :: log, w1)
      | Some (Ok rs, exclude1, log, w1) =>
          match recurse_into rec self rest exclude1 w1 with
          | None => None
          | Some (Raise x, exclude2, log', w2) =>
              Some (Raise x, exclude2,
                    Recursing self folder :: log ++ log', w2)
          | Some (Ok rs', exclude2, log', w2) =>
              Some (Ok (rs ++ rs'), exclude2,
                    Recursing self folder :: log ++ log', w2)
          end
      end
  end.

(** The order in which a set of folders is iterated. *)
Definition in_set_order (folders : list Resource) : list Resource :=
  omap (λ i, find (λ f, bool_decide (id f = i)) folders)
    (iter_set (list_to_set (id <$> folders))).

(** [DriveFolder._list], consumed to its end: the resources yielded, the
    set of excluded folders as the call leaves it, and what was printed.
    [None] when [fuel] does not suffice. *)
Fixpoint _list (fuel : nat) (self : Resource) (recurse : bool)
  (exclude : gset string) (w : World)
  : option (result (list Resource) * gset string * list Progress * World) :=
  match fuel with
  | O => None
  | S fuel' =>
      match scan_pages fuel' self recurse None 0 [] w with
      | None => None
      | Some (Raise x, log, w1) =>
          Some (Raise x, exclude, Scanning self :: log, w1)
      | Some (Ok (rs, folders), log, w1) =>
          let fresh := filter (λ f, id f ∉ exclude) folders in
          let exclude1 := exclude ∪ list_to_set (id <$> fresh) in
          match
            recurse_into (λ folder, _list fuel' folder recurse) self
              (in_set_order fresh) exclude1 w1
          with
          | None => None
          | Some (Raise x, exclude2, log', w2) =>
              Some (Raise x, exclude2,
                    Scanning self :: log ++ DoneScanning self :: log', w2)
          | Some (Ok rs', exclude2, log', w2) =>
              Some (Ok (rs ++ rs'), exclude2,
                    Scanning self :: log ++ DoneScanning self :: log', w2)
          end
      end
  end.

(** [DriveFolder.list] *)
Definition list_folder (fuel : nat) (self : Resource) (recurse : bool)
  (w : World)
  : option (result (list Resource) * gset string * list Progress * World) :=
  _list fuel self recurse ∅ w.
End Listing.

(** *** Vocabulary for paths *)

(** The string holds a slash. *)
Fixpoint has_slash (s : string) : bool :=
  match s with
  | EmptyString => false
  | String c s' => bool_decide (c = slash) || has_slash s'
  end.

(** [path] is the chain of ancestors of [r] in the table: every resource
    on the way has a single parent, which the table knows, and the last one
    has none. *)
Fixpoint ancestors (table : dict string Resource) (r : Resource)
  (path : list Resource) : Prop :=
  match path with
  | [] => parents r = []
  | parent :: rest =>
      (∃ p, parents r = [p] ∧ dict_get p table = Some parent) ∧
      ancestors table parent rest
  end.

End Api.

(** * commands/dedup.py *)
Module Dedup.
Import Api.

Definition not_covered (s : string) : exn :=
  Exception ("Path " +:+ s +:+
             " is not covered by any of the specified prefixes. Aborting.").

(** The inner [for ... else] of [rank], from the [i]-th prefix on. *)
Fixpoint rank_from (i : nat) (prefix_preferences : list string)
  (p : ResourcePath) : result nat :=
  match prefix_preferences with
  | [] => s ← str p; Raise (not_covered s)
  | prefix :: rest =>
      b ← startswith p prefix;
      if (b : bool) then Ok i else rank_from (S i) rest p
  end.

(** [list(rank(prefix_preferences, paths))] *)
Definition rank (prefix_preferences : list string) (paths : list ResourcePath)
  : result (list nat) :=
  traverse (rank_from 0 prefix_preferences) paths.

(** [sorted(l, key=key)]: the stable sort. *)
Fixpoint insert_by {A} (key : A → nat) (x : A) (l : list A) : list A :=
  match l with
  | [] => [x]
  | y :: l' =>
      if decide (key x ≤ key y)%nat then x :: y :: l'
      else y :: insert_by key x l'
  end.

Definition sorted {A} (key : A → nat) (l : list A) : list A :=
  foldr (insert_by key) [] l.

(** *** Vocabulary for the ranking *)

(** [r] is the index of the first prefix of the list that the rendered path
    [s] starts with. *)
Definition first_prefix (prefixes : list string) (s : string) (r : nat)
  : Prop :=
  ∃ pfx,
    prefixes !! r = Some pfx ∧ String.prefix pfx s = true ∧
    ∀ j q, (j < r)%nat → prefixes !! j = Some q → String.prefix q s = false.

(** The rendered path [s] starts with none of the prefixes. *)
Definition uncovered (prefixes : list string) (s : string) : Prop :=
  ∀ q, q ∈ prefixes → String.prefix q s = false.

(** The entry has a path in the table and the path renders as [s]. *)
Definition renders_as (paths : dict string ResourcePath) (e : Resource)
  (s : string) : Prop :=
  ∃ p, dict_get (id e) paths = Some p ∧ str p = Ok s.

(** [paths[entry]]: the dictionary is keyed by resources, which hash and
    compare by id. *)
Definition path_of (paths : dict string ResourcePath) (entry : Resource)
  : result ResourcePath :=
  match dict_get (id entry) paths with
  | Some p => Ok p
  | None => Raise (KeyError (id entry))
  end.

(** The body of the loop over [duplicates.items()] in [dedup_apply]: the
    deletion requests queued for one group. *)
Definition group_deletions (prefixes : list string)
  (paths : dict string ResourcePath) (entries : list Resource)
  : result (list (Http._Request ApiRequest)) :=
  ps ← traverse (path_of paths) entries;
  ranks ← rank prefixes ps;
  let preferences := zip entries (ranks : list nat) in
  traverse
    (λ pref : Resource * nat,
       p ← path_of paths pref.1;
       s ← str p;
       Ok (Http.mk_Request (delete pref.1)
             ((s : string) +:+ " (" +:+ id pref.1 +:+ ")")))
    (drop 1 (sorted snd preferences)).

Definition queue_deletions (prefixes : list string)
  (duplicates : dict (option string) (list Resource))
  (paths : dict string ResourcePath)
  : result (list (Http._Request ApiRequest)) :=
  groups ← traverse (group_deletions prefixes paths) (values duplicates);
  Ok (concat (groups : list (list (Http._Request ApiRequest)))).

Definition deletion_runner : Http.ErrorHandlingRunner :=
  Http.mkRunner Http.Inf 5 10 Http.DEFAULT_POLICIES Http.GAPIBatchRunner.

(** [dedup_apply], from the duplicates and their paths on. *)
Definition dedup_apply {World Response}
  `{!Http.Service World ApiRequest Response}
  (fuel : nat) (prefixes : list string) (dry_run : bool)
  (duplicates : dict (option string) (list Resource))
  (paths : dict string ResourcePath) (w : World)
  : Http.Completion * list (Http.Event Response) * World :=
  match queue_deletions prefixes duplicates paths with
  | Raise x => (Http.Raised x, [], w)
  | Ok requests =>
      if dry_run then (Http.Returned, [], w)
      else Http.execute deletion_runner fuel requests w
  end.

(** *** [compute_duplicates] *)

(** The grouping of the file entries by hash: a [defaultdict(list)] filled
    in the order of the snapshot. An entry that is not a [DriveFile] is
    passed over; a file without a checksum goes under the key [None]. *)
Definition by_md5 (ss : Snapshot) : dict (option string) (list Resource) :=
  foldl (λ d entry,
           match entry with
           | DriveFile _ _ _ _ md5 =>
               dict_set md5 (default [] (dict_get md5 d) ++ [entry]) d
           | _ => d
           end)
    [] (entries ss).

(** [{k: v for k, v in by_md5.items() if len(v) > 1}] *)
Definition duplicates_of (ss : Snapshot)
  : dict (option string) (list Resource) :=
  filter (λ kv, 1 < length kv.2)%nat (by_md5 ss).

(** [dict(resolve_paths(...))]: the keys are resources, which hash and
    compare by id. *)
Definition paths_dict (pairs : list (Resource * ResourcePath))
  : dict string ResourcePath :=
  foldl (λ d pair, dict_set (id pair.1) pair.2 d) [] pairs.

Definition compute_duplicates {World} `{!Drive World} `{!SetOrder}
  (fuel depth : nat) (ss : Snapshot) (w : World)
  : option (result (dict (option string) (list Resource) *
                    dict string ResourcePath) * World) :=
  let duplicates := duplicates_of ss in
  match resolve_paths fuel depth (concat (values duplicates)) w with
  | None => None
  | Some (Raise x, w') => Some (Raise x, w')
  | Some (Ok pairs, w') => Some (Ok (duplicates, paths_dict pairs), w')
  end.

(** *** Vocabulary for the grouping *)

(** [e] is a file entry with the checksum [md5], which may be [None]. *)
Definition is_file_with (md5 : option string) (e : Resource) : bool :=
  match e with
  | DriveFile _ _ _ _ h => bool_decide (h = md5)
  | _ => false
  end.

(** The file entries of a snapshot that carry the hash [md5], in the order
    of the snapshot. *)
Definition files_with (md5 : option string) (ss : Snapshot) : list Resource :=
  filter (λ e, is_file_with md5 e = true) (entries ss).

End Dedup.

(** * commands/sync/state.py and commands/sync/sync.py *)
Module Sync.
Import Api.

Record LocalFile := mkLocalFile {
  path : string;
  mime_type : string;
  md5_checksum : string
}.

(** The command line arguments that [_sync] and [store] look at. [func] is
    the attribute that [set_defaults(func=...)] adds to a parsed command line;
    a state read back from disk has none. *)
Record Args := mkArgs {
  local : string;
  remote : string;
  dry_run : bool;
  func : bool
}.

Record SyncState := mkSyncState {
  name : string;
  state_path : string;
  args : Args;
  snapshot : Snapshot;
  local_files : list LocalFile;
  timestamp : Z;
  stored : bool
}.

Definition set_stored (b : bool) (s : SyncState) : SyncState :=
  mkSyncState (name s) (state_path s) (args s) (snapshot s) (local_files s)
    (timestamp s) b.

Definition set_snapshot (ss : Snapshot) (s : SyncState) : SyncState :=
  mkSyncState (name s) (state_path s) (args s) ss (local_files s)
    (timestamp s) (stored s).

Definition pop_func (s : SyncState) : SyncState :=
  mkSyncState (name s) (state_path s)
    (mkArgs (local (args s)) (remote (args s)) (dry_run (args s)) false)
    (snapshot s) (local_files s) (timestamp s) (stored s).

(** [os.path.join] of two components. *)
Definition join (a b : string) : string :=
  if String.prefix "/" b then b
  else if bool_decide (a = "") || String.prefix "/" (String.rev a) then a +:+ b
  else a +:+ "/" +:+ b.

Definition full_path (s : SyncState) : string := join (state_path s) (name s).

(** What the sync commands need from the outside: the service that takes the
    uploads, the scan of the target folder, the lookup of a folder by path,
    the serializer of [SyncStateSchema] and the two file operations. *)
Class Env (World Response : Type) := {
  env_service : Http.Service World ApiRequest Response;
  _uncacheable_exclusions : Args → World → result Snapshot * World;
  from_name : string → World → result (list Resource) * World;
  serialize : SyncState → result string;
  write_text : string → string → World → result unit * World;
  remove : string → World → result unit * World
}.
#[global] Existing Instance env_service.

(** What a sync does to the outside, in order. *)
Inductive Effect (Response : Type) :=
| Wrote (file text : string)
| Removed (file : string)
| Ran (e : Http.Event Response).
Arguments Wrote {Response} file text.
Arguments Removed {Response} file.
Arguments Ran {Response} e.

(** [_by_md5]: a [defaultdict(list)] filled in enumeration order. *)
Definition _by_md5 (files : list LocalFile) : dict string (list LocalFile) :=
  foldl (λ d f,
           dict_set (md5_checksum f)
             (default [] (dict_get (md5_checksum f) d) ++ [f]) d)
    [] files.

(** [set(entry.md5Checksum for entry in entries if isinstance(entry, DriveFile))] *)
Definition remote_md5s (ss : Snapshot) : gset (option string) :=
  list_to_set
    (omap (λ e, match e with
                | DriveFile _ _ _ _ md5 => Some md5
                | _ => None
                end) (entries ss)).

(** [local.keys() - remote] *)
Definition to_sync (by_md5 : dict string (list LocalFile))
  (remote_set : gset (option string)) : gset string :=
  filter (λ k, Some k ∉ remote_set) (list_to_set (keys by_md5)).

(** The request queued for one missing hash. *)
Definition upload_request (remote_folder : Resource)
  (by_md5 : dict string (list LocalFile)) (key : string)
  : result (Http._Request ApiRequest) :=
  match dict_get key by_md5 with
  | None => Raise (KeyError key)
  | Some [] => Raise IndexError
  | Some (f :: _) =>
      rq ← create_file remote_folder (path f);
      Ok (Http.mk_Request (rq : ApiRequest) (path f))
  end.

(** *** Vocabulary for the sync diff *)

(** The local file [f] has the hash [h]. *)
Definition has_md5 (h : string) (f : LocalFile) : Prop := md5_checksum f = h.

#[global] Instance has_md5_dec h f : Decision (has_md5 h f) :=
  decide (md5_checksum f = h).

(** [f] is the first file of the scan [fs] with its hash. *)
Definition is_first_with_md5 (fs : list LocalFile) (f : LocalFile) : Prop :=
  ∃ k, fs !! k = Some f ∧
       ∀ j g, (j < k)%nat → fs !! j = Some g →
              md5_checksum g ≠ md5_checksum f.

(** Some file entry among [rs] carries the hash [h]. *)
Definition holds_md5 (h : string) (rs : list Resource) : Prop :=
  ∃ n i m ps, DriveFile n i m ps (Some h) ∈ rs.

Definition upload_runner : Http.ErrorHandlingRunner :=
  Http.mkRunner Http.Inf 5 10 Http.DEFAULT_POLICIES
    Http.SequentialRequestRunner.

Section Commands.
Context {World Response : Type} `{!Env World Response} `{!SetOrder}.

Abbreviation Fx := (Effect Response).

(** [SyncState.store]. The state comes back as the call leaves it, with the
    exception if one is raised. The [pre_dump] hook of the schema pops [func]
    from the arguments, which are shared with the state. *)
Definition store (self : SyncState) (w : World)
  : option exn * SyncState * list Fx * World :=
  let self1 := set_stored true self in
  if func (args self1) then
    let self2 := pop_func self1 in
    match serialize self2 with
    | Raise x => (Some x, set_stored false self2, [], w)
    | Ok text =>
        match write_text (full_path self2) text w with
        | (Raise x, w') => (Some x, set_stored false self2, [], w')
        | (Ok _, w') => (None, self2, [Wrote (full_path self2) text], w')
        end
    end
  else (Some (KeyError "func"), set_stored false self1, [], w).

(** [SyncState.clear] *)
Definition clear (self : SyncState) (w : World)
  : option exn * list Fx * World :=
  match remove (full_path self) w with
  | (Raise x, w') => (Some x, [], w')
  | (Ok _, w') => (None, [Removed (full_path self)], w')
  end.

(** The upload queue of [_sync]: one request per missing hash. *)
Definition queue_uploads (state : SyncState) (remote_folder : Resource)
  : result (list (Http._Request ApiRequest)) :=
  let by_md5 := _by_md5 (local_files state) in
  traverse (upload_request remote_folder by_md5)
    (iter_set (to_sync by_md5 (remote_md5s (snapshot state)))).

(** [_sync]. [None] when the uploads need more than [fuel] passes. *)
Definition _sync (fuel : nat) (state : SyncState) (w : World)
  : option (option exn * SyncState * list Fx * World) :=
  match _uncacheable_exclusions (args state) w with
  | (Raise x, w1) => Some (Some x, state, [], w1)
  | (Ok dynamic, w1) =>
      let state1 := set_snapshot (merge (snapshot state) dynamic) state in
      match from_name (remote (args state1)) w1 with
      | (Raise x, w2) => Some (Some x, state1, [], w2)
      | (Ok found, w2) =>
          match
            remote_folder ← unique found (remote (args state1)) false false;
            queue_uploads state1 remote_folder
          with
          | Raise x => Some (Some x, state1, [], w2)
          | Ok requests =>
              let '(x, state2, fx, w3) :=
                if stored state1 then (None, state1, [], w2)
                else store state1 w2 in
              match x with
              | Some e => Some (Some e, state2, fx, w3)
              | None =>
                  if dry_run (args state2) then Some (None, state2, fx, w3)
                  else
                    match Http.execute upload_runner fuel requests w3 with
                    | (Http.OutOfFuel, _, _) => None
                    | (Http.Raised e, out, w4) =>
                        Some (Some e, state2, fx ++ (Ran <$> out), w4)
                    | (Http.Returned, out, w4) =>
                        let '(x', fx', w5) := clear state2 w4 in
                        Some (x', state2, fx ++ (Ran <$> out) ++ fx', w5)
                    end
              end
          end
      end
  end.
End Commands.

(** *** Setting up and picking a sync state *)

(** A call that may end the process: [sys.exit(code)] is not an
    [Exception] and no handler of the program catches it. *)
Inductive Exit (A : Type) :=
| Done (a : A)
| SystemExit (code : Z).
Arguments Done {A} a.
Arguments SystemExit {A} code.

Definition MEDIA_MIMES : gset string := {["image"; "video"; "audio"]}.

(** [_mime_allow]; [mime_type[0:5]] is the slice. *)
Definition _mime_allow (local_file : LocalFile) (pics_only : bool) : bool :=
  if negb pics_only then true
  else bool_decide (String.substring 0 5 (mime_type local_file) ∈ MEDIA_MIMES).

(** [_check_duplicates] *)
Definition _check_duplicates (local_by_md5 : dict string (list LocalFile))
  : Exit unit :=
  let duplicates := filter (λ kv, 1 < length kv.2)%nat local_by_md5 in
  if bool_decide (length duplicates = 0%nat) then Done ()
  else SystemExit (-1).

(** [sorted(states, key=lambda x: x.timestamp, reverse=True)]: the sort is
    stable, also in reverse. *)
Fixpoint insert_latest (x : SyncState) (l : list SyncState)
  : list SyncState :=
  match l with
  | [] => [x]
  | y :: l' =>
      if decide (timestamp y ≤ timestamp x) then x :: y :: l'
      else y :: insert_latest x l'
  end.

Definition latest_first (states : list SyncState) : list SyncState :=
  foldr insert_latest [] states.

(** [_latest_sync_state], from the states read in the working directory
    on. *)
Definition _latest_sync_state (states : list SyncState) : Exit SyncState :=
  match latest_first states with
  | [] => SystemExit (-1)
  | state :: _ => Done state
  end.

(** *** The names of the state files *)

Definition is_digit (c : Ascii.ascii) : bool :=
  (48 <=? Ascii.nat_of_ascii c)%nat && (Ascii.nat_of_ascii c <=? 57)%nat.

(** The longest prefix of digits, and what follows it. *)
Fixpoint span_digits (s : string) : string * string :=
  match s with
  | EmptyString => (EmptyString, EmptyString)
  | String c s' =>
      if is_digit c then
        let '(digits, rest) := span_digits s' in (String c digits, rest)
      else (EmptyString, s)
  end.

(** [NAME_REGEX.fullmatch], for the pattern [[0-9]+-[0-9]+\.sync]: neither
    the dash nor the dot is a digit, so each run of digits is the longest
    one. *)
Definition NAME_REGEX_fullmatch (s : string) : bool :=
  let '(seconds, rest) := span_digits s in
  match rest with
  | String c rest' =>
      let '(number, suffix) := span_digits rest' in
      bool_decide (String c EmptyString = "-") &&
      negb (bool_decide (seconds = EmptyString)) &&
      negb (bool_decide (number = EmptyString)) &&
      bool_decide (suffix = ".sync")
  | EmptyString => false
  end.

(** [SyncState.new_name]: ['%d-%d.sync'] of the clock, cut to an integer, and
    of the random number. *)
Definition new_name (now random : Z) : string :=
  pretty now +:+ "-" +:+ pretty random +:+ ".sync".

(** The entries of the directory that [SyncState.sync_states] reads; an
    entry of a listing holds no separator and is its own base name. *)
Definition state_files (listing : list string) : list string :=
  filter (λ content, NAME_REGEX_fullmatch content = true) listing.

(** A non-empty string of digits. *)
Fixpoint all_digits (s : string) : bool :=
  match s with
  | EmptyString => true
  | String c s' => is_digit c && all_digits s'
  end.

Definition is_number (s : string) : Prop :=
  s ≠ EmptyString ∧ all_digits s = true.

End Sync.

(** * commands/snapshot.py *)
Module SnapshotCmd.
Import Api.

(** How the command ends: with a value, with an exception or with
    [sys.exit]. *)
Inductive Outcome (A : Type) :=
| Finished (a : A)
| Failed (x : exn)
| Exited (code : Z).
Arguments Finished {A} a.
Arguments Failed {A} x.
Arguments Exited {A} code.

Section Snapshot.
Context {World : Type} `{!Files World} `{!Listing World} `{!SetOrder}.

(** [[u(ResourcePath.from_name(service, path), path) for path in
    folder_paths]] *)
Fixpoint find_folders (folder_paths : list string) (w : World)
  : result (list Resource) * World :=
  match folder_paths with
  | [] => (Ok [], w)
  | path :: rest =>
      match from_name path w with
      | (Raise x, w1) => (Raise x, w1)
      | (Ok found, w1) =>
          match unique found path false false with
          | Raise x => (Raise x, w1)
          | Ok folder =>
              match find_folders rest w1 with
              | (Raise x, w2) => (Raise x, w2)
              | (Ok folders, w2) => (Ok (folder :: folders), w2)
              end
          end
      end
  end.

(** The loop of [snapshot] over the folders: each is listed with all that is
    below it, unless it is not a folder. *)
Fixpoint list_folders (fuel : nat) (folders : list Resource) (w : World)
  : option (Outcome (list Resource) * list Progress * World) :=
  match folders with
  | [] => Some (Finished [], [], w)
  | folder :: rest =>
      if is_folder folder then
        match list_folder fuel folder true w with
        | None => None
        | Some (Raise x, _, log, w1) => Some (Failed x, log, w1)
        | Some (Ok entries, _, log, w1) =>
            match list_folders fuel rest w1 with
            | None => None
            | Some (Finished entries', log', w2) =>
                Some (Finished (entries ++ entries'), log ++ log', w2)
            | Some (Failed x, log', w2) => Some (Failed x, log ++ log', w2)
            | Some (Exited code, log', w2) =>
                Some (Exited code, log ++ log', w2)
            end
        end
      else Some (Exited (-1), [], w)
  end.

(** [snapshot]; [list(set(entries))] keeps, for every id, the entry that
    came first. *)
Definition snapshot (fuel : nat) (folder_paths : list string) (w : World)
  : option (Outcome Snapshot * list Progress * World) :=
  match find_folders folder_paths w with
  | (Raise x, w1) => Some (Failed x, [], w1)
  | (Ok folders, w1) =>
      match list_folders fuel folders w1 with
      | None => None
      | Some (Finished entries, log, w2) =>
          Some (Finished (mkSnapshot (in_set_order entries)), log, w2)
      | Some (Failed x, log, w2) => Some (Failed x, log, w2)
      | Some (Exited code, log, w2) => Some (Exited code, log, w2)
      end
  end.
End Snapshot.

(** [e] is the first of the entries with its id. *)
Definition first_with_id (entries : list Resource) (e : Resource) : Prop :=
  ∃ k, entries !! k = Some e ∧
       ∀ j e', (j < k)%nat → entries !! j = Some e' → id e' ≠ id e.

End SnapshotCmd.

(** * commands/sync/sync.py: setting up a sync *)
Module SyncSetup.
Import Api Sync SnapshotCmd.

(** The options of the [sync] command that only the setup reads, next to
    the arguments that [_sync] and the state look at. *)
Record SetupArgs := mkSetupArgs {
  sync_args : Args;
  exclude_snapshot : list string;
  exclude_folder : list string;
  include_pictures_only : bool;
  allow_duplicates : bool
}.

(** What the setup reads from the local disk: the scan [_local_files] of a
    folder, with the MIME type and the hash of every file, and a stored
    snapshot, [load_snapshot]. Both may raise. *)
Class Local (World : Type) := {
  _local_files : string → World → result (list LocalFile) * World;
  load_snapshot : string → World → result Snapshot * World
}.

Section Setup.
Context {World : Type}.
Context `{!Local World} `{!Files World} `{!Listing World} `{!SetOrder}.

(** The first loop of [_cacheable_exclusions], over the stored
    snapshots. *)
Fixpoint load_all (files : list string) (ss : Snapshot) (w : World)
  : result Snapshot * World :=
  match files with
  | [] => (Ok ss, w)
  | file :: rest =>
      match load_snapshot file w with
      | (Raise x, w1) => (Raise x, w1)
      | (Ok loaded, w1) => load_all rest (merge ss loaded) w1
      end
  end.

(** The second loop, over the remote folders: each is listed by
    [snapshot], which may raise or exit. *)
Fixpoint snapshot_all (fuel : nat) (folders : list string) (ss : Snapshot)
  (w : World) : option (Outcome Snapshot * list Progress * World) :=
  match folders with
  | [] => Some (Finished ss, [], w)
  | remote_folder :: rest =>
      match snapshot fuel [remote_folder] w with
      | None => None
      | Some (Failed x, log, w1) => Some (Failed x, log, w1)
      | Some (Exited code, log, w1) => Some (Exited code, log, w1)
      | Some (Finished listed, log, w1) =>
          match snapshot_all fuel rest (merge ss listed) w1 with
          | None => None
          | Some (outcome, log', w2) => Some (outcome, log ++ log', w2)
          end
      end
  end.

(** [_cacheable_exclusions] *)
Definition _cacheable_exclusions (fuel : nat) (a : SetupArgs) (w : World)
  : option (Outcome Snapshot * list Progress * World) :=
  match load_all (exclude_snapshot a) (mkSnapshot []) w with
  | (Raise x, w1) => Some (Failed x, [], w1)
  | (Ok ss, w1) => snapshot_all fuel (exclude_folder a) ss w1
  end.

(** [_new_sync_state]. The working directory, the name and the time stamp
    are those the constructor of [SyncState] draws. *)
Definition _new_sync_state (fuel : nat) (a : SetupArgs)
  (cwd new_name : string) (now : Z) (w : World)
  : option (Outcome SyncState * list Progress * World) :=
  match _local_files (local (sync_args a)) w with
  | (Raise x, w1) => Some (Failed x, [], w1)
  | (Ok scanned, w1) =>
      let local :=
        filter (λ f, _mime_allow f (include_pictures_only a) = true)
          scanned in
      match
        if negb (allow_duplicates a) then _check_duplicates (_by_md5 local)
        else Done ()
      with
      | SystemExit code => Some (Exited code, [], w1)
      | Done _ =>
          match _cacheable_exclusions fuel a w1 with
          | None => None
          | Some (Failed x, log, w2) => Some (Failed x, log, w2)
          | Some (Exited code, log, w2) => Some (Exited code, log, w2)
          | Some (Finished ss, log, w2) =>
              Some (Finished
                      (mkSyncState new_name cwd (sync_args a) ss local now
                         false), log, w2)
          end
      end
  end.
End Setup.

End SyncSetup.

(** * A scripted service, used to run the model on concrete inputs *)
Module Scripted.
Import Http.

(** The world is the clock. A request is its own script: the outcome of
    executing it when the clock shows a given time. Every physical call
    takes one unit of time. *)
Definition World := Z.
Definition Request := Z → ExecOutcome string.

Definition answer (r : _Request Request) (w : World)
  : list (RequestResult string) :=
  match request r w with
  | Responded x => [mkRequestResult (request_id r) (Some x) None]
  | HttpFailed e => [mkRequestResult (request_id r) None (Some e)]
  | Crashed _ => []
  end.

#[global] Instance scripted : Service World Request string := {|
  request_execute r w := (r w, w + 1);
  batch_execute rs w := (Ok (rs ≫= λ r, answer r w), w + 1);
  monotonic w := (w, w);
  sleep s w := w + s
|}.

Definition error500 : HttpError := mkHttpError "500" (BodyErrors []).
Definition error404 : HttpError := mkHttpError "404" (BodyErrors []).
Definition error400 : HttpError := mkHttpError "400" (BodyErrors []).

Definition succeeds (x : string) : Request := λ _, Responded x.
Definition fails (e : HttpError) : Request := λ _, HttpFailed e.
(** Fails with [e] while the clock is below [t], succeeds afterwards. *)
Definition fails_until (t : Z) (e : HttpError) (x : string) : Request :=
  λ w, if bool_decide (w < t) then HttpFailed e else Responded x.

Definition default_runner : ErrorHandlingRunner :=
  mkRunner Inf 5 10 DEFAULT_POLICIES SequentialRequestRunner.

End Scripted.

(** * A remote store and a disk, used to run the resolver and the sync *)
Module Fixtures.
Import Api.

(** Python's set order is taken to be the order of [elements]. *)
#[global] Instance elements_order : SetOrder := {|
  iter_set := elements;
  iter_set_perm X := Permutation_refl _
|}.

(** A remote store that knows a fixed table of resources and answers a bulk
    fetch from it; an unknown id is a 404, which the fetch does not skip. *)
Definition Store := dict string Resource.

#[global] Instance store_drive : Drive Store := {|
  get_resources ids w :=
    (traverse
       (λ i, match dict_get i w with
             | Some r => Ok r
             | None => Raise (HttpErrorExn Scripted.error404)
             end) ids, w)
|}.

Definition root : Resource := DriveFolder "root" "id-root" FolderMimeType [].
Definition A : Resource := DriveFolder "A" "id-a" FolderMimeType ["id-root"].
Definition B : Resource := DriveFolder "B" "id-b" FolderMimeType ["id-a"].
Definition leaf : Resource :=
  DriveFile "leaf" "id-leaf" "image/jpeg" ["id-b"] (Some "d41d8cd9").
Definition two_parents : Resource :=
  DriveFile "shared" "id-shared" "image/jpeg" ["id-a"; "id-b"] (Some "900150983").

Definition hierarchy : Store :=
  [("id-root", root); ("id-a", A); ("id-b", B)].

(** A world for the sync: the files on the local disk, the paths uploaded
    so far and the clock. The target folder exists and is empty, every
    upload succeeds and the disk accepts every write. *)
Record Disk := mkDisk {
  files : gmap string string;
  uploaded : list string;
  clock : Z
}.

Definition target : Resource := DriveFolder "target" "id-target" FolderMimeType [].

#[global] Instance disk_service : Http.Service Disk ApiRequest string := {|
  Http.request_execute r w :=
    match r with
    | FilesCreate _ p =>
        (Http.Responded p, mkDisk (files w) (uploaded w ++ [p]) (clock w + 1))
    | _ => (Http.HttpFailed Scripted.error400, w)
    end;
  Http.batch_execute rs w := (Ok [], w);
  Http.monotonic w := (clock w, w);
  Http.sleep secs w := mkDisk (files w) (uploaded w) (clock w + secs)
|}.

#[global] Instance disk_env : Sync.Env Disk string := {|
  Sync.env_service := disk_service;
  Sync._uncacheable_exclusions _ w := (Ok (mkSnapshot []), w);
  Sync.from_name _ w := (Ok [target], w);
  Sync.serialize st := Ok ("state " +:+ Sync.name st);
  Sync.write_text f text w :=
    (Ok (), mkDisk (<[f := text]> (files w)) (uploaded w) (clock w));
  Sync.remove f w :=
    match files w !! f with
    | Some _ =>
        (Ok (), mkDisk (base.delete f (files w)) (uploaded w) (clock w))
    | None => (Raise (FileNotFoundError f), w)
    end
|}.

(** The disk of a sync whose target is gone from the drive: every upload is
    answered with a 404. *)
Record Stale := mkStale { disk : Disk }.

Definition tick (secs : Z) (w : Stale) : Stale :=
  mkStale (mkDisk (files (disk w)) (uploaded (disk w))
             (clock (disk w) + secs)).

#[global] Instance stale_service : Http.Service Stale ApiRequest string := {|
  Http.request_execute r w := (Http.HttpFailed Scripted.error404, tick 1 w);
  Http.batch_execute rs w := (Ok [], w);
  Http.monotonic w := (clock (disk w), w);
  Http.sleep secs w := tick secs w
|}.

#[global] Instance stale_env : Sync.Env Stale string := {|
  Sync.env_service := stale_service;
  Sync._uncacheable_exclusions _ w := (Ok (mkSnapshot []), w);
  Sync.from_name _ w := (Ok [target], w);
  Sync.serialize st := Ok ("state " +:+ Sync.name st);
  Sync.write_text f text w :=
    let '(r, d) := Sync.write_text f text (disk w) in (r, mkStale d);
  Sync.remove f w :=
    let '(r, d) := Sync.remove f (disk w) in (r, mkStale d)
|}.

Definition photos : list Sync.LocalFile :=
  [Sync.mkLocalFile "pics/a.jpg" "image/jpeg" "h1";
   Sync.mkLocalFile "pics/b.jpg" "image/jpeg" "h2";
   Sync.mkLocalFile "pics/a-copy.jpg" "image/jpeg" "h1";
   Sync.mkLocalFile "pics/c.jpg" "image/jpeg" "h3"].

Definition remote_b : Snapshot :=
  mkSnapshot [DriveFile "b.jpg" "id-1" "image/jpeg" ["id-target"] (Some "h2");
              DriveFolder "h3" "id-2" FolderMimeType ["id-target"]].

Definition fresh_state (dry : bool) : Sync.SyncState :=
  Sync.mkSyncState "17-42.sync" "/work" (Sync.mkArgs "pics" "/target" dry true)
    remote_b photos 1000 false.

Definition empty_disk : Disk := mkDisk ∅ [] 0.

(** Two copies of one picture, under /Pictures/Old and /Pictures/New. *)
Definition pictures : Resource :=
  DriveFolder "Pictures" "id-pics" FolderMimeType [].
Definition old_dir : Resource :=
  DriveFolder "Old" "id-old-dir" FolderMimeType ["id-pics"].
Definition new_dir : Resource :=
  DriveFolder "New" "id-new-dir" FolderMimeType ["id-pics"].
Definition x_old : Resource :=
  DriveFile "x.jpg" "id-old" "image/jpeg" ["id-old-dir"] (Some "h1").
Definition x_new : Resource :=
  DriveFile "x.jpg" "id-new" "image/jpeg" ["id-new-dir"] (Some "h1").

Definition dup_group : list Resource := [x_old; x_new].

Definition dup_paths : dict string ResourcePath :=
  [("id-old", mkResourcePath x_old [old_dir; pictures]);
   ("id-new", mkResourcePath x_new [new_dir; pictures])].

Definition preferences : list string := ["/Pictures/New/"; "/Pictures/Old/"].

(** A drive with one folder under the root and one picture in it. The world
    counts the requests made. *)
Definition root_item : Item :=
  mkItem (Some "id-root") (Some FolderMimeType) (Some "My Drive") None None.
Definition pictures_item : Item :=
  mkItem (Some "id-pics") (Some FolderMimeType) (Some "Pictures")
    (Some ["id-root"]) None.
Definition holiday_item : Item :=
  mkItem (Some "id-hol") (Some "image/jpeg") (Some "holiday.jpg")
    (Some ["id-pics"]) (Some "h1").

#[global] Instance small_drive : Files nat := {|
  get_root w := (Http.Responded root_item, S w);
  list_named parent child w :=
    (Http.Responded
       (if decide (parent = "id-root" ∧ child = "Pictures")
        then [pictures_item]
        else if decide (parent = "id-pics" ∧ child = "holiday.jpg")
        then [holiday_item]
        else []), S w)
|}.

(** The store and the snapshot of the two copies: the folders are known to
    the store, the snapshot lists one folder and the two files. *)
Definition albums : Store :=
  [("id-pics", pictures); ("id-old-dir", old_dir); ("id-new-dir", new_dir)].

Definition album_snapshot : Snapshot := mkSnapshot [old_dir; x_old; x_new].

(** The same drive with a cycle: the folder of pictures lists the root
    among its children. *)
Definition my_drive : Resource :=
  DriveFolder "My Drive" "id-root" FolderMimeType [].

#[global] Instance cyclic_drive : Listing nat := {|
  list_page parent token w :=
    (Http.Responded
       (if decide (parent = "id-root") then ([pictures_item], None)
        else if decide (parent = "id-pics")
        then ([root_item; holiday_item], None)
        else ([], None)), S w)
|}.

(** The local disk of the setup: the scan gives the photos, two of which
    are copies; every stored snapshot is the one of the remote. *)
#[global] Instance local_nat : SyncSetup.Local nat := {|
  SyncSetup._local_files folder w := (Ok photos, w);
  SyncSetup.load_snapshot file w := (Ok remote_b, S w)
|}.

(** A folder that is its own parent. *)
Definition loop_dir : Resource :=
  DriveFolder "loop" "id-loop" FolderMimeType ["id-loop"].

End Fixtures.

(** * Properties of drive/http.py *)
Module HttpSpec.
Import Http.

(** ** The error policy table *)

Lemma matches_accepts p st errs :
  matches p (mkHttpError st (BodyErrors errs)) = Ok true ↔
  policy_accepts p st (reason_code errs).
Proof.
  unfold matches, matches_status, matches_reason, policy_accepts, reason; simpl.
  case_bool_decide as Hst.
  - destruct (reasons p) as [rs|]; [|naive_solver].
    destruct errs as [|[s|] errs]; simpl.
    + split; [done|]. intros [_ (s & ? & _)]; done.
    + case_bool_decide; split; naive_solver.
    + split; [done|]. intros [_ (s & ? & _)]; done.
  - split; [done|]. intros [? _]; done.
Qed.

Lemma matches_total p st errs :
  ∃ b, matches p (mkHttpError st (BodyErrors errs)) = Ok b.
Proof.
  unfold matches, matches_reason, reason; simpl.
  destruct (matches_status _ _); [|eauto].
  destruct (reasons p); [|eauto].
  destruct errs as [|[s|] errs]; simpl; eauto.
Qed.

Lemma matching_policies_filter table st errs :
  ∃ ps,
    matching_policies table (mkHttpError st (BodyErrors errs)) = Ok ps ∧
    ((ps = [] ∧ Forall (λ q, ¬ policy_accepts q st (reason_code errs)) table) ∨
     (∃ p ps' before after,
        ps = p :: ps' ∧ table = before ++ p :: after ∧
        policy_accepts p st (reason_code errs) ∧
        Forall (λ q, ¬ policy_accepts q st (reason_code errs)) before)).
Proof.
  induction table as [|q table IH]; simpl.
  - exists []. split; [done|]. left. by split.
  - destruct IH as (ps & Hps & IH).
    destruct (matches_total q st errs) as [b Hb].
    rewrite Hb, Hps; simpl.
    destruct b.
    + exists (q :: ps). split; [done|]. right.
      exists q, ps, [], table.
      split; [done|]. split; [done|]. split; [by apply matches_accepts|done].
    + assert (¬ policy_accepts q st (reason_code errs)) as Hq.
      { intros Hq%matches_accepts. congruence. }
      exists ps. split; [done|].
      destruct IH as [[-> Hall]|(p & ps' & before & after & -> & -> & Hp & Hb')].
      * left. split; [done|]. by constructor.
      * right. exists p, ps', (q :: before), after.
        split; [done|]. split; [done|]. split; [done|]. by constructor.
Qed.

(** ** The runner *)

Section RunnerFacts.
Context {World Request Response : Type}.
Context `{!Service World Request Response}.
Variable self : ErrorHandlingRunner.


Lemma nonempty_match {A B} (l : list A) (a b : B) :
  l ≠ [] → match l with [] => a | _ :: _ => b end = b.
Proof. by destruct l. Qed.

Lemma handle_results_app (st : @Locals Request) (rs1 rs2 : list (RequestResult Response)) :
  handle_results self st (rs1 ++ rs2) =
  match handle_results self st rs1 with
  | (st1, out1, Some x) => (st1, out1, Some x)
  | (st1, out1, None) =>
      let '(st2, out2, x) := handle_results self st1 rs2 in
      (st2, out1 ++ out2, x)
  end.
Proof.
  revert st. induction rs1 as [|r rs1 IH]; intros st; simpl.
  - by destruct (handle_results self st rs2) as [[? ?] ?].
  - destruct (handle_result self st r) as [[st' out] [x|]]; [done|].
    rewrite IH.
    destruct (handle_results self st' rs1) as [[st1 out1] [x|]]; [done|].
    destruct (handle_results self st1 rs2) as [[st2 out2] x].
    by rewrite (assoc_L (++)).
Qed.

Lemma run_chunks_app (st : @Locals Request) (cs1 cs2 : list Chunk) (w : World) :
  run_chunks self st (cs1 ++ cs2) w =
  match run_chunks self st cs1 w with
  | (st1, out1, Some x, w1) => (st1, out1, Some x, w1)
  | (st1, out1, None, w1) =>
      let '(st2, out2, x, w2) := run_chunks self st1 cs2 w1 in
      (st2, out1 ++ out2, x, w2)
  end.
Proof.
  revert st w. induction cs1 as [|c cs1 IH]; intros st w; simpl.
  - by destruct (run_chunks self st cs2 w) as [[[? ?] ?] ?].
  - destruct (run_chunk c w) as [[rs|x] w']; [|done].
    destruct (handle_results self st rs) as [[st' out] [x|]]; [done|].
    rewrite IH.
    destruct (run_chunks self st' cs1 w') as [[[st1 out1] [x|]] w1]; [done|].
    destruct (run_chunks self st1 cs2 w1) as [[[st2 out2] x] w2].
    by rewrite (assoc_L (++)).
Qed.

(** An exception raised during a pass is the outcome of the run, and
    nothing happens after it. *)
Lemma execute_loop_pass_raises fuel start (st st' : @Locals Request) w now w1 out x w' :
  monotonic w = (now, w1) →
  lt_timeout (now - start) (timeout self)
    && (attempts st <=? max_retries self) = true →
  run_pass self st w1 = (st', out, Some x, w') →
  execute_loop self (S fuel) start st w = (Raised x, out, w').
Proof.
  intros Hclock Hguard Hpass. simpl.
  rewrite Hclock, Hguard. unfold loop_body. by rewrite Hpass.
Qed.

(** *** Counters across a pass *)

Lemma executed_app (out1 out2 : list (Event Response)) :
  executed (out1 ++ out2) = executed out1 ++ executed out2.
Proof. unfold executed. by rewrite omap_app. Qed.

Lemma slept_app (out1 out2 : list (Event Response)) :
  slept (out1 ++ out2) = slept out1 ++ slept out2.
Proof. unfold slept. by rewrite omap_app. Qed.

Lemma yielded_app (out1 out2 : list (Event Response)) :
  yielded (out1 ++ out2) = yielded out1 ++ yielded out2.
Proof. unfold yielded. by rewrite omap_app. Qed.

Lemma counters_after_trans (st st1 st2 : @Locals Request) (out1 out2 : list (Event Response)) :
  counters_after self st st1 out1 →
  counters_after self st1 st2 out2 →
  counters_after self st st2 (out1 ++ out2).
Proof.
  unfold counters_after. rewrite yielded_app.
  destruct (yielded out1), (yielded out2); simpl; intros [? ?] [? ?];
    split; congruence.
Qed.

Lemma handle_result_counters (st st' : @Locals Request) (r : RequestResult Response) (out : list (Event Response)) x :
  handle_result self st r = (st', out, x) →
  counters_after self st st' out.
Proof.
  unfold handle_result, counters_after.
  destruct (error r) as [err|].
  - destruct (matching (policies self) err) as [[[p|] code]|e].
    + set (warn := print_always p || _).
      destruct (action p =? SKIP).
      { destruct (dict_del _ _); intros [= <- <- <-]; by destruct warn. }
      destruct (action p =? RETRY); [intros [= <- <- <-]; by destruct warn|].
      destruct (action p =? FAIL); intros [= <- <- <-]; by destruct warn.
    + by intros [= <- <- <-].
    + by intros [= <- <- <-].
  - destruct (dict_del _ _); by intros [= <- <- <-].
Qed.

Lemma handle_results_counters (st st' : @Locals Request) (rs : list (RequestResult Response)) (out : list (Event Response)) x :
  handle_results self st rs = (st', out, x) →
  counters_after self st st' out.
Proof.
  revert st out. induction rs as [|r rs IH]; intros st out; simpl.
  - by intros [= <- <- <-].
  - destruct (handle_result self st r) as [[st1 out1] [e|]] eqn:Hr.
    + intros [= <- <- <-]. by eapply handle_result_counters.
    + destruct (handle_results self st1 rs) as [[st2 out2] x2] eqn:Hrs.
      intros [= <- <- <-].
      eapply counters_after_trans; [by eapply handle_result_counters|].
      by eapply IH.
Qed.

Lemma run_chunks_counters (st st' : @Locals Request) cs w (out : list (Event Response)) x w' :
  run_chunks self st cs w = (st', out, x, w') →
  counters_after self st st' out.
Proof.
  revert st w out. induction cs as [|c cs IH]; intros st w out; simpl.
  - by intros [= <- <- <- <-].
  - destruct (run_chunk c w) as [[rs|e] w1].
    + destruct (handle_results self st rs) as [[st1 out1] [e|]] eqn:Hrs.
      * intros [= <- <- <- <-].
        apply (counters_after_trans st st st1 [Executed (chunk_ids c)] out1);
          [done|]. by eapply handle_results_counters.
      * destruct (run_chunks self st1 cs w1) as [[[st2 out2] x2] w2] eqn:Hcs.
        intros [= <- <- <- <-].
        apply (counters_after_trans st st st2 [Executed (chunk_ids c)]
                 (out1 ++ out2)); [done|].
        eapply counters_after_trans; [by eapply handle_results_counters|].
        by eapply IH.
    + by intros [= <- <- <- <-].
Qed.

(** C2. The back-off across a pass. For every pass (one sweep of the pending
    requests) that completes without raising: if it yields no result and
    leaves requests pending, the loop sleeps the current back-off and goes on
    with exactly twice that back-off (and one more attempt); if it yields at
    least one result, the pass ends with the back-off at [min_backoff] and the
    attempts at 1, so that the sleep that follows, if requests are still
    pending, is [min_backoff] (the end of the loop body then doubles and
    increments from these reset values). [loop_body] is the body of every
    iteration of [execute_loop], so this covers every pass of every run. *)
Theorem backoff_doubles_or_resets (st st' : @Locals Request) w out w' :
  run_pass self st w = (st', out, None, w') →
  (yielded out = [] → pending st' ≠ [] →
   ∃ st'' out',
     loop_body self st w = (Continue st'', out', sleep (backoff st) w') ∧
     slept out' = slept out ++ [backoff st] ∧
     backoff st'' = 2 * backoff st ∧
     attempts st'' = attempts st + 1) ∧
  (yielded out ≠ [] →
   backoff st' = min_backoff self ∧ attempts st' = 1 ∧
   (pending st' ≠ [] →
    ∃ st'' out',
      loop_body self st w =
        (Continue st'', out', sleep (min_backoff self) w') ∧
      slept out' = slept out ++ [min_backoff self] ∧
      backoff st'' = 2 * min_backoff self ∧
      attempts st'' = 2)).
Proof.
  intros Hpass.
  pose proof (run_chunks_counters _ _ _ _ _ _ _ Hpass) as Hc.
  unfold counters_after in Hc. unfold loop_body. rewrite Hpass.
  split.
  - intros Hy Hp. rewrite Hy in Hc. destruct Hc as [Ha Hb].
    destruct (pending st') as [|kv rest] eqn:Hpend; [done|].
    eexists _, _. split; [by rewrite Hb|]. split.
    { unfold slept. by rewrite omap_app. }
    simpl. split; lia.
  - intros Hy. destruct (yielded out) as [|y ys]; [done|].
    destruct Hc as [Ha Hb]. split; [done|]. split; [done|].
    intros Hp. destruct (pending st') as [|kv rest] eqn:Hpend; [done|].
    eexists _, _. split; [by rewrite Hb|]. split.
    { unfold slept. by rewrite omap_app. }
    simpl. split; lia.
Qed.

(** *** The back-offs of a whole run *)

Lemma handle_result_no_sleep (st st' : @Locals Request)
  (r : RequestResult Response) (out : list (Event Response)) x :
  handle_result self st r = (st', out, x) → slept out = [].
Proof.
  unfold handle_result.
  destruct (error r) as [err|].
  - destruct (matching (policies self) err) as [[[p|] code]|e].
    + set (warn := print_always p || _).
      destruct (action p =? SKIP).
      { destruct (dict_del _ _); intros [= <- <- <-]; by destruct warn. }
      destruct (action p =? RETRY); [intros [= <- <- <-]; by destruct warn|].
      destruct (action p =? FAIL); intros [= <- <- <-]; by destruct warn.
    + by intros [= <- <- <-].
    + by intros [= <- <- <-].
  - destruct (dict_del _ _); by intros [= <- <- <-].
Qed.

Lemma handle_results_no_sleep (st st' : @Locals Request)
  (rs : list (RequestResult Response)) (out : list (Event Response)) x :
  handle_results self st rs = (st', out, x) → slept out = [].
Proof.
  revert st out. induction rs as [|r rs IH]; intros st out; simpl.
  - by intros [= <- <- <-].
  - destruct (handle_result self st r) as [[st1 out1] x1] eqn:Hr.
    apply handle_result_no_sleep in Hr.
    destruct x1 as [e|]; [by intros [= <- <- <-]|].
    destruct (handle_results self st1 rs) as [[st2 out2] x2] eqn:Hrs.
    intros [= <- <- <-]. by rewrite slept_app, Hr, (IH _ _ Hrs).
Qed.

Lemma run_chunks_no_sleep (st st' : @Locals Request) cs w
  (out : list (Event Response)) x w' :
  run_chunks self st cs w = (st', out, x, w') → slept out = [].
Proof.
  revert st w out. induction cs as [|c cs IH]; intros st w out; simpl.
  - by intros [= <- <- <- <-].
  - destruct (run_chunk c w) as [[rs|e] w1]; [|by intros [= <- <- <- <-]].
    destruct (handle_results self st rs) as [[st1 out1] [e|]] eqn:Hrs.
    + intros [= <- <- <- <-]. apply handle_results_no_sleep in Hrs.
      by rewrite <- Hrs.
    + destruct (run_chunks self st1 cs w1) as [[[st2 out2] x2] w2] eqn:Hcs.
      intros [= <- <- <- <-]. apply handle_results_no_sleep in Hrs.
      apply IH in Hcs.
      change (Executed (chunk_ids c) :: out1 ++ out2)
        with ([Executed (Response := Response) (chunk_ids c)] ++ out1 ++ out2).
      by rewrite !slept_app, Hrs, Hcs.
Qed.

(** In every run, the first sleep is [min_backoff] and every later one is
    twice the one before it or [min_backoff] again. *)
Lemma backoffs_of_a_run (fuel : nat) (start : Z) (st : @Locals Request)
  (w w' : World) c (out : list (Event Response)) :
  execute_loop self fuel start st w = (c, out, w') →
  backoff_chain self (backoff st) (slept out).
Proof.
  revert st w c out w'. induction fuel as [|fuel IH]; intros st w c out w';
    simpl.
  - by intros [= <- <- <-].
  - destruct (monotonic w) as [now w1].
    destruct (lt_timeout _ _ && _); [|by intros [= <- <- <-]].
    unfold loop_body.
    destruct (run_pass self st w1) as [[[st' out1] [e|]] w2] eqn:Hpass.
    { intros [= <- <- <-]. by rewrite (run_chunks_no_sleep _ _ _ _ _ _ _ Hpass). }
    pose proof (run_chunks_no_sleep _ _ _ _ _ _ _ Hpass) as Hs.
    pose proof (run_chunks_counters _ _ _ _ _ _ _ Hpass) as Hc.
    destruct (pending st') as [|kv rest].
    { intros [= <- <- <-]. by rewrite Hs. }
    destruct (execute_loop self fuel start _ _) as [[c2 out2] w3] eqn:Hrest.
    intros [= <- <- <-]. apply IH in Hrest. simpl in Hrest.
    rewrite !slept_app, Hs. simpl. split.
    + unfold counters_after in Hc. destruct (yielded out1); [left|right];
        by destruct Hc.
    + by rewrite (Z.mul_comm 2).
Qed.

(** *** Termination *)

Lemma dict_del_length {V} (k : string) (d d' : dict string V) :
  dict_del k d = Some d' → length d = S (length d').
Proof.
  revert d'. induction d as [|[k' v'] d IH]; intros d'; simpl; [done|].
  case_decide; [by intros [= <-]|].
  destruct (dict_del k d) as [d1|]; [|done]. intros [= <-]. simpl.
  by rewrite (IH d1).
Qed.

Lemma handle_result_progress (st st' : @Locals Request)
  (r : RequestResult Response) (out : list (Event Response)) x :
  handle_result self st r = (st', out, x) →
  (length (pending st') + length (yielded out) ≤ length (pending st))%nat.
Proof.
  unfold handle_result.
  destruct (error r) as [err|].
  - destruct (matching (policies self) err) as [[[p|] code]|e].
    + set (warn := print_always p || _).
      destruct (action p =? SKIP).
      { destruct (dict_del _ _) as [d'|] eqn:Hdel; intros [= <- <- <-];
          destruct warn; simpl; try lia;
          apply dict_del_length in Hdel; lia. }
      destruct (action p =? RETRY);
        [intros [= <- <- <-]; destruct warn; simpl; lia|].
      destruct (action p =? FAIL); intros [= <- <- <-];
        destruct warn; simpl; lia.
    + intros [= <- <- <-]. simpl. lia.
    + intros [= <- <- <-]. simpl. lia.
  - destruct (dict_del _ _) as [d'|] eqn:Hdel; intros [= <- <- <-]; simpl;
      [apply dict_del_length in Hdel|]; lia.
Qed.

Lemma handle_results_progress (st st' : @Locals Request)
  (rs : list (RequestResult Response)) (out : list (Event Response)) x :
  handle_results self st rs = (st', out, x) →
  (length (pending st') + length (yielded out) ≤ length (pending st))%nat.
Proof.
  revert st out. induction rs as [|r rs IH]; intros st out; simpl.
  - intros [= <- <- <-]. simpl. lia.
  - destruct (handle_result self st r) as [[st1 out1] [e|]] eqn:Hr.
    + intros [= <- <- <-]. by eapply handle_result_progress.
    + destruct (handle_results self st1 rs) as [[st2 out2] x2] eqn:Hrs.
      intros [= <- <- <-]. rewrite yielded_app, length_app.
      apply handle_result_progress in Hr. apply IH in Hrs. lia.
Qed.

Lemma run_chunks_progress (st st' : @Locals Request) cs w
  (out : list (Event Response)) x w' :
  run_chunks self st cs w = (st', out, x, w') →
  (length (pending st') + length (yielded out) ≤ length (pending st))%nat.
Proof.
  revert st w out. induction cs as [|c cs IH]; intros st w out; simpl.
  - intros [= <- <- <- <-]. simpl. lia.
  - destruct (run_chunk c w) as [[rs|e] w1].
    + destruct (handle_results self st rs) as [[st1 out1] [e|]] eqn:Hrs.
      * intros [= <- <- <- <-]. apply handle_results_progress in Hrs.
        change (Executed (chunk_ids c) :: out1)
          with ([Executed (Response := Response) (chunk_ids c)] ++ out1).
        rewrite yielded_app, length_app. simpl. lia.
      * destruct (run_chunks self st1 cs w1) as [[[st2 out2] x2] w2] eqn:Hcs.
        intros [= <- <- <- <-]. apply handle_results_progress in Hrs.
        apply IH in Hcs.
        change (Executed (chunk_ids c) :: out1 ++ out2)
          with ([Executed (Response := Response) (chunk_ids c)] ++ out1 ++ out2).
        rewrite !yielded_app, !length_app. simpl. lia.
    + intros [= <- <- <- <-]. simpl. lia.
Qed.

(** A run never needs more passes than [passes_left] allows: with that much
    fuel the loop always comes to an end, by returning or by raising. *)
Lemma execute_loop_terminates (fuel : nat) (start : Z) (st : @Locals Request)
  (w : World) :
  1 ≤ attempts st →
  (passes_left self st < fuel)%nat →
  (execute_loop self fuel start st w).1.1 ≠ OutOfFuel.
Proof.
  revert st w. induction fuel as [|fuel IH]; intros st w Hatt Hfuel; [lia|].
  simpl. destruct (monotonic w) as [now w1].
  destruct (lt_timeout _ _ && (attempts st <=? max_retries self)) eqn:Hguard;
    [|done].
  apply andb_true_iff in Hguard as [_ Hle]. apply Z.leb_le in Hle.
  unfold loop_body.
  destruct (run_pass self st w1) as [[[st' out] [e|]] w2] eqn:Hpass; [done|].
  destruct (pending st') as [|kv rest] eqn:Hpend; [done|].
  set (st'' := mkLocals _ _ _ _).
  specialize (IH st'' (sleep (backoff st') w2)).
  destruct (execute_loop self fuel start st'' _) as [[c out'] w3].
  simpl in *. apply IH.
  - pose proof (run_chunks_counters _ _ _ _ _ _ _ Hpass) as Hc.
    unfold counters_after in Hc. destruct (yielded out); lia.
  - pose proof (run_chunks_counters _ _ _ _ _ _ _ Hpass) as Hc.
    pose proof (run_chunks_progress _ _ _ _ _ _ _ Hpass) as Hp.
    unfold counters_after in Hc. unfold passes_left in *. simpl.
    rewrite Hpend in Hp. simpl in Hp.
    destruct (yielded out) as [|y ys]; simpl in Hp.
    + destruct Hc as [-> _]. nia.
    + destruct Hc as [-> _]. nia.
Qed.

Lemma execute_terminates (fuel : nat) (requests : list (_Request Request))
  (w : World) :
  (passes_left self (initial self requests) < fuel)%nat →
  (execute self fuel requests w).1.1 ≠ OutOfFuel.
Proof.
  intros Hfuel. unfold execute. destruct (monotonic w) as [start w0].
  by apply execute_loop_terminates.
Qed.

(** More fuel does not change the outcome of a run that has come to an
    end. *)
Lemma execute_loop_more_fuel (fuel fuel' : nat) (start : Z)
  (st : @Locals Request) (w w' : World) c (out : list (Event Response)) :
  execute_loop self fuel start st w = (c, out, w') →
  c ≠ OutOfFuel →
  (fuel ≤ fuel')%nat →
  execute_loop self fuel' start st w = (c, out, w').
Proof.
  revert fuel' st w c out w'.
  induction fuel as [|fuel IH]; intros fuel' st w c out w'; simpl.
  - by intros [= <- <- <-].
  - intros Hrun Hc Hle. destruct fuel' as [|fuel']; [lia|]. simpl.
    destruct (monotonic w) as [now w1].
    destruct (lt_timeout _ _ && _); [|done].
    destruct (loop_body self st w1) as [[[c1|st1] out1] w2]; [done|].
    destruct (execute_loop self fuel start st1 w2) as [[c2 out2] w3] eqn:Hrest.
    injection Hrun as <- <- <-.
    by rewrite (IH fuel' st1 w2 c2 out2 w3) by (done || lia).
Qed.

(** *** Runs in which every request keeps failing with a retried error *)

Lemma only_warnings_silent (out : list (Event Response)) :
  only_warnings out → yielded out = [] ∧ slept out = [] ∧ executed out = [].
Proof.
  induction 1 as [|e out (t & rid & ->) _ (Hy & Hs & He)]; [done|].
  by rewrite ?Hy, ?Hs, ?He.
Qed.

Lemma handle_result_retry (st : @Locals Request) (r : RequestResult Response) e p code :
  error r = Some e →
  matching (policies self) e = Ok (Some p, code) →
  action p = RETRY →
  ∃ ws out,
    handle_result self st r =
      (mkLocals (pending st) ws (attempts st) (backoff st), out, None) ∧
    only_warnings out.
Proof.
  intros He Hm Ha. unfold handle_result. rewrite He, Hm, Ha. simpl.
  eexists _, _. split; [done|].
  destruct (print_always p || _); repeat constructor. by eexists _, _.
Qed.

Lemma handle_results_retry (st : @Locals Request) (rs : list (RequestResult Response)) :
  Forall (λ r, ∃ e p code,
            error r = Some e ∧
            matching (policies self) e = Ok (Some p, code) ∧
            action p = RETRY) rs →
  ∃ ws out,
    handle_results self st rs =
      (mkLocals (pending st) ws (attempts st) (backoff st), out, None) ∧
    only_warnings out.
Proof.
  intros Hall. revert st.
  induction Hall as [|r rs (e & p & code & He & Hm & Ha) _ IH]; intros st.
  - exists (warnings st), []. split; [by destruct st|constructor].
  - destruct (handle_result_retry st r e p code He Hm Ha)
      as (ws1 & out1 & Hr & Hw1).
    destruct (IH (mkLocals (pending st) ws1 (attempts st) (backoff st)))
      as (ws2 & out2 & Hrs & Hw2).
    exists ws2, (out1 ++ out2). simpl. rewrite Hr, Hrs. simpl.
    split; [done|]. by apply Forall_app.
Qed.

Lemma run_chunks_retry (all cs : list Chunk) (st : @Locals Request) w :
  always_retries self all → cs ⊆ all →
  ∃ ws out w',
    run_chunks self st cs w =
      (mkLocals (pending st) ws (attempts st) (backoff st), out, None, w') ∧
    yielded out = [] ∧ slept out = [] ∧
    executed out = chunk_ids <$> cs.
Proof.
  intros Hall. revert st w.
  induction cs as [|c cs IH]; intros st w Hsub.
  - exists (warnings st), [], w. by destruct st.
  - destruct (Hall c) with w as (rs & w1 & Hc & Hrs); [set_solver|].
    destruct (handle_results_retry st rs Hrs) as (ws1 & out1 & Hh & Hw1).
    apply only_warnings_silent in Hw1 as (Hy1 & Hs1 & He1).
    destruct (IH (mkLocals (pending st) ws1 (attempts st) (backoff st)) w1)
      as (ws2 & out2 & w2 & Hcs & Hy2 & Hs2 & He2); [set_solver|].
    exists ws2, (Executed (chunk_ids c) :: out1 ++ out2), w2.
    simpl. rewrite Hc, Hh, Hcs. simpl. split; [done|].
    change (Executed (chunk_ids c) :: out1 ++ out2)
      with ([Executed (chunk_ids c)] ++ out1 ++ out2).
    rewrite !yielded_app, !slept_app, !executed_app.
    rewrite Hy1, Hy2, Hs1, Hs2, He1, He2. by simpl.
Qed.

Lemma execute_loop_retry (P : dict string (_Request Request)) (start : Z) (k : nat) :
  P ≠ [] →
  always_retries self (delegate_chunks (delegate self) (values P)) →
  ∀ (fuel : nat) (st : @Locals Request) w,
    pending st = P →
    Z.of_nat k = max_retries self + 1 - attempts st →
    (k < fuel)%nat →
    ∃ (n : nat) x out w',
      execute_loop self fuel start st w = (Raised x, out, w') ∧
      executed out =
        concat (replicate n
                  (chunk_ids <$> delegate_chunks (delegate self) (values P))) ∧
      length (slept out) = n ∧
      yielded out = [] ∧
      ((n = k ∧ x = too_many) ∨ ((n < k)%nat ∧ x = timed_out)) ∧
      (timeout self = Inf → n = k).
Proof.
  intros HP Hall. induction k as [|k IH]; intros fuel st w Hpend Hk Hfuel.
  - destruct fuel as [|fuel]; [lia|]. simpl.
    destruct (monotonic w) as [now w1].
    assert ((attempts st <=? max_retries self) = false) as -> by lia.
    rewrite andb_false_r.
    assert ((max_retries self <? attempts st) = true) as -> by lia.
    exists 0%nat, too_many, [], w1. repeat split; auto.
  - destruct fuel as [|fuel]; [lia|]. simpl.
    destruct (monotonic w) as [now w1].
    assert ((attempts st <=? max_retries self) = true) as -> by lia.
    rewrite andb_true_r.
    destruct (lt_timeout (now - start) (timeout self)) eqn:Hto.
    + destruct (run_chunks_retry _ (delegate_chunks (delegate self) (values P))
                  st w1 Hall) as (ws & out & w2 & Hpass & Hy & Hs & He);
        [done|].
      unfold loop_body, run_pass. rewrite Hpend, Hpass. simpl.
      rewrite (nonempty_match (pending st)) by (by rewrite Hpend).
      rewrite Hpend.
      set (st' := mkLocals P ws (attempts st + 1) (backoff st * 2)).
      destruct (IH fuel st' (sleep (backoff st) w2))
        as (n & x & out' & w3 & Hloop & He' & Hs' & Hy' & Hx & Hinf);
        [done|simpl; lia|lia|].
      rewrite Hloop.
      eexists (S n), x, _, w3. split; [reflexivity|].
      rewrite !executed_app, !slept_app, !yielded_app, He, He', Hs, Hy, Hy'.
      simpl.
      split; [by rewrite (right_id_L [] (++))|].
      split; [by rewrite Hs'|]. split; [done|]. split.
      * destruct Hx as [[-> ->]|[? ->]]; [by left|right; split; [lia|done]].
      * intros Hi. by rewrite (Hinf Hi).
    + assert ((max_retries self <? attempts st) = false) as -> by lia.
      exists 0%nat, timed_out, [], w1. repeat split; auto.
      * right. split; [lia|done].
      * intros Hi. rewrite Hi in Hto. done.
Qed.

Lemma dict_set_nonempty {V} (k : string) (v : V) (d : dict string V) :
  dict_set k v d ≠ [].
Proof. destruct d as [|[k' v'] d]; simpl; [done|]. by case_decide. Qed.

Lemma make_pending_nonempty (requests : list (_Request Request)) :
  requests ≠ [] → make_pending requests ≠ [].
Proof.
  destruct requests as [|r requests _] using rev_ind; [done|]. intros _.
  unfold make_pending. rewrite foldl_app. simpl. apply dict_set_nonempty.
Qed.

Lemma delegate_chunks_nonempty d (requests : list (_Request Request)) :
  requests ≠ [] → delegate_chunks d requests ≠ [].
Proof. by destruct d, requests. Qed.

Lemma first_pass_nonempty (requests : list (_Request Request)) :
  requests ≠ [] → first_pass self requests ≠ [].
Proof.
  intros Hne. apply delegate_chunks_nonempty.
  apply make_pending_nonempty in Hne.
  unfold values. by destruct (make_pending requests).
Qed.

(** C1. Exhaustion. When every answer of the service is an error that the
    table retries, a run over a non-empty collection of requests ends by
    raising one of the two terminal errors, after [n] full passes and [n]
    back-offs, without yielding anything. [n] is never more than
    [max_retries]; it is exactly [max_retries] when and only when the error is
    "Too many retry attempts"; it is fewer only when the error is "Operation
    timed out"; and with the unbounded timeout it is always exactly
    [max_retries]. The two errors are different. *)
Theorem exhaustion_boundary (requests : list (_Request Request)) (w : World) (fuel : nat) :
  0 ≤ max_retries self →
  requests ≠ [] →
  always_retries self (first_pass self requests) →
  (Z.to_nat (max_retries self) < fuel)%nat →
  ∃ (n : nat) x out w',
    execute self fuel requests w = (Raised x, out, w') ∧
    first_pass self requests ≠ [] ∧
    executed out =
      concat (replicate n (chunk_ids <$> first_pass self requests)) ∧
    length (slept out) = n ∧
    yielded out = [] ∧
    ((Z.of_nat n = max_retries self ∧ x = too_many) ∨
     (Z.of_nat n < max_retries self ∧ x = timed_out)) ∧
    (timeout self = Inf → Z.of_nat n = max_retries self ∧ x = too_many) ∧
    too_many ≠ timed_out.
Proof.
  intros Hmax Hne Hall Hfuel. unfold execute.
  destruct (monotonic w) as [start w0].
  destruct (execute_loop_retry (make_pending requests) start
              (Z.to_nat (max_retries self))
              (make_pending_nonempty _ Hne) Hall fuel
              (initial self requests) w0)
    as (n & x & out & w' & Hrun & He & Hs & Hy & Hx & Hinf);
    [done|simpl; lia|done|].
  exists n, x, out, w'. split; [done|].
  split; [by apply first_pass_nonempty|].
  split; [done|]. split; [done|]. split; [done|].
  split; [|split; [|done]].
  - destruct Hx as [[-> ->]|[? ->]]; [left|right]; split; (lia || done).
  - intros Hi. specialize (Hinf Hi).
    destruct Hx as [[-> ->]|[? ->]]; [split; [lia|done]|lia].
Qed.

(** *** Runs in which every error is skipped *)

Lemma dict_del_elem {V} (k : string) (d : dict string V) :
  k ∈ keys d →
  ∃ d', dict_del k d = Some d' ∧ keys d ≡ₚ k :: keys d'.
Proof.
  unfold keys. induction d as [|[k' v'] d IH]; simpl.
  - by intros ?%elem_of_nil.
  - intros Hin. case_decide as Hk.
    + subst k'. by exists d.
    + apply elem_of_cons in Hin as [?|Hin]; [done|].
      destruct (IH Hin) as (d' & -> & Hperm). exists ((k', v') :: d').
      split; [done|]. simpl. rewrite Hperm. apply Permutation_swap.
Qed.

Lemma handle_result_skip (st : @Locals Request) (r : RequestResult Response) (rest : list string) :
  ok_or_skipped self r →
  keys (pending st) ≡ₚ id r :: rest →
  ∃ st' out,
    handle_result self st r = (st', out, None) ∧
    keys (pending st') ≡ₚ rest ∧
    yielded out = filter (λ r, error r = None) [r] ∧
    slept out = [] ∧ executed out = [].
Proof.
  intros Hr Hkeys.
  destruct (dict_del_elem (id r) (pending st)) as (d' & Hdel & Hperm).
  { rewrite Hkeys. set_solver. }
  assert (keys d' ≡ₚ rest) as Hrest.
  { rewrite Hkeys in Hperm. by apply (inj (cons (id r))) in Hperm. }
  unfold handle_result.
  destruct Hr as [He|(e & p & code & He & Hm & Ha)].
  - rewrite He, Hdel. eexists _, _. split; [done|]. split; [done|].
    rewrite filter_cons_True by done. done.
  - rewrite He, Hm, Ha, Hdel. simpl. eexists _, _. split; [done|].
    split; [done|]. rewrite filter_cons_False by (by rewrite He).
    by destruct (print_always p || _).
Qed.

Lemma handle_results_skip (rs : list (RequestResult Response)) (st : @Locals Request) (rest : list string) :
  Forall (ok_or_skipped self) rs →
  keys (pending st) ≡ₚ (id <$> rs) ++ rest →
  ∃ st' out,
    handle_results self st rs = (st', out, None) ∧
    keys (pending st') ≡ₚ rest ∧
    yielded out = filter (λ r, error r = None) rs ∧
    slept out = [] ∧ executed out = [].
Proof.
  intros Hall. revert st.
  induction Hall as [|r rs Hr _ IH]; intros st Hkeys.
  - exists st, []. by repeat split.
  - destruct (handle_result_skip st r _ Hr Hkeys)
      as (st1 & out1 & H1 & Hk1 & Hy1 & Hs1 & He1).
    destruct (IH st1 Hk1) as (st2 & out2 & H2 & Hk2 & Hy2 & Hs2 & He2).
    exists st2, (out1 ++ out2). simpl. rewrite H1, H2.
    split; [done|]. split; [done|].
    rewrite yielded_app, slept_app, executed_app, Hy1, Hy2, Hs1, Hs2, He1, He2.
    split; [|done].
    change (r :: rs) with ([r] ++ rs). by rewrite filter_app.
Qed.

Lemma run_chunks_skip (all cs : list Chunk) (st : @Locals Request) w (rest : list string) :
  skips_or_succeeds self all → cs ⊆ all →
  keys (pending st) ≡ₚ concat (chunk_ids <$> cs) ++ rest →
  ∃ st' out w',
    run_chunks self st cs w = (st', out, None, w') ∧
    keys (pending st') ≡ₚ rest ∧
    yielded out = filter (λ r, error r = None) (collect_results cs w) ∧
    slept out = [] ∧
    executed out = chunk_ids <$> cs.
Proof.
  intros Hall. revert st w.
  induction cs as [|c cs IH]; intros st w Hsub Hkeys.
  - exists st, [], w. by repeat split.
  - destruct (Hall c) with w as (rs & w1 & Hc & Hids & Hrs); [set_solver|].
    destruct (handle_results_skip rs st
                (concat (chunk_ids <$> cs) ++ rest) Hrs)
      as (st1 & out1 & H1 & Hk1 & Hy1 & Hs1 & He1).
    { rewrite Hkeys, Hids. simpl. by rewrite (assoc_L (++)). }
    destruct (IH st1 w1) as (st2 & out2 & w2 & H2 & Hk2 & Hy2 & Hs2 & He2);
      [set_solver|done|].
    exists st2, (Executed (chunk_ids c) :: out1 ++ out2), w2.
    simpl. rewrite Hc, H1, H2. split; [done|]. split; [done|].
    change (Executed (chunk_ids c) :: out1 ++ out2)
      with ([Executed (chunk_ids c)] ++ out1 ++ out2).
    rewrite !yielded_app, !slept_app, !executed_app.
    rewrite Hy1, Hy2, Hs1, Hs2, He1, He2, filter_app. by simpl.
Qed.

Lemma batches_concat {A} (n : nat) (l : list A) (fuel : nat) :
  (0 < n)%nat → (length l ≤ fuel)%nat → concat (batches fuel n l) = l.
Proof.
  intros Hn. revert l. induction fuel as [|fuel IH]; intros l Hl.
  - destruct l; [done|simpl in Hl; lia].
  - destruct l as [|a l]; [done|].
    unfold batches; fold (@batches A). simpl concat.
    rewrite IH; [apply take_drop|].
    rewrite length_drop. simpl in *. lia.
Qed.

Lemma delegate_chunks_ids d (requests : list (_Request Request)) :
  concat (chunk_ids <$> delegate_chunks d requests) = request_id <$> requests.
Proof.
  destruct d; simpl.
  - induction requests as [|r rs IH]; simpl; [done|]. by f_equal.
  - assert (∀ bs : list (list (_Request Request)),
              concat (chunk_ids <$> (Batch <$> bs)) = request_id <$> concat bs)
      as Hbs.
    { intros bs. induction bs as [|b bs IH]; [done|].
      rewrite !fmap_cons. simpl. by rewrite IH, fmap_app. }
    rewrite Hbs, batches_concat; [done|unfold GAPI_BATCH_LIMIT; lia|done].
Qed.

Lemma dict_set_keyed k (v : _Request Request) (d : dict string (_Request Request)) :
  k = request_id v →
  Forall (λ kv, kv.1 = request_id kv.2) d →
  Forall (λ kv, kv.1 = request_id kv.2) (dict_set k v d).
Proof.
  intros Hk. induction 1 as [|[k' v'] d Hkv Hd IH]; simpl.
  - by repeat constructor.
  - case_decide; constructor; done.
Qed.

Lemma make_pending_keys (requests : list (_Request Request)) :
  keys (make_pending requests) = request_id <$> values (make_pending requests).
Proof.
  assert (Forall (λ kv, kv.1 = request_id kv.2) (make_pending requests)) as H.
  { unfold make_pending.
    induction requests as [|r requests IH] using rev_ind; [constructor|].
    rewrite foldl_app. simpl. by apply dict_set_keyed. }
  unfold keys, values. induction H as [|[k v] d Hkv _ IH]; [done|].
  rewrite !fmap_cons. simpl in *. by rewrite Hkv, IH.
Qed.

(** C4. Skipped errors. When every answer of the service in the first pass
    is a success or an error that the table skips, a run whose loop is
    entered at all (the timeout has not passed at the first check and
    [max_retries] is at least 1) returns normally after that single pass:
    every pending request has been sent once, no back-off has been slept, the
    retry counters are at their initial values, the pending set is empty, and
    what has been yielded is exactly the successful answers, in the order the
    service gave them; nothing is yielded for a skipped request. *)
Theorem skip_completes_in_one_pass (requests : list (_Request Request)) (fuel : nat)
  (w w0 w1 : World) (start now : Z) :
  monotonic w = (start, w0) →
  monotonic w0 = (now, w1) →
  lt_timeout (now - start) (timeout self) = true →
  1 ≤ max_retries self →
  (0 < fuel)%nat →
  skips_or_succeeds self (first_pass self requests) →
  ∃ st' out w',
    execute self fuel requests w = (Returned, out, w') ∧
    run_pass self (initial self requests) w1 = (st', out, None, w') ∧
    pending st' = [] ∧
    attempts st' = 1 ∧ backoff st' = min_backoff self ∧
    slept out = [] ∧
    executed out = chunk_ids <$> first_pass self requests ∧
    yielded out =
      filter (λ r, error r = None)
        (collect_results (first_pass self requests) w1).
Proof.
  intros Hstart Hnow Hto Hmax Hfuel Hall.
  destruct (run_chunks_skip (first_pass self requests)
              (first_pass self requests) (initial self requests) w1 [] Hall)
    as (st' & out & w' & Hpass & Hkeys & Hy & Hs & He); [done|..].
  { rewrite (right_id_L [] (++)). unfold first_pass.
    rewrite delegate_chunks_ids. simpl. by rewrite make_pending_keys. }
  apply Permutation_nil_r in Hkeys.
  assert (pending st' = []) as Hpend.
  { unfold keys in Hkeys. by destruct (pending st'). }
  exists st', out, w'.
  assert (run_pass self (initial self requests) w1 = (st', out, None, w'))
    as Hrun by done.
  split; [|split; [done|split; [done|]]].
  - unfold execute. rewrite Hstart. destruct fuel as [|fuel]; [lia|]. simpl.
    rewrite Hnow, Hto. simpl.
    assert ((1 <=? max_retries self) = true) as -> by lia.
    unfold loop_body. rewrite Hrun. by rewrite Hpend.
  - pose proof (run_chunks_counters _ _ _ _ _ _ _ Hpass) as Hc.
    unfold counters_after in Hc. simpl in Hc.
    split; [by destruct (yielded out); destruct Hc|].
    split; [by destruct (yielded out); destruct Hc|]. done.
Qed.

End RunnerFacts.

(** C3. Selection in the policy table, for every table and every error
    signature (status code, reason code). The selected policy is the first
    one, in table order, whose codes contain the status and whose reasons,
    when declared, contain the reason; a policy without declared reasons
    matches on the status alone; and when no policy accepts the signature,
    a run that meets the error raises it on the spot: the results and the
    requests after it are left alone, nothing is yielded or printed for it
    and no back-off is slept. *)
Theorem first_match_or_raise (table : HttpErrorTable) (st : string)
  (errs : list (option string)) :
  let err := mkHttpError st (BodyErrors errs) in
  let rsn := reason_code errs in
  ((∃ p before after,
      table = before ++ p :: after ∧
      policy_accepts p st rsn ∧
      Forall (λ q, ¬ policy_accepts q st rsn) before ∧
      matching table err = Ok (Some p, st)) ∨
   (Forall (λ q, ¬ policy_accepts q st rsn) table ∧
    matching table err = Ok (None, st))) ∧
  (∀ p, reasons p = None →
        matches p err = Ok (bool_decide (st ∈ codes p))) ∧
  (Forall (λ q, ¬ policy_accepts q st rsn) table →
   ∀ (World Request Response : Type) (svc : Service World Request Response)
     (self : ErrorHandlingRunner) (fuel : nat) (start now : Z)
     (loc loc1 loc2 : @Locals Request) (w w1 w2 w3 : World)
     (cs1 cs2 : list Chunk) (c : Chunk)
     (rs1 rs2 : list (RequestResult Response)) (r : RequestResult Response)
     (out1 out2 : list (Event Response)),
     policies self = table →
     monotonic w = (now, w1) →
     lt_timeout (now - start) (timeout self)
       && (attempts loc <=? max_retries self) = true →
     delegate_chunks (delegate self) (values (pending loc)) =
       cs1 ++ c :: cs2 →
     run_chunks self loc cs1 w1 = (loc1, out1, None, w2) →
     run_chunk c w2 = (Ok (rs1 ++ r :: rs2), w3) →
     handle_results self loc1 rs1 = (loc2, out2, None) →
     error r = Some err →
     execute_loop self (S fuel) start loc w =
       (Raised (HttpErrorExn err),
        out1 ++ Executed (chunk_ids c) :: out2, w3)).
Proof.
  intros err rsn.
  destruct (matching_policies_filter table st errs) as (ps & Hps & Hcases).
  assert (Forall (λ q, ¬ policy_accepts q st rsn) table →
          matching table err = Ok (None, st)) as Hnone.
  { intros Hall. unfold matching. fold err in Hps. rewrite Hps. simpl.
    destruct Hcases as [[-> _]|(p & ps' & before & after & _ & -> & Hp & _)];
      [done|].
    apply Forall_app in Hall as [_ Hall]. by inversion Hall. }
  split; [|split].
  - destruct Hcases as [[-> Hall]|(p & ps' & before & after & -> & -> & Hp & Hb)].
    + right. split; [done|]. by apply Hnone.
    + left. exists p, before, after. repeat (split; [done|]).
      unfold matching. fold err in Hps. by rewrite Hps.
  - intros p Hp. unfold matches, matches_status, matches_reason. rewrite Hp.
    simpl. by case_bool_decide.
  - intros Hall World Request Response svc self fuel start now loc loc1 loc2
      w w1 w2 w3 cs1 cs2 c rs1 rs2 r out1 out2
      Htable Hclock Hguard Hchunks Hcs1 Hc Hrs1 Herr.
    eapply execute_loop_pass_raises; [done..|].
    unfold run_pass. rewrite Hchunks, run_chunks_app, Hcs1. simpl.
    rewrite Hc, handle_results_app, Hrs1. simpl.
    unfold handle_result. rewrite Herr, Htable, (Hnone Hall).
    by rewrite (right_id_L [] (++)).
Qed.

(** On the default table a 400 has no policy: the run stops at the first
    request and the second one is never sent. *)
Lemma first_match_or_raise_witness :
  execute_loop Scripted.default_runner 1 0
    (initial Scripted.default_runner
       [mk_Request (Scripted.fails Scripted.error400) "a";
        mk_Request (Scripted.succeeds "x") "b"]) 0 =
  (Raised (HttpErrorExn Scripted.error400), [Executed ["a"]], 1).
Proof.
  pose proof (first_match_or_raise DEFAULT_POLICIES "400" []) as (_ & _ & H).
  assert (Forall (λ q, ¬ policy_accepts q "400" (reason_code []))
            DEFAULT_POLICIES) as Hall.
  { repeat constructor; intros [Hin _]; vm_compute in Hin;
      repeat (apply elem_of_cons in Hin as [Hin|Hin]; [done|]);
      by apply elem_of_nil in Hin. }
  set (loc := initial Scripted.default_runner
                [mk_Request (Scripted.fails Scripted.error400) "a";
                 mk_Request (Scripted.succeeds "x") "b"]).
  exact (H Hall Scripted.World Scripted.Request string Scripted.scripted
           Scripted.default_runner 0%nat 0 0 loc loc loc 0 0 0 1
           [] [One (mk_Request (Scripted.succeeds "x") "b")]
           (One (mk_Request (Scripted.fails Scripted.error400) "a"))
           [] [] (mkRequestResult "a" None (Some Scripted.error400)) [] []
           eq_refl eq_refl eq_refl eq_refl eq_refl eq_refl eq_refl eq_refl).
Defined.

(** Two requests, one failing with a 500 and one succeeding: the pass
    yields a result, so the counters end the pass at their initial values. *)
Lemma backoff_doubles_or_resets_witness :
  let self := mkRunner Inf 5 10 DEFAULT_POLICIES SequentialRequestRunner in
  let st :=
    mkLocals
      (make_pending [mk_Request (Scripted.fails Scripted.error500) "a";
                     mk_Request (Scripted.succeeds "x") "b"]) ∅ 4 40 in
  ∃ st' out w',
    run_pass self st (0 : Scripted.World) = (st', out, None, w') ∧
    backoff st' = 5 ∧ attempts st' = 1.
Proof.
  intros self st.
  destruct (run_pass self st (0 : Scripted.World)) as [[[st' out] x] w'] eqn:Hpass.
  assert (x = None ∧ yielded out ≠ []) as [-> Hy].
  { vm_compute in Hpass. injection Hpass as <- <- <- <-. by split. }
  exists st', out, w'. split; [done|].
  destruct (backoff_doubles_or_resets self st st' 0 out w' Hpass) as [_ H].
  destruct (H Hy) as (Hb & Ha & _). by split.
Defined.

(** A single request that always fails with a 500, on the default table and
    with [max_retries = 3]. *)
Lemma exhaustion_boundary_witness :
  ∃ out w',
    execute (mkRunner Inf 5 3 DEFAULT_POLICIES SequentialRequestRunner) 4
      [mk_Request (Scripted.fails Scripted.error500) "a"] (0 : Scripted.World) =
      (Raised too_many, out, w') ∧
    executed out = [["a"]; ["a"]; ["a"]] ∧
    slept out = [5; 10; 20].
Proof.
  set (self := mkRunner Inf 5 3 DEFAULT_POLICIES SequentialRequestRunner).
  set (requests := [mk_Request (Scripted.fails Scripted.error500) "a"]).
  assert (always_retries self (first_pass self requests)) as Hall.
  { intros c Hc w. apply list_elem_of_singleton in Hc as ->.
    eexists _, _. split; [reflexivity|]. repeat constructor.
    eexists _, _, _. split; [reflexivity|]. split; reflexivity. }
  destruct (exhaustion_boundary self requests (0 : Scripted.World) 4%nat)
    as (n & x & out & w' & Hrun & _ & He & Hs & _ & _ & Hinf & _);
    [done|done|exact Hall|vm_compute; lia|].
  destruct (Hinf eq_refl) as [Hn ->].
  exists out, w'. split; [done|].
  vm_compute in Hrun. injection Hrun as <- <-. by split.
Defined.

(** A stale reference (404, skipped by the default table) next to a request
    that succeeds. *)
Lemma skip_completes_in_one_pass_witness :
  ∃ out w',
    execute Scripted.default_runner 1
      [mk_Request (Scripted.fails Scripted.error404) "a";
       mk_Request (Scripted.succeeds "x") "b"] (0 : Scripted.World) =
      (Returned, out, w') ∧
    slept out = [] ∧
    yielded out = [mkRequestResult "b" (Some "x") None].
Proof.
  set (requests := [mk_Request (Scripted.fails Scripted.error404) "a";
                    mk_Request (Scripted.succeeds "x") "b"]).
  assert (skips_or_succeeds Scripted.default_runner
            (first_pass Scripted.default_runner requests)) as Hall.
  { intros c Hc w.
    apply elem_of_cons in Hc as [->|Hc];
      [|apply list_elem_of_singleton in Hc as ->].
    - eexists _, _. split; [reflexivity|]. split; [reflexivity|].
      apply Forall_singleton. right. eexists _, _, _.
      split; [reflexivity|]. split; reflexivity.
    - eexists _, _. split; [reflexivity|]. split; [reflexivity|].
      apply Forall_singleton. by left. }
  destruct (skip_completes_in_one_pass Scripted.default_runner requests 1%nat
              (0 : Scripted.World) 0 0 0 0)
    as (st' & out & w' & Hrun & _ & _ & _ & _ & Hs & _ & Hy);
    [reflexivity|reflexivity|reflexivity|vm_compute; discriminate|lia|
     exact Hall|].
  exists out, w'. split; [done|]. split; [done|]. by rewrite Hy.
Defined.

End HttpSpec.

(** * Properties of commands/sync: the checkpoint *)
Module SyncSpec.
Import Api Sync.

Section StoreFacts.
Context {World Response : Type} `{!Env World Response} `{!SetOrder}.


(** C10. [store] and the [stored] flag. When [store] raises, whether from the
    serializer or from the write, the state it leaves behind has
    [stored = False] and nothing has been written; when it returns, the flag
    is [True], the text written is the serialization of the state with the
    flag already [True], and the write of that text did not raise. *)
Theorem store_flag_follows_write (self : SyncState) (w : World) :
  match store self w with
  | (Some x, self', fx, w') =>
      stored self' = false ∧ fx = [] ∧
      (func (args self) = false ∨
       (∃ x', serialize (pop_func (set_stored true self)) = Raise x') ∨
       (∃ text,
          serialize (pop_func (set_stored true self)) = Ok text ∧
          write_text (full_path self) text w = (Raise x, w')))
  | (None, self', fx, w') =>
      stored self' = true ∧
      ∃ text,
        serialize (pop_func (set_stored true self)) = Ok text ∧
        write_text (full_path self) text w = (Ok (), w') ∧
        fx = [Wrote (full_path self) text]
  end.
Proof.
  unfold store. simpl.
  destruct (func (args self)) eqn:Hfunc; [|by auto].
  destruct (serialize _) as [text|x] eqn:Hser.
  - change (full_path (pop_func (set_stored true self))) with (full_path self).
    destruct (write_text _ _ _) as [[[]|x] w'] eqn:Hwrite.
    + split; [done|]. by exists text.
    + split; [done|]. split; [done|]. right. right. by exists text.
  - split; [done|]. split; [done|]. right. left. by exists x.
Qed.


(** With enough fuel for the upload run, [_sync] comes to an end. *)
Lemma sync_returns (state : SyncState) (w : World) :
  ∃ fuel0, ∀ fuel, (fuel0 ≤ fuel)%nat → _sync fuel state w ≠ None.
Proof.
  unfold _sync.
  destruct (_uncacheable_exclusions _ _) as [[dynamic|e] w1];
    [|by exists 0%nat].
  destruct (from_name _ _) as [[found|e] w2]; [|by exists 0%nat].
  destruct (_ ← unique found _ _ _; _) as [requests|e]; [|by exists 0%nat].
  destruct (if stored _ then _ else _) as [[[[e|] state2] fx] w3];
    [by exists 0%nat|].
  destruct (dry_run (args state2)); [by exists 0%nat|].
  exists (S (Http.passes_left upload_runner
               (Http.initial upload_runner requests))).
  intros fuel Hfuel.
  pose proof (HttpSpec.execute_terminates upload_runner fuel requests w3)
    as Hend.
  destruct (Http.execute upload_runner fuel requests w3) as [[[| e |] out] w4].
  - by destruct (clear state2 w4) as [[? ?] ?].
  - done.
  - exfalso. apply Hend; [lia|done].
Qed.

End StoreFacts.

Section DiffFacts.
Context `{!SetOrder}.

(** ** The sync diff *)

Lemma dict_get_set {K V} `{!EqDecision K} (h k : K) (v : V) (d : dict K V) :
  dict_get h (dict_set k v d) = if decide (h = k) then Some v else dict_get h d.
Proof.
  induction d as [|[k' v'] d IH]; simpl.
  - by repeat case_decide.
  - repeat (case_decide; simpl); try congruence.
Qed.

Lemma dict_get_keys {K V} `{!EqDecision K} (k : K) (d : dict K V) :
  k ∈ keys d ↔ is_Some (dict_get k d).
Proof.
  unfold keys. induction d as [|[k' v'] d IH]; simpl.
  - split; [by intros ?%elem_of_nil|by intros [? ?]].
  - rewrite elem_of_cons. case_decide; [naive_solver|].
    rewrite IH. naive_solver.
Qed.

Lemma by_md5_get (fs : list LocalFile) (h : string) :
  dict_get h (_by_md5 fs) =
  match filter (has_md5 h) fs with
  | [] => None
  | l => Some l
  end.
Proof.
  unfold _by_md5. induction fs as [|f fs IH] using rev_ind; [done|].
  rewrite foldl_app, filter_app. simpl. rewrite dict_get_set.
  case_decide as Hh.
  - subst h. rewrite IH, filter_cons_True, filter_nil by done.
    destruct (filter _ fs) as [|g l]; [done|]. simpl. done.
  - rewrite IH, filter_cons_False, filter_nil by (unfold has_md5; congruence).
    by rewrite (right_id_L [] (++)).
Qed.

Lemma by_md5_keys (fs : list LocalFile) (h : string) :
  h ∈ keys (_by_md5 fs) ↔ h ∈ md5_checksum <$> fs.
Proof.
  rewrite dict_get_keys, by_md5_get, list_elem_of_fmap.
  split.
  - destruct (filter _ fs) as [|f l] eqn:Hf; [by intros [? ?]|]. intros _.
    assert (f ∈ filter (has_md5 h) fs) as Hin by (rewrite Hf; left).
    apply list_elem_of_filter in Hin as [Hh Hin]. by exists f.
  - intros (f & -> & Hin).
    assert (f ∈ filter (has_md5 (md5_checksum f)) fs) as Hf
      by (by apply list_elem_of_filter).
    destruct (filter _ fs); [by apply elem_of_nil in Hf|done].
Qed.

(** The head of a filter is the first element that passes it. *)
Lemma filter_head_first {A} (P : A → Prop) `{!∀ a, Decision (P a)}
  (l : list A) (a : A) (rest : list A) :
  filter P l = a :: rest →
  ∃ k, l !! k = Some a ∧ ∀ j b, (j < k)%nat → l !! j = Some b → ¬ P b.
Proof.
  induction l as [|x l IH]; [done|].
  destruct (decide (P x)) as [Hx|Hx].
  - rewrite filter_cons_True by done. intros [= -> _].
    exists 0%nat. split; [done|]. intros; lia.
  - rewrite filter_cons_False by done. intros Hf.
    destruct (IH Hf) as (k & Hk & Hfirst). exists (S k). split; [done|].
    intros [|j] b Hj; simpl; [by intros [= <-]|].
    apply Hfirst. lia.
Qed.

Lemma remote_md5s_elem (ss : Snapshot) (h : string) :
  Some h ∈ remote_md5s ss ↔ holds_md5 h (entries ss).
Proof.
  unfold remote_md5s, holds_md5.
  rewrite elem_of_list_to_set, list_elem_of_omap. split.
  - intros ([] & Hin & Hsome); simplify_eq. by eexists _, _, _, _.
  - intros (n & i & m & ps & Hin). by eexists (DriveFile n i m ps (Some h)).
Qed.

Lemma to_sync_elem (fs : list LocalFile) (ss : Snapshot) (h : string) :
  h ∈ to_sync (_by_md5 fs) (remote_md5s ss) ↔
  h ∈ md5_checksum <$> fs ∧ ¬ holds_md5 h (entries ss).
Proof.
  unfold to_sync.
  rewrite elem_of_filter, elem_of_list_to_set, by_md5_keys, remote_md5s_elem.
  tauto.
Qed.

Lemma queue_first_files (fs : list LocalFile) (fid : string) (n m : string)
  (ps ks : list string) :
  (∀ k, k ∈ ks → k ∈ md5_checksum <$> fs) →
  ∃ queued,
    traverse (upload_request (DriveFolder n fid m ps) (_by_md5 fs)) ks =
      Ok ((λ f, Http.mk_Request (FilesCreate fid (path f)) (path f))
            <$> queued) ∧
    md5_checksum <$> queued = ks ∧
    Forall (is_first_with_md5 fs) queued.
Proof.
  induction ks as [|k ks IH]; intros Hks.
  - by exists [].
  - destruct IH as (queued & Hq & Hmd5 & Hfirst); [set_solver|].
    assert (k ∈ keys (_by_md5 fs)) as Hk by (apply by_md5_keys; set_solver).
    apply dict_get_keys in Hk as [l Hl].
    pose proof Hl as Hl'. rewrite by_md5_get in Hl'.
    destruct (filter (has_md5 k) fs) as [|f rest] eqn:Hf; [done|].
    injection Hl' as <-.
    assert (md5_checksum f = k) as Hfk.
    { assert (f ∈ filter (has_md5 k) fs) as Hin by (rewrite Hf; left).
      by apply list_elem_of_filter in Hin as [? _]. }
    assert (upload_request (DriveFolder n fid m ps) (_by_md5 fs) k =
            Ok (Http.mk_Request (FilesCreate fid (path f)) (path f))) as Hreq.
    { unfold upload_request. by rewrite Hl. }
    exists (f :: queued). rewrite !fmap_cons. cbn [traverse].
    rewrite Hreq, Hq. split; [done|]. split; [by rewrite Hfk, Hmd5|].
    constructor; [|done].
    destruct (filter_head_first _ _ _ _ Hf) as (i & Hi & Hbefore).
    exists i. split; [done|]. intros j g Hj Hg. rewrite Hfk.
    by apply (Hbefore j g).
Qed.

(** C7. The sync diff. The hashes to upload are exactly the hashes of the
    local files that no file entry of the exclusion snapshot carries (folders
    and plain resources do not count); the queue holds exactly one local file
    for each of these hashes, the first file with that hash in the order of
    the local scan; and once the snapshot is merged with entries that carry
    every uploaded hash, the diff is empty. *)
Theorem sync_diff_exact (state : SyncState) (n fid m : string)
  (ps : list string) :
  let missing :=
    to_sync (_by_md5 (local_files state)) (remote_md5s (snapshot state)) in
  (∀ h, h ∈ missing ↔
        h ∈ md5_checksum <$> local_files state ∧
        ¬ holds_md5 h (entries (snapshot state))) ∧
  (∃ queued,
     queue_uploads state (DriveFolder n fid m ps) =
       Ok ((λ f, Http.mk_Request (FilesCreate fid (path f)) (path f))
             <$> queued) ∧
     md5_checksum <$> queued ≡ₚ elements missing ∧
     Forall (is_first_with_md5 (local_files state)) queued) ∧
  (∀ uploaded,
     (∀ h, h ∈ missing → holds_md5 h uploaded) →
     to_sync (_by_md5 (local_files state))
       (remote_md5s (merge (snapshot state) (mkSnapshot uploaded))) = ∅).
Proof.
  intros missing. split; [|split].
  - intros h. apply to_sync_elem.
  - destruct (queue_first_files (local_files state) fid n m ps
                (iter_set missing)) as (queued & Hq & Hmd5 & Hfirst).
    { intros k Hk. rewrite iter_set_perm in Hk. apply elem_of_elements in Hk.
      by apply to_sync_elem in Hk as [? _]. }
    exists queued. split; [done|]. split; [|done].
    rewrite Hmd5. apply iter_set_perm.
  - intros uploaded Hup. apply set_eq. intros h.
    rewrite to_sync_elem. split; [|by intros ?%not_elem_of_empty].
    intros [Hlocal Hnot]. exfalso. apply Hnot.
    destruct (decide (Some h ∈ remote_md5s (snapshot state))) as [Hs|Hs];
      rewrite remote_md5s_elem in Hs.
    + destruct Hs as (fn & fi & fm & fps & Hin).
      exists fn, fi, fm, fps. simpl. apply elem_of_app. by left.
    + destruct (Hup h) as (fn & fi & fm & fps & Hin);
        [by apply to_sync_elem|].
      exists fn, fi, fm, fps. simpl. apply elem_of_app. by right.
Qed.

End DiffFacts.
(** Local hashes h1, h2, h1, h3 against a remote that holds h2: once entries
    for h1 and h3 are merged in, nothing is left to upload. *)
Lemma sync_diff_exact_witness :
  to_sync (_by_md5 Fixtures.photos)
    (remote_md5s
       (merge Fixtures.remote_b
          (mkSnapshot
             [DriveFile "a.jpg" "id-3" "image/jpeg" ["id-target"] (Some "h1");
              DriveFile "c.jpg" "id-4" "image/jpeg" ["id-target"] (Some "h3")])))
  = ∅.
Proof.
  destruct (sync_diff_exact (Fixtures.fresh_state false)
              "target" "id-target" FolderMimeType []) as (Hmissing & _ & Hconv).
  apply Hconv. intros h [Hlocal Hremote]%Hmissing.
  vm_compute in Hlocal.
  repeat (apply elem_of_cons in Hlocal as [->|Hlocal]).
  - eexists _, _, _, _. left.
  - exfalso. apply Hremote. eexists _, _, _, _. left.
  - eexists _, _, _, _. left.
  - eexists _, _, _, _. right. left.
  - by apply elem_of_nil in Hlocal.
Defined.

End SyncSpec.

(** * Properties of commands/dedup.py *)
Module DedupSpec.
Import Api Dedup.

Lemma rank_from_spec (prefixes : list string) (p : ResourcePath) (s : string)
  (i : nat) :
  str p = Ok s →
  (∃ r, rank_from i prefixes p = Ok (i + r)%nat ∧ first_prefix prefixes s r) ∨
  (rank_from i prefixes p = Raise (not_covered s) ∧ uncovered prefixes s).
Proof.
  intros Hs. revert i. induction prefixes as [|q prefixes IH]; intros i; simpl.
  - right. rewrite Hs. split; [done|]. by intros q ?%elem_of_nil.
  - unfold startswith. rewrite Hs. simpl.
    destruct (String.prefix q s) eqn:Hq.
    + left. exists 0%nat. split; [by rewrite Nat.add_0_r|].
      exists q. split; [done|]. split; [done|]. intros; lia.
    + destruct (IH (S i)) as [(r & Hr & pfx & Hl & Hp & Hb)|[Hr Hu]].
      * left. exists (S r). split; [by rewrite Nat.add_succ_r|].
        exists pfx. split; [done|]. split; [done|].
        intros [|j] q' Hj; simpl; [by intros [= <-]|].
        apply Hb. lia.
      * right. split; [done|].
        intros q' [->|Hin]%elem_of_cons; [done|by apply Hu].
Qed.

Lemma rank_spec (prefixes : list string) (ps : list ResourcePath)
  (ss : list string) :
  Forall2 (λ p s, str p = Ok s) ps ss →
  (∃ ranks, rank prefixes ps = Ok ranks ∧
            Forall2 (first_prefix prefixes) ss ranks) ∨
  (∃ s, s ∈ ss ∧ uncovered prefixes s ∧
        rank prefixes ps = Raise (not_covered s)).
Proof.
  unfold rank. induction 1 as [|p s ps ss Hs _ IH]; simpl.
  - left. exists []. by split.
  - destruct (rank_from_spec prefixes p s 0 Hs) as [(r & -> & Hr)|[-> Hu]].
    + simpl. destruct IH as [(ranks & -> & Hranks)|(s' & Hin & Hu & ->)].
      * left. exists (r :: ranks). split; [done|]. by constructor.
      * right. exists s'. split; [by right|]. by split.
    + right. exists s. split; [by left|]. by split.
Qed.

Lemma insert_by_perm {A} (key : A → nat) (x : A) (l : list A) :
  insert_by key x l ≡ₚ x :: l.
Proof.
  induction l as [|y l IH]; simpl; [done|].
  case_decide; [done|]. rewrite IH. apply Permutation_swap.
Qed.

(** The head of a stable sort is the first of the elements with the least
    key, and the rest is everything else. *)
Lemma sorted_head {A} (key : A → nat) (l : list A) :
  l ≠ [] →
  ∃ k m rest,
    sorted key l = m :: rest ∧
    l !! k = Some m ∧
    (∀ j x, l !! j = Some x → (key m ≤ key x)%nat) ∧
    (∀ j x, (j < k)%nat → l !! j = Some x → (key m < key x)%nat) ∧
    rest ≡ₚ base.delete k l.
Proof.
  induction l as [|x l IH]; [done|]. intros _.
  destruct l as [|y l].
  { exists 0%nat, x, []. repeat split; try done.
    - intros [|j] z; simpl; [by intros [= <-]|done].
    - intros; lia. }
  destruct IH as (k & m & rest & Hsort & Hk & Hmin & Hfirst & Hrest); [done|].
  change (sorted key (x :: y :: l))
    with (insert_by key x (sorted key (y :: l))).
  rewrite Hsort. simpl. case_decide as Hx.
  - exists 0%nat, x, (m :: rest). split; [done|]. split; [done|].
    split; [|split].
    + intros [|j] z; simpl; [by intros [= <-]|].
      intros Hz. specialize (Hmin j z Hz). lia.
    + intros; lia.
    + simpl. rewrite Hrest. symmetry. by apply delete_Permutation.
  - exists (S k), m, (insert_by key x rest). split; [done|]. split; [done|].
    split; [|split].
    + intros [|j] z; simpl; [intros [= <-]; lia|]. apply Hmin.
    + intros [|j] z Hj; simpl; [intros [= <-]; lia|]. apply Hfirst. lia.
    + rewrite insert_by_perm, Hrest. done.
Qed.

Lemma traverse_raises {A B} (f : A → result B) (l : list A) (a : A) e :
  a ∈ l → f a = Raise e → ∃ e', traverse f l = Raise e'.
Proof.
  intros Hin Ha. induction l as [|b l IH]; [by apply elem_of_nil in Hin|].
  simpl. destruct (f b) as [y|e1] eqn:Hb; [|by exists e1]. simpl.
  apply elem_of_cons in Hin as [->|Hin]; [congruence|].
  destruct (IH Hin) as [e' ->]. by exists e'.
Qed.

Lemma traverse_path_of (paths : dict string ResourcePath)
  (entries : list Resource) (ss : list string) :
  Forall2 (renders_as paths) entries ss →
  ∃ ps, traverse (path_of paths) entries = Ok ps ∧
        Forall2 (λ p s, str p = Ok s) ps ss.
Proof.
  induction 1 as [|e s entries ss (p & Hp & Hs) _ (ps & IH & Hps)].
  - by exists [].
  - assert (path_of paths e = Ok p) as He by (unfold path_of; by rewrite Hp).
    exists (p :: ps). cbn [traverse]. rewrite He, IH.
    split; [done|]. by constructor.
Qed.

Lemma traverse_requests (paths : dict string ResourcePath)
  (prefs : list (Resource * nat)) :
  Forall (λ pref, ∃ s, renders_as paths pref.1 s) prefs →
  ∃ reqs,
    traverse
      (λ pref : Resource * nat,
         p ← path_of paths pref.1;
         s ← str p;
         Ok (Http.mk_Request (delete pref.1)
               ((s : string) +:+ " (" +:+ id pref.1 +:+ ")"))) prefs = Ok reqs ∧
    Http.request <$> reqs = delete <$> prefs.*1.
Proof.
  induction 1 as [|pref prefs (s & p & Hp & Hs) _ (reqs & IH & Hreqs)].
  - by exists [].
  - assert (path_of paths pref.1 = Ok p) as He
      by (unfold path_of; by rewrite Hp).
    eexists (_ :: reqs). cbn [traverse]. rewrite IH, He. simpl.
    rewrite Hs. simpl.
    split; [done|]. simpl. f_equal. exact Hreqs.
Qed.

Lemma lookup_zip {A B} (l : list A) (k : list B) (i : nat) (a : A) (b : B) :
  zip l k !! i = Some (a, b) ↔ l !! i = Some a ∧ k !! i = Some b.
Proof.
  revert k i. induction l as [|x l IH]; intros [|y k] [|i]; simpl;
    try naive_solver.
Qed.

(** C6. Ranking and removal within a duplicate group. For every non-empty
    group whose members have rendered paths, and every list of prefixes:
    either some member's path starts with none of the prefixes, and then the
    group raises the "not covered" error and so does the whole command,
    before any request is sent; or every member's rank is the index of the
    first prefix its path starts with, the member kept is the first one in
    the group's order among those of least rank, and the deletion requests
    queued are exactly those of all the other members. *)
Theorem duplicate_ranking (prefixes : list string)
  (paths : dict string ResourcePath) (entries : list Resource)
  (ss : list string) :
  entries ≠ [] →
  Forall2 (renders_as paths) entries ss →
  (∃ s,
     s ∈ ss ∧ uncovered prefixes s ∧
     group_deletions prefixes paths entries = Raise (not_covered s) ∧
     ∀ (duplicates : dict (option string) (list Resource))
       (World Response : Type) (svc : Http.Service World ApiRequest Response)
       (fuel : nat) (dry : bool) (w : World),
       entries ∈ values duplicates →
       ∃ x, dedup_apply fuel prefixes dry duplicates paths w =
              (Http.Raised x, [], w)) ∨
  (∃ ranks k kept rk reqs,
     Forall2 (first_prefix prefixes) ss ranks ∧
     entries !! k = Some kept ∧ ranks !! k = Some rk ∧
     (∀ j r, ranks !! j = Some r → (rk ≤ r)%nat) ∧
     (∀ j r, (j < k)%nat → ranks !! j = Some r → (rk < r)%nat) ∧
     group_deletions prefixes paths entries = Ok reqs ∧
     Http.request <$> reqs ≡ₚ delete <$> base.delete k entries).
Proof.
  intros Hne Hrender.
  destruct (traverse_path_of paths entries ss Hrender) as (ps & Hps & Hstr).
  destruct (rank_spec prefixes ps ss Hstr)
    as [(ranks & Hrank & Hranks)|(s & Hin & Hu & Hrank)].
  - right.
    assert (length entries = length ranks) as Hlen.
    { rewrite (Forall2_length _ _ _ Hrender). by eapply Forall2_length. }
    set (prefs := zip entries ranks).
    destruct (sorted_head snd prefs) as (k & [kept rk] & rest & Hsort & Hk &
                                         Hmin & Hfirst & Hrest).
    { destruct entries, ranks; done. }
    apply lookup_zip in Hk as [Hke Hkr].
    assert (Forall (λ pref, ∃ s, renders_as paths pref.1 s) rest) as Hall.
    { apply Forall_forall. intros [e r] Hin.
      assert ((e, r) ∈ prefs) as Hin'.
      { rewrite Hrest in Hin. by eapply list_elem_of_delete_inv. }
      apply list_elem_of_lookup in Hin' as [j Hj].
      apply lookup_zip in Hj as [Hje _].
      destruct (Forall2_lookup_l _ _ _ _ _ Hrender Hje) as (s & _ & Hs).
      by exists s. }
    destruct (traverse_requests paths rest Hall) as (reqs & Hreqs & Hreq).
    exists ranks, k, kept, rk, reqs.
    split; [done|]. split; [done|]. split; [done|]. split; [|split; [|split]].
    + intros j r Hr.
      destruct (lookup_lt_is_Some_2 entries j) as [e He].
      { rewrite Hlen. by eapply lookup_lt_Some. }
      apply (Hmin j (e, r)). by apply lookup_zip.
    + intros j r Hj Hr.
      destruct (lookup_lt_is_Some_2 entries j) as [e He].
      { rewrite Hlen. by eapply lookup_lt_Some. }
      apply (Hfirst j (e, r)); [done|]. by apply lookup_zip.
    + unfold group_deletions. rewrite Hps. simpl. rewrite Hrank. simpl.
      fold prefs. by rewrite Hsort.
    + rewrite Hreq, Hrest, list_fmap_delete. unfold prefs.
      by rewrite fst_zip by lia.
  - left. exists s. split; [done|]. split; [done|].
    assert (group_deletions prefixes paths entries = Raise (not_covered s))
      as Hgroup.
    { unfold group_deletions. rewrite Hps. simpl. by rewrite Hrank. }
    split; [done|].
    intros duplicates World Response svc fuel dry w Hmember.
    destruct (traverse_raises (group_deletions prefixes paths)
                (values duplicates) entries _ Hmember Hgroup) as [x Hx].
    exists x. unfold dedup_apply, queue_deletions. by rewrite Hx.
Qed.

(** The copy under /Pictures/Old is queued for deletion and the copy under
    /Pictures/New is kept, although the old copy comes first in the group. *)
Lemma duplicate_ranking_witness :
  Fixtures.dup_group ≠ [] ∧
  Forall2 (renders_as Fixtures.dup_paths) Fixtures.dup_group
    ["/Pictures/Old/x.jpg"; "/Pictures/New/x.jpg"] ∧
  group_deletions Fixtures.preferences Fixtures.dup_paths Fixtures.dup_group =
    Ok [Http.mk_Request (FilesDelete "id-old") "/Pictures/Old/x.jpg (id-old)"].
Proof.
  assert (Fixtures.dup_group ≠ []) as Hne by done.
  assert (Forall2 (renders_as Fixtures.dup_paths) Fixtures.dup_group
            ["/Pictures/Old/x.jpg"; "/Pictures/New/x.jpg"]) as Hrender.
  { repeat constructor; eexists; split; reflexivity. }
  split; [done|]. split; [done|].
  destruct (duplicate_ranking Fixtures.preferences Fixtures.dup_paths
              Fixtures.dup_group _ Hne Hrender)
    as [(s & _ & _ & Hraise & _)|
        (ranks & k & kept & rk & reqs & _ & _ & _ & _ & _ & Hok & _)].
  - vm_compute in Hraise. discriminate Hraise.
  - rewrite Hok. vm_compute in Hok. injection Hok as <-. reflexivity.
Defined.

End DedupSpec.

(** * Properties of drive/api.py *)
Module ApiSpec.
Import Api.

(** C9. [unique] on an empty list with [allow_none=True]: neither of the two
    guarded branches is taken and the final [resources[0]] raises
    [IndexError]; no value comes back, whatever the alias and
    [allow_multiple]. *)
Theorem unique_empty_allow_none {A : Type} (alias : string)
  (allow_multiple : bool) :
  unique ([] : list A) alias true allow_multiple = Raise IndexError.
Proof. by destruct allow_multiple. Qed.

Section ResolverFacts.
Context {World : Type} `{!Drive World} `{!SetOrder}.

Lemma iter_set_singleton (x : string) : iter_set {[x]} = [x].
Proof.
  apply Permutation_singleton_r. rewrite iter_set_perm.
  by rewrite elements_singleton.
Qed.

Lemma resolve_loop_fetch (fuel : nat) (resolved : dict string Resource)
  (w w1 : World) (i : string) (rs : list Resource) :
  unresolved_parents resolved = {[i]} →
  get_resources [i] w = (Ok rs, w1) →
  resolve_loop (S fuel) resolved w = resolve_loop fuel (update resolved rs) w1.
Proof.
  intros Hun Hget. simpl. rewrite Hun. case_decide as He.
  - exfalso. assert (i ∈ (∅ : gset string)) as Hi by (rewrite <- He; set_solver).
    by apply not_elem_of_empty in Hi.
  - by rewrite iter_set_singleton, Hget.
Qed.

Lemma resolve_loop_break (fuel : nat) (resolved : dict string Resource)
  (w : World) :
  unresolved_parents resolved = ∅ →
  resolve_loop (S fuel) resolved w = Some (Ok resolved, w).
Proof. intros Hun. simpl. rewrite Hun. by case_decide. Qed.

Lemma resource_path_multiple (depth : nat) (r : Resource)
  (table : dict string Resource) :
  (1 < length (parents r))%nat →
  _resource_path (S depth) r table = Raise multiple_parents.
Proof.
  intros Hlen. simpl. destruct (parents r) as [|p ps] eqn:Hp; [simpl in Hlen; lia|].
  by rewrite bool_decide_eq_true_2.
Qed.

Lemma resource_path_root (depth : nat) (r : Resource)
  (table : dict string Resource) :
  parents r = [] → _resource_path (S depth) r table = Ok [].
Proof. intros Hp. simpl. by rewrite Hp. Qed.

Lemma resource_path_step (depth : nat) (r parent : Resource) (p : string)
  (table : dict string Resource) :
  parents r = [p] →
  dict_get p table = Some parent →
  _resource_path (S depth) r table =
    rest ← _resource_path depth parent table; Ok (parent :: rest).
Proof. intros Hp Hget. cbn [_resource_path]. by rewrite Hp, Hget. Qed.

Lemma dict_get_here {V} (k : string) (v : V) (d : dict string V) :
  dict_get k ((k, v) :: d) = Some v.
Proof. simpl. by rewrite decide_True. Qed.

Lemma dict_get_later {V} (k k' : string) (v : V) (d : dict string V) :
  k ≠ k' → dict_get k ((k', v) :: d) = dict_get k d.
Proof. intros Hk. simpl. by rewrite decide_False. Qed.

Lemma traverse_stops {A B} (f : A → result B) (before after : list A)
  (a : A) (e : exn) :
  (∀ b, b ∈ before → ∃ y, f b = Ok y) →
  f a = Raise e →
  traverse f (before ++ a :: after) = Raise e.
Proof.
  intros Hbefore Ha. induction before as [|b before IH]; simpl.
  - by rewrite Ha.
  - destruct (Hbefore b) as [y ->]; [by left|]. simpl.
    rewrite IH; [done|]. intros b' Hb'. apply Hbefore. by right.
Qed.

Lemma traverse_all_ok {A B} (f : A → result B) (l : list A) (ys : list B) :
  traverse f l = Ok ys → ∀ a, a ∈ l → ∃ y, f a = Ok y.
Proof.
  revert ys. induction l as [|b l IH]; intros ys; simpl.
  - by intros _ a ?%elem_of_nil.
  - destruct (f b) as [y|e] eqn:Hb; [|done]. simpl.
    destruct (traverse f l) as [ys'|e] eqn:Hl; [|done]. intros _ a.
    intros [->|Hin]%elem_of_cons; [by exists y|]. by eapply IH.
Qed.

(** C5, as the code has it. In a hierarchy root → A → B → leaf whose
    ancestors the service knows, the path of the leaf holds every ancestor up
    to and including the parentless root, and renders as
    /root/A/B/leaf with the root's own name in front; a hierarchy
    A → B → leaf that starts at a parentless A renders as /A/B/leaf. A
    resource with more than one parent makes the walk raise the structural
    error as soon as it is reached: no list of leaves that contains one is
    ever resolved, and the error raised is the structural one when the
    ancestors have been fetched and the leaves before it resolve. *)
Theorem path_resolution (rn an bn ln ir ia ib il mr ma mb ml : string)
  (md5 : option string) :
  let root := DriveFolder rn ir mr [] in
  let A := DriveFolder an ia ma [ir] in
  let B := DriveFolder bn ib mb [ia] in
  let leaf := DriveFile ln il ml [ib] md5 in
  let top := DriveFolder an ia ma [] in
  (∀ (fuel depth : nat) (w w1 w2 w3 : World),
     NoDup [il; ib; ia; ir] →
     get_resources [ib] w = (Ok [B], w1) →
     get_resources [ia] w1 = (Ok [A], w2) →
     get_resources [ir] w2 = (Ok [root], w3) →
     (4 ≤ fuel)%nat → (4 ≤ depth)%nat →
     resolve_paths fuel depth [leaf] w =
       Some (Ok [(leaf, mkResourcePath leaf [B; A; root])], w3) ∧
     str (mkResourcePath leaf [B; A; root]) =
       Ok ("/" +:+ rn +:+ "/" +:+ an +:+ "/" +:+ bn +:+ "/" +:+ ln)) ∧
  (∀ (fuel depth : nat) (w w1 w2 : World),
     NoDup [il; ib; ia] →
     get_resources [ib] w = (Ok [B], w1) →
     get_resources [ia] w1 = (Ok [top], w2) →
     (3 ≤ fuel)%nat → (3 ≤ depth)%nat →
     resolve_paths fuel depth [leaf] w =
       Some (Ok [(leaf, mkResourcePath leaf [B; top])], w2) ∧
     str (mkResourcePath leaf [B; top]) =
       Ok ("/" +:+ an +:+ "/" +:+ bn +:+ "/" +:+ ln)) ∧
  (∀ (r : Resource) (depth : nat) (table : dict string Resource),
     (1 < length (parents r))%nat →
     _resource_path (S depth) r table = Raise multiple_parents) ∧
  (∀ (r : Resource) (fuel depth : nat) (leaves : list Resource) (w : World),
     (1 < length (parents r))%nat → r ∈ leaves → (0 < depth)%nat →
     ∀ paths w', resolve_paths fuel depth leaves w ≠ Some (Ok paths, w')) ∧
  (∀ (r : Resource) (fuel depth : nat) (before after : list Resource)
     (w w' : World) (table : dict string Resource),
     (1 < length (parents r))%nat → (0 < depth)%nat →
     resolve_loop fuel (update [] (before ++ r :: after)) w =
       Some (Ok table, w') →
     (∀ l, l ∈ before → ∃ p, _resource_path depth l table = Ok p) →
     resolve_paths fuel depth (before ++ r :: after) w =
       Some (Raise multiple_parents, w')).
Proof.
  intros root A B leaf top. split; [|split; [|split; [|split]]].
  - intros fuel depth w w1 w2 w3 Hnd Hb Ha Hr Hfuel Hdepth.
    split; [|done].
    apply NoDup_cons in Hnd as [Hil Hnd]. apply NoDup_cons in Hnd as [Hib Hnd].
    apply NoDup_cons in Hnd as [Hia _].
    assert (ib ≠ il ∧ ia ≠ il ∧ ir ≠ il ∧ ia ≠ ib ∧ ir ≠ ib ∧ ir ≠ ia)
      as (? & ? & ? & ? & ? & ?) by set_solver.
    destruct fuel as [|[|[|[|fuel]]]]; try lia.
    destruct depth as [|[|[|[|depth]]]]; try lia.
    unfold resolve_paths.
    rewrite (resolve_loop_fetch _ _ w w1 ib [B]); [|unfold unresolved_parents; simpl; set_solver|done].
    assert (update (update [] [leaf]) [B] = [(il, leaf); (ib, B)]) as ->.
    { simpl. by case_decide. }
    rewrite (resolve_loop_fetch _ _ w1 w2 ia [A]); [|unfold unresolved_parents; simpl; set_solver|done].
    assert (update [(il, leaf); (ib, B)] [A] = [(il, leaf); (ib, B); (ia, A)])
      as ->.
    { simpl. by repeat case_decide. }
    rewrite (resolve_loop_fetch _ _ w2 w3 ir [root]); [|unfold unresolved_parents; simpl; set_solver|done].
    assert (update [(il, leaf); (ib, B); (ia, A)] [root] =
            [(il, leaf); (ib, B); (ia, A); (ir, root)]) as ->.
    { simpl. by repeat case_decide. }
    rewrite resolve_loop_break by (unfold unresolved_parents; simpl; set_solver).
    cbn [traverse].
    rewrite (resource_path_step _ leaf B ib), (resource_path_step _ B A ia),
      (resource_path_step _ A root ir), resource_path_root;
      try reflexivity;
      by rewrite ?dict_get_later, ?dict_get_here by done.
  - intros fuel depth w w1 w2 Hnd Hb Ha Hfuel Hdepth.
    split; [|done].
    apply NoDup_cons in Hnd as [Hil Hnd]. apply NoDup_cons in Hnd as [Hib _].
    assert (ib ≠ il ∧ ia ≠ il ∧ ia ≠ ib) as (? & ? & ?) by set_solver.
    destruct fuel as [|[|[|fuel]]]; try lia.
    destruct depth as [|[|[|depth]]]; try lia.
    unfold resolve_paths.
    rewrite (resolve_loop_fetch _ _ w w1 ib [B]); [|unfold unresolved_parents; simpl; set_solver|done].
    assert (update (update [] [leaf]) [B] = [(il, leaf); (ib, B)]) as ->.
    { simpl. by case_decide. }
    rewrite (resolve_loop_fetch _ _ w1 w2 ia [top]); [|unfold unresolved_parents; simpl; set_solver|done].
    assert (update [(il, leaf); (ib, B)] [top] =
            [(il, leaf); (ib, B); (ia, top)]) as ->.
    { simpl. by repeat case_decide. }
    rewrite resolve_loop_break by (unfold unresolved_parents; simpl; set_solver).
    cbn [traverse].
    rewrite (resource_path_step _ leaf B ib), (resource_path_step _ B top ia),
      resource_path_root;
      try reflexivity;
      by rewrite ?dict_get_later, ?dict_get_here by done.
  - intros r depth table. apply resource_path_multiple.
  - intros r fuel depth leaves w Hlen Hin Hdepth paths w'.
    unfold resolve_paths.
    destruct (resolve_loop _ _ _) as [[[table|e] w1]|]; [|done..].
    intros [= Htr _].
    destruct (traverse_all_ok _ _ _ Htr r Hin) as [[l p] Hr].
    destruct depth as [|depth]; [lia|].
    by rewrite resource_path_multiple in Hr.
  - intros r fuel depth before after w w' table Hlen Hdepth Hloop Hbefore.
    unfold resolve_paths. rewrite Hloop. f_equal. f_equal.
    apply traverse_stops.
    + intros l Hl. destruct (Hbefore l Hl) as [p ->]. by eexists.
    + destruct depth as [|depth]; [lia|].
      by rewrite resource_path_multiple.
Qed.

End ResolverFacts.

(** C5, the rendering as stated: with the hierarchy root → A → B → leaf in
    the remote store, the path of the leaf renders with the root's name in
    front, not as /A/B/leaf. *)
Lemma root_name_is_rendered :
  ∃ p w',
    resolve_paths 4 4 [Fixtures.leaf] Fixtures.hierarchy =
      Some (Ok [(Fixtures.leaf, p)], w') ∧
    str p = Ok "/root/A/B/leaf" ∧
    str p ≠ Ok "/A/B/leaf".
Proof.
  eexists _, _. split; [vm_compute; reflexivity|]. split; [reflexivity|].
  vm_compute. discriminate.
Qed.

(** The same hierarchy through the general statement. *)
Lemma path_resolution_witness :
  resolve_paths 4 4 [Fixtures.leaf] Fixtures.hierarchy =
    Some (Ok [(Fixtures.leaf,
               mkResourcePath Fixtures.leaf
                 [Fixtures.B; Fixtures.A; Fixtures.root])],
          Fixtures.hierarchy) ∧
  str (mkResourcePath Fixtures.leaf [Fixtures.B; Fixtures.A; Fixtures.root]) =
    Ok "/root/A/B/leaf" ∧
  resolve_paths 4 4 [Fixtures.leaf; Fixtures.two_parents] Fixtures.hierarchy =
    Some (Raise multiple_parents, Fixtures.hierarchy).
Proof.
  destruct (path_resolution (World := Fixtures.Store)
              "root" "A" "B" "leaf" "id-root" "id-a" "id-b" "id-leaf"
              FolderMimeType FolderMimeType FolderMimeType "image/jpeg"
              (Some "d41d8cd9")) as (Hrender & _ & _ & _ & Hmulti).
  destruct (Hrender 4%nat 4%nat Fixtures.hierarchy Fixtures.hierarchy
              Fixtures.hierarchy Fixtures.hierarchy) as [Hpaths Hstr];
    [by apply (bool_decide_unpack (NoDup _))|
     reflexivity|reflexivity|reflexivity|lia|lia|].
  split; [exact Hpaths|]. split; [exact Hstr|].
  eapply (Hmulti Fixtures.two_parents 4%nat 4%nat [Fixtures.leaf] []
            Fixtures.hierarchy Fixtures.hierarchy);
    [simpl; lia|lia|vm_compute; reflexivity|].
  intros l ->%list_elem_of_singleton. eexists. vm_compute. reflexivity.
Defined.

End ApiSpec.

(** * More about drive/http.py *)
Module HttpMore.
Import Http.

(** ** Batches *)

Lemma batches_lookup {A} (n : nat) (l : list A) (fuel i : nat) :
  (0 < n)%nat → (length l ≤ fuel)%nat →
  batches fuel n l !! i =
    if decide (i * n < length l)%nat
    then Some (take n (drop (i * n) l)) else None.
Proof.
  intros Hn. revert l i. induction fuel as [|fuel IH]; intros l i Hl.
  - destruct l; [|simpl in Hl; lia].
    rewrite decide_False by (simpl; lia). by destruct i.
  - destruct l as [|a l].
    { rewrite decide_False by (simpl; lia). by destruct i. }
    unfold batches; fold (@batches A).
    destruct i as [|i].
    + simpl lookup. rewrite decide_True by (simpl; lia). done.
    + simpl lookup. rewrite IH by (rewrite length_drop; simpl in *; lia).
      rewrite length_drop, drop_drop.
      replace (n + i * n)%nat with (S i * n)%nat by lia.
      repeat case_decide; (done || lia).
Qed.

Lemma batches_length {A} (n : nat) (l : list A) (fuel : nat) :
  (0 < n)%nat → (length l ≤ fuel)%nat →
  length (batches fuel n l) = ((length l + n - 1) / n)%nat.
Proof.
  intros Hn. revert l. induction fuel as [|fuel IH]; intros l Hl.
  - destruct l; [|simpl in Hl; lia]. simpl.
    symmetry. apply Nat.div_small. lia.
  - destruct l as [|a l].
    { simpl. symmetry. apply Nat.div_small. lia. }
    unfold batches; fold (@batches A). cbn [length].
    rewrite IH by (rewrite length_drop; simpl in *; lia).
    rewrite length_drop. set (m := length (a :: l)).
    assert (0 < m)%nat by (unfold m; simpl; lia).
    destruct (decide (n ≤ m)%nat).
    + replace (m - n + n - 1)%nat with (m - 1)%nat by lia.
      rewrite <- Nat.add_1_r, <- (Nat.div_add (m - 1) 1 n) by lia.
      f_equal. unfold m. simpl. lia.
    + replace (m - n + n - 1)%nat with (n - 1)%nat by lia.
      rewrite (Nat.div_small (n - 1)) by lia.
      apply (Nat.div_unique _ _ _ (m - 1)); unfold m in *; simpl in *; lia.
Qed.

Section Chunks.
Context {World Request Response : Type}.
Context `{!Service World Request Response}.

(** The physical calls of one pass. The sequential runner makes one call
    per request, in order. The batch runner makes one call for every hundred
    requests, rounded up; the i-th call carries the requests from position
    100 i on, at most a hundred of them, so only the last call can carry
    fewer; and no request is left out or sent twice. *)
Theorem physical_calls (requests : list (_Request Request)) :
  delegate_chunks SequentialRequestRunner requests = One <$> requests ∧
  length (delegate_chunks GAPIBatchRunner requests) =
    ((length requests + 99) / 100)%nat ∧
  (∀ i, delegate_chunks GAPIBatchRunner requests !! i =
        if decide (i * 100 < length requests)%nat
        then Some (Batch (take 100 (drop (i * 100) requests))) else None) ∧
  concat (chunk_ids <$> delegate_chunks GAPIBatchRunner requests) =
    request_id <$> requests.
Proof.
  split; [done|]. split; [|split].
  - simpl. rewrite length_fmap, batches_length by (unfold GAPI_BATCH_LIMIT; lia).
    unfold GAPI_BATCH_LIMIT.
    by replace (length requests + 100 - 1)%nat
      with (length requests + 99)%nat by lia.
  - intros i. simpl. rewrite list_lookup_fmap, batches_lookup
      by (unfold GAPI_BATCH_LIMIT; lia).
    unfold GAPI_BATCH_LIMIT. by case_decide.
  - apply HttpSpec.delegate_chunks_ids.
Qed.

End Chunks.

(** ** The pending dictionary *)

Lemma dict_set_keys {K V} `{!EqDecision K} (k : K) (v : V) (d : dict K V) :
  keys (dict_set k v d) = if decide (k ∈ keys d) then keys d else keys d ++ [k].
Proof.
  unfold keys. induction d as [|[k' v'] d IH].
  - destruct (decide _) as [?%elem_of_nil|]; done.
  - cbn [dict_set]. rewrite !fmap_cons. cbn [fst].
    destruct (decide (k = k')) as [->|Hk].
    + rewrite fmap_cons. cbn [fst]. by rewrite decide_True by left.
    + rewrite fmap_cons, IH. cbn [fst].
      destruct (decide (k ∈ d.*1)) as [Hin|Hin];
        destruct (decide (k ∈ k' :: d.*1)) as [Hin'|Hin']; try done.
      * destruct Hin'. by right.
      * apply elem_of_cons in Hin' as [?|?]; done.
Qed.

Lemma dict_set_NoDup {K V} `{!EqDecision K} (k : K) (v : V) (d : dict K V) :
  NoDup (keys d) → NoDup (keys (dict_set k v d)).
Proof.
  intros Hd. rewrite dict_set_keys. case_decide; [done|].
  apply NoDup_app. split; [done|]. split; [|apply NoDup_singleton].
  intros x Hx ->%list_elem_of_singleton. done.
Qed.

Section Pending.
Context {Request : Type}.

Lemma pending_keys (requests : list (_Request Request)) :
  NoDup (keys (make_pending requests)) ∧
  (∀ k, k ∈ keys (make_pending requests) ↔ k ∈ request_id <$> requests).
Proof.
  unfold make_pending.
  induction requests as [|r requests (Hnd & Hkeys)] using rev_ind.
  - split; [constructor|]. intros k. split; by intros ?%elem_of_nil.
  - rewrite foldl_app. simpl. split; [by apply dict_set_NoDup|].
    intros k. rewrite dict_set_keys, fmap_app, elem_of_app. simpl.
    rewrite list_elem_of_singleton. case_decide as Hin.
    + rewrite Hkeys. split; [by left|]. intros [? | ->]; [done|].
      by apply Hkeys.
    + rewrite elem_of_app, list_elem_of_singleton, Hkeys. done.
Qed.

(** Requests that share an id. The pending dictionary has one entry per
    distinct id, and the entry of an id is the last request that was added
    under it: of several requests with one id only the last is ever sent. *)
Theorem pending_keeps_last_request (requests : list (_Request Request)) :
  NoDup (keys (make_pending requests)) ∧
  (∀ k, k ∈ keys (make_pending requests) ↔ k ∈ request_id <$> requests) ∧
  (∀ k, dict_get k (make_pending requests) =
        last (filter (λ r, request_id r = k) requests)).
Proof.
  destruct (pending_keys requests) as [Hnd Hkeys].
  split; [done|]. split; [done|]. clear Hnd Hkeys.
  unfold make_pending.
  induction requests as [|r requests Hget] using rev_ind; [done|].
  rewrite foldl_app. simpl.
  intros k. rewrite SyncSpec.dict_get_set, filter_app.
  case_decide as Hk.
  - subst k. rewrite filter_cons_True, filter_nil by done.
    by rewrite last_snoc.
  - rewrite filter_cons_False, filter_nil by done.
    by rewrite (right_id_L [] (++)).
Qed.

End Pending.

(** ** What a run yields *)

Lemma matching_in_table (table : HttpErrorTable) (e : HttpError)
  (p : HttpErrorPolicy) (code : string) :
  matching table e = Ok (Some p, code) → p ∈ table.
Proof.
  unfold matching.
  assert (∀ ps, matching_policies table e = Ok ps → ps ⊆ table) as Hsub.
  { induction table as [|q table IH]; simpl; intros ps.
    - by intros [= <-].
    - destruct (matches q e) as [b|]; [|done]. simpl.
      destruct (matching_policies table e) as [ps'|]; [|done]. simpl.
      intros [= <-]. specialize (IH ps' eq_refl).
      destruct b; set_solver. }
  destruct (matching_policies table e) as [[|q ps]|] eqn:Hps; [done| |done].
  simpl. intros [= <- _]. apply (Hsub _ eq_refl). by left.
Qed.

Section Yields.
Context {World Request Response : Type}.
Context `{!Service World Request Response}.
Variable self : ErrorHandlingRunner.

Lemma accounted_nothing (d : dict string (_Request Request)) :
  accounted self d ([] : list (Event Response)) (keys d).
Proof. split; [constructor|]. by exists []. Qed.

Lemma accounted_trans (d1 d2 : dict string (_Request Request))
  (out1 out2 : list (Event Response)) (rest : list string) :
  accounted self d1 out1 (keys d2) →
  accounted self d2 out2 rest →
  accounted self d1 (out1 ++ out2) rest.
Proof.
  intros [Hok1 (sk1 & Hk1 & Hn1)] [Hok2 (sk2 & Hk2 & Hn2)].
  split; [rewrite HttpSpec.yielded_app; by apply Forall_app|].
  exists (sk1 ++ sk2). split.
  - rewrite Hk1, Hk2, HttpSpec.yielded_app, fmap_app.
    rewrite <- !(assoc_L (++)). f_equiv.
    rewrite !(assoc_L (++)). f_equiv.
    rewrite <- !(assoc_L (++)). apply Permutation_app_swap_app.
  - intros Hno. by rewrite Hn1, Hn2.
Qed.

Lemma handle_result_accounted (st st' : @Locals Request)
  (r : RequestResult Response) (out : list (Event Response)) x :
  handle_result self st r = (st', out, x) →
  accounted self (pending st) out (keys (pending st')).
Proof.
  unfold handle_result.
  destruct (error r) as [err|] eqn:Herr.
  - destruct (matching (policies self) err) as [[[p|] code]|e] eqn:Hm;
      [|intros [= <- <- <-]; apply accounted_nothing..].
    set (warn := print_always p || _).
    assert (∀ ws, yielded (if warn then [Warned (warning p) (id r)] else []
                           : list (Event Response)) = []) as Hy
      by (by destruct warn).
    destruct (action p =? SKIP) eqn:Hskip.
    { destruct (dict_del _ _) as [d'|] eqn:Hdel; intros [= <- <- <-].
      - split; [by rewrite Hy|]. exists [id r]. rewrite Hy by done. simpl.
        split.
        + destruct (HttpSpec.dict_del_elem (id r) (pending st)) as (d & Hd & Hp).
          { clear -Hdel. revert d' Hdel. unfold keys.
            induction (pending st) as [|[k v] d IH]; intros d'; simpl; [done|].
            case_decide; [intros _; subst; left|].
            destruct (dict_del (id r) d); [|done]. intros _. right. eauto. }
          by simplify_eq.
        + intros Hno. apply matching_in_table in Hm.
          rewrite Forall_forall in Hno. destruct (Hno p Hm). lia.
      - split; [by rewrite Hy|]. exists []. rewrite Hy by done. by split. }
    destruct (action p =? RETRY);
      [intros [= <- <- <-]; split; [by rewrite Hy|]; exists [];
       rewrite Hy by done; by split|].
    destruct (action p =? FAIL); intros [= <- <- <-];
      (split; [by rewrite Hy|]; exists []; rewrite Hy by done; by split).
  - destruct (dict_del _ _) as [d'|] eqn:Hdel; intros [= <- <- <-];
      [|apply accounted_nothing].
    split; [by repeat constructor|]. exists []. simpl. split; [|done].
    destruct (HttpSpec.dict_del_elem (id r) (pending st)) as (d & Hd & Hp).
    { clear -Hdel. revert d' Hdel. unfold keys.
      induction (pending st) as [|[k v] d IH]; intros d'; simpl; [done|].
      case_decide; [intros _; subst; left|].
      destruct (dict_del (id r) d); [|done]. intros _. right. eauto. }
    by simplify_eq.
Qed.

Lemma handle_results_accounted (st st' : @Locals Request)
  (rs : list (RequestResult Response)) (out : list (Event Response)) x :
  handle_results self st rs = (st', out, x) →
  accounted self (pending st) out (keys (pending st')).
Proof.
  revert st out. induction rs as [|r rs IH]; intros st out; simpl.
  - intros [= <- <- <-]. apply accounted_nothing.
  - destruct (handle_result self st r) as [[st1 out1] [e|]] eqn:Hr.
    + intros [= <- <- <-]. by eapply handle_result_accounted.
    + destruct (handle_results self st1 rs) as [[st2 out2] x2] eqn:Hrs.
      intros [= <- <- <-].
      eapply accounted_trans; [by eapply handle_result_accounted|by eapply IH].
Qed.

Lemma accounted_executed (d : dict string (_Request Request))
  (ids : list string) (out : list (Event Response)) (rest : list string) :
  accounted self d out rest → accounted self d (Executed ids :: out) rest.
Proof. done. Qed.

Lemma run_chunks_accounted (st st' : @Locals Request) cs w
  (out : list (Event Response)) x w' :
  run_chunks self st cs w = (st', out, x, w') →
  accounted self (pending st) out (keys (pending st')).
Proof.
  revert st w out. induction cs as [|c cs IH]; intros st w out; simpl.
  - intros [= <- <- <- <-]. apply accounted_nothing.
  - destruct (run_chunk c w) as [[rs|e] w1];
      [|intros [= <- <- <- <-]; apply accounted_executed, accounted_nothing].
    destruct (handle_results self st rs) as [[st1 out1] [e|]] eqn:Hrs.
    + intros [= <- <- <- <-]. apply accounted_executed.
      by eapply handle_results_accounted.
    + destruct (run_chunks self st1 cs w1) as [[[st2 out2] x2] w2] eqn:Hcs.
      intros [= <- <- <- <-]. apply accounted_executed.
      eapply accounted_trans; [by eapply handle_results_accounted|by eapply IH].
Qed.

Lemma execute_loop_accounted (fuel : nat) (start : Z) (st : @Locals Request)
  (w w' : World) c (out : list (Event Response)) :
  execute_loop self fuel start st w = (c, out, w') →
  ∃ rest, accounted self (pending st) out rest ∧ (c = Returned → rest = []).
Proof.
  revert st w c out w'. induction fuel as [|fuel IH]; intros st w c out w';
    simpl.
  - intros [= <- <- <-]. exists (keys (pending st)).
    split; [apply accounted_nothing|done].
  - destruct (monotonic w) as [now w1].
    destruct (lt_timeout _ _ && _).
    2:{ intros [= <- <- <-]. exists (keys (pending st)).
        split; [apply accounted_nothing|done]. }
    unfold loop_body.
    destruct (run_pass self st w1) as [[[st' out1] [e|]] w2] eqn:Hpass.
    { intros [= <- <- <-]. exists (keys (pending st')).
      split; [by eapply run_chunks_accounted|done]. }
    pose proof (run_chunks_accounted _ _ _ _ _ _ _ Hpass) as Hacc.
    destruct (pending st') as [|kv rest'] eqn:Hpend.
    { intros [= <- <- <-]. exists []. by split. }
    destruct (execute_loop self fuel start _ _) as [[c2 out2] w3] eqn:Hrest.
    intros [= <- <- <-]. apply IH in Hrest as (rest & Hacc2 & Hret).
    exists rest. split; [|done]. simpl in Hacc2.
    rewrite <- Hpend in Hacc2, Hacc. rewrite <- (assoc_L (++)).
    eapply accounted_trans; [exact Hacc|]. exact Hacc2.
Qed.

Lemma execute_accounted (fuel : nat) (requests : list (_Request Request))
  (w w' : World) (c : Completion) (out : list (Event Response)) :
  execute self fuel requests w = (c, out, w') →
  ∃ rest, accounted self (make_pending requests) out rest ∧
          (c = Returned → rest = []).
Proof.
  unfold execute. destruct (monotonic w) as [start w0].
  by intros ?%execute_loop_accounted.
Qed.

(** What a run yields, for every service and every table. Every yielded
    result is a success; the ids yielded are ids of the pending dictionary,
    each at most once: no request gets two results, and no result is made
    up. *)
Theorem yields_are_sound (fuel : nat) (requests : list (_Request Request))
  (w : World) :
  let out := (execute self fuel requests w).1.2 in
  Forall (λ r, error r = None) (yielded out) ∧
  id <$> yielded out ⊆+ keys (make_pending requests) ∧
  NoDup (id <$> yielded out).
Proof.
  destruct (execute self fuel requests w) as [[c out] w'] eqn:Hrun. simpl.
  apply execute_accounted in Hrun as (rest & [Hok (sk & Hk & _)] & _).
  assert (id <$> yielded out ⊆+ keys (make_pending requests)) as Hsub.
  { rewrite Hk. by apply submseteq_inserts_r. }
  split; [done|]. split; [done|].
  pose proof (pending_keys requests) as [Hnd _].
  rewrite Hk in Hnd. by apply NoDup_app in Hnd as [? _].
Qed.

(** A table without a policy that skips: when the run returns normally,
    every pending request has yielded exactly one result. *)
Theorem returns_with_every_result (fuel : nat)
  (requests : list (_Request Request)) (w w' : World)
  (out : list (Event Response)) :
  Forall (λ p, action p ≠ SKIP) (policies self) →
  execute self fuel requests w = (Returned, out, w') →
  id <$> yielded out ≡ₚ keys (make_pending requests).
Proof.
  intros Hno (rest & [_ (sk & Hk & Hsk)] & Hret)%execute_accounted.
  rewrite (Hsk Hno), (Hret eq_refl) in Hk. simpl in Hk.
  by rewrite (right_id_L [] (++)) in Hk.
Qed.

(** ** Termination and back-offs of whole runs *)

(** Every run comes to an end. The loop makes at most
    [passes_left] passes, a bound that depends only on the number of pending
    requests and on [max_retries]: with any fuel above it the outcome is the
    same, and it is a return or an exception. *)
Theorem run_comes_to_an_end (requests : list (_Request Request)) (w : World) :
  ∃ c out w',
    c ≠ OutOfFuel ∧
    ∀ fuel, (passes_left self (initial self requests) < fuel)%nat →
            execute self fuel requests w = (c, out, w').
Proof.
  set (bound := passes_left self (initial self requests)).
  destruct (execute self (S bound) requests w) as [[c out] w'] eqn:Hrun.
  exists c, out, w'.
  pose proof (HttpSpec.execute_terminates self (S bound) requests w) as Hend.
  rewrite Hrun in Hend. split; [apply Hend; unfold bound; lia|].
  intros fuel Hfuel. unfold execute in *.
  destruct (monotonic w) as [start w0].
  eapply HttpSpec.execute_loop_more_fuel; [done| |lia].
  apply Hend. unfold bound. lia.
Qed.

(** The back-offs of every run: the first sleep is [min_backoff] seconds,
    and every later one is twice the one before it or [min_backoff] again. *)
Theorem sleeps_double_or_restart (fuel : nat)
  (requests : list (_Request Request)) (w : World) :
  backoff_chain self (min_backoff self)
    (slept (execute self fuel requests w).1.2).
Proof.
  unfold execute. destruct (monotonic w) as [start w0].
  destruct (execute_loop self fuel start (initial self requests) w0)
    as [[c out] w'] eqn:Hrun.
  by apply HttpSpec.backoffs_of_a_run in Hrun.
Qed.

(** A runner without budget. When [max_retries] is below 1, or the timeout
    is not above the time that passes between the two first readings of the
    clock, the run raises the terminal error before anything is sent,
    whatever the requests, even when there are none. *)
Theorem no_budget_no_attempt (fuel : nat) (requests : list (_Request Request))
  (w w0 w1 : World) (start now : Z) :
  monotonic w = (start, w0) →
  monotonic w0 = (now, w1) →
  (max_retries self < 1 →
   execute self (S fuel) requests w = (Raised too_many, [], w1)) ∧
  (1 ≤ max_retries self →
   lt_timeout (now - start) (timeout self) = false →
   execute self (S fuel) requests w = (Raised timed_out, [], w1)).
Proof.
  intros Hstart Hnow. unfold execute. rewrite Hstart. simpl. rewrite Hnow.
  split.
  - intros Hmax. assert ((1 <=? max_retries self) = false) as -> by lia.
    rewrite andb_false_r.
    by assert ((max_retries self <? 1) = true) as -> by lia.
  - intros Hmax ->. simpl.
    by assert ((max_retries self <? 1) = false) as -> by lia.
Qed.

End Yields.

(** A runner that allows no attempt gives up on an empty queue. *)
Lemma no_budget_no_attempt_witness :
  execute (mkRunner Inf 5 0 DEFAULT_POLICIES SequentialRequestRunner) 1
    ([] : list (_Request Scripted.Request)) (0 : Scripted.World) =
    (Raised too_many, [], 0).
Proof.
  destruct (@no_budget_no_attempt Scripted.World Scripted.Request string
              Scripted.scripted
              (mkRunner Inf 5 0 DEFAULT_POLICIES SequentialRequestRunner)
              0%nat [] 0 0 0 0 0 eq_refl eq_refl) as [Hmax _].
  apply Hmax. simpl. lia.
Defined.

(** ** [multiget_gd] *)

Section MultigetFacts.
Context {World Request Response : Type}.
Context `{!Service World Request Response}.
Variable files_get : string → string → Request.

(** [multiget_gd] does not drop ids. When the fetch of distinct ids returns
    normally, it has yielded exactly one successful result for every id, and
    the responses handed out are those of these results: an id that the
    service does not know (a 404) makes the fetch raise instead. *)
Theorem multiget_is_complete (fuel : nat) (ids fields : list string)
  (w w' : World) (out : list (Event Response))
  (responses : list (option Response)) :
  NoDup ids →
  multiget_gd files_get fuel ids fields w = (Returned, out, responses, w') →
  id <$> yielded out ≡ₚ ids ∧
  responses = response <$> yielded out ∧
  Forall (λ r, error r = None) (yielded out).
Proof.
  intros Hnd. unfold multiget_gd.
  destruct (set_action_for "404" FAIL DEFAULT_POLICIES) as [table|e] eqn:Ht;
    [|done].
  vm_compute in Ht. injection Ht as <-.
  set (runner := mkRunner _ _ _ _ _). set (requests := _ <$> ids).
  destruct (execute runner fuel requests w) as [[c out0] w0] eqn:Hrun.
  intros [= -> <- <- <-].
  assert (request_id <$> requests = ids) as Hids.
  { unfold requests. rewrite <- list_fmap_compose.
    clear. induction ids as [|i ids IH]; [done|]. simpl. by f_equal. }
  apply execute_accounted in Hrun as (rest & [Hok (sk & Hk & Hsk)] & Hret).
  rewrite Hsk, (Hret eq_refl) in Hk by (by repeat constructor).
  simpl in Hk. rewrite (right_id_L [] (++)) in Hk.
  split; [|done].
  destruct (pending_keys requests) as (Hnd' & Hkeys).
  symmetry. apply NoDup_Permutation; [done|by rewrite Hk in Hnd'|].
  intros k. by rewrite <- Hk, Hkeys, Hids.
Qed.

End MultigetFacts.

(** A fetch of two ids that the scripted service knows. *)
Lemma multiget_is_complete_witness :
  ∃ out responses w',
    multiget_gd (λ fid _, Scripted.succeeds fid) 1 ["id-a"; "id-b"] ["id"]
      (0 : Scripted.World) = (Returned, out, responses, w') ∧
    id <$> yielded out ≡ₚ ["id-a"; "id-b"] ∧
    responses = [Some "id-a"; Some "id-b"].
Proof.
  destruct (multiget_gd (λ fid _, Scripted.succeeds fid) 1 ["id-a"; "id-b"]
              ["id"] (0 : Scripted.World)) as [[[c out] responses] w'] eqn:Hrun.
  assert (c = Returned ∧ responses = [Some "id-a"; Some "id-b"]) as [-> Hresp].
  { vm_compute in Hrun. injection Hrun as <- _ <- _. by split. }
  exists out, responses, w'. split; [done|].
  destruct (multiget_is_complete (λ fid _, Scripted.succeeds fid) 1%nat
              ["id-a"; "id-b"] ["id"] 0 w' out responses) as (Hids & _ & _);
    [by apply (bool_decide_unpack (NoDup _))|exact Hrun|].
  by split.
Defined.

(** A table with the only skipping policy turned into a failing one. *)
Lemma returns_with_every_result_witness :
  ∃ out w',
    execute (mkRunner Inf 5 10
               [mkPolicy ["404"] None true FAIL "gone";
                mkPolicy ["500"] None false RETRY "again"]
               SequentialRequestRunner) 2
      [mk_Request (Scripted.fails_until 1 Scripted.error500 "late") "a";
       mk_Request (Scripted.succeeds "x") "b"] (0 : Scripted.World) =
      (Returned, out, w') ∧
    id <$> yielded out ≡ₚ ["a"; "b"].
Proof.
  set (self := mkRunner _ _ _ _ _). set (requests := [_; _]).
  destruct (execute self 2 requests (0 : Scripted.World))
    as [[c out] w'] eqn:Hrun.
  assert (c = Returned) as -> by (vm_compute in Hrun; by injection Hrun as <-).
  exists out, w'. split; [done|].
  apply (returns_with_every_result self 2 requests 0 w' out);
    [by repeat constructor|exact Hrun].
Defined.

End HttpMore.

(** * More of drive/api.py *)
Module ApiMore.
Import Api.

(** ** [unique] *)

(** [unique] returns a value exactly when the list is not empty and either
    has a single element or several are allowed; the value is the first
    element. With the default flags this is the case of a one-element list:
    the flag [allow_none] never makes the function return. *)
Theorem unique_returns_the_head {A : Type} (resources : list A)
  (alias : string) (allow_none allow_multiple : bool) (r : A) :
  unique resources alias allow_none allow_multiple = Ok r ↔
  ∃ rest, resources = r :: rest ∧ (rest = [] ∨ allow_multiple = true).
Proof.
  unfold unique. destruct resources as [|a [|b rest]]; simpl.
  - split; [by destruct allow_none|]. by intros (rest & ? & _).
  - split.
    + intros [= ->]. exists []. by split; [|left].
    + by intros (rest & [= -> <-] & _).
  - destruct allow_multiple; simpl.
    + split.
      * intros [= ->]. exists (b :: rest). by split; [|right].
      * by intros (rest' & [= -> <-] & _).
    + split; [done|]. by intros (rest' & [= -> <-] & [?|?]).
Qed.

(** ** [Resource.from_item] *)

Lemma mandatory_fields (cls : Class_) (k : string) :
  k ∈ mandatory (fields cls) ↔
  k = "id" ∨ k = "mimeType" ∨ (cls ≠ ResourceClass ∧ k = "name").
Proof.
  destruct cls; unfold fields, MetaFields; simpl; set_solver.
Qed.

Section Items.
Context `{!SetOrder}.

Lemma make_cases (cls : Class_) (item : Item) :
  (make cls item = Ok (construct cls item) ∧
   ∀ k, k ∈ mandatory (fields cls) → has_field item k = true) ∨
  (∃ k, make cls item = Raise (KeyError k) ∧
        k ∈ mandatory (fields cls) ∧ has_field item k = false).
Proof.
  unfold make.
  destruct (list_find _ _) as [[i k]|] eqn:Hfind.
  - right. exists k. apply list_find_Some in Hfind as (Hk & Hmiss & _).
    split; [done|]. split; [|done].
    apply elem_of_elements. rewrite <- iter_set_perm.
    by eapply list_elem_of_lookup_2.
  - left. split; [done|]. intros k Hk.
    apply list_find_None in Hfind. rewrite Forall_forall in Hfind.
    apply elem_of_elements in Hk. rewrite <- iter_set_perm in Hk.
    specialize (Hfind k Hk). by destruct (has_field item k).
Qed.

Lemma has_field_id item : has_field item "id" = true ↔ is_Some (item_id item).
Proof. unfold has_field. simpl. apply bool_decide_eq_true. Qed.
Lemma has_field_mimeType item :
  has_field item "mimeType" = true ↔ is_Some (item_mimeType item).
Proof. unfold has_field. simpl. apply bool_decide_eq_true. Qed.
Lemma has_field_name item :
  has_field item "name" = true ↔ is_Some (item_name item).
Proof. unfold has_field. simpl. apply bool_decide_eq_true. Qed.

Lemma is_a_resource (item : Item) :
  is_a ResourceClass item =
    Ok (bool_decide (is_Some (item_id item) ∧ is_Some (item_mimeType item))).
Proof.
  unfold is_a. f_equal.
  apply eq_true_iff_eq. rewrite bool_decide_eq_true.
  rewrite <- Is_true_true, forallb_True, Forall_forall.
  setoid_rewrite elem_of_elements. setoid_rewrite mandatory_fields.
  rewrite <- has_field_id, <- has_field_mimeType.
  setoid_rewrite Is_true_true. naive_solver.
Qed.

(** What [Resource.from_item] builds, whatever the order of Python's sets.
    An item becomes a resource exactly when it has an id and a MIME type
    and, unless it ends up a plain resource, a name. The class follows the
    order of [_RESOURCES]: a folder when the MIME type is the folder type,
    even if a checksum is present; else a file when a checksum is present;
    else a plain resource, whose name is dropped. Missing parents become the
    empty list. So a folder built from an item always has the folder type and
    a file built from an item always has a checksum. *)
Theorem from_item_classifies (item : Item) (r : Resource) :
  from_item item = Ok r ↔
  ∃ i m,
    item_id item = Some i ∧ item_mimeType item = Some m ∧
    let ps := default [] (item_parents item) in
    if decide (m = FolderMimeType) then
      ∃ n, item_name item = Some n ∧ r = DriveFolder n i m ps
    else
      match item_md5Checksum item with
      | Some h => ∃ n, item_name item = Some n ∧ r = DriveFile n i m ps (Some h)
      | None => r = PlainResource i m ps
      end.
Proof.
  unfold from_item. rewrite is_a_resource.
  destruct item as [oi om on ops oh]. cbn [is_a item_mimeType item_md5Checksum
    item_id item_name item_parents].
  destruct om as [m|]; [|split; [done|by intros (? & ? & _ & ? & _)]].
  cbn [mbind result_bind].
  assert (∀ cls, make cls (mkItem oi (Some m) on ops oh) = Ok r ↔
                 ∃ i, oi = Some i ∧ (cls ≠ ResourceClass → is_Some on) ∧
                      r = construct cls (mkItem (Some i) (Some m) on ops oh))
    as Hmake.
  { intros cls.
    destruct (make_cases cls (mkItem oi (Some m) on ops oh))
      as [[-> Hall]|(k & -> & Hk & Hmiss)].
    - pose proof (proj1 (has_field_id _) (Hall "id" ltac:(apply mandatory_fields; auto)))
        as [i Hi]. simpl in Hi. subst oi.
      split.
      + intros [= <-]. exists i. split; [done|]. split; [|done].
        intros Hcls. apply (has_field_name (mkItem (Some i) (Some m) on ops oh)).
        apply Hall, mandatory_fields. auto.
      + intros (i' & [= <-] & _ & ->). done.
    - split; [done|]. intros (i & -> & Hn & _).
      apply mandatory_fields in Hk as [->|[->|[Hcls ->]]].
      + by apply not_true_iff_false in Hmiss; destruct Hmiss; apply has_field_id.
      + by apply not_true_iff_false in Hmiss; destruct Hmiss;
          apply has_field_mimeType.
      + apply not_true_iff_false in Hmiss. destruct Hmiss.
        apply has_field_name. simpl. auto. }
  case_bool_decide as Hm.
  - rewrite Hmake. split.
    + intros (i & -> & Hn & ->). exists i, m. split; [done|]. split; [done|].
      simpl. rewrite decide_True by done.
      destruct Hn as [n ->]; [done|]. by exists n.
    + intros (i & m' & -> & [= <-] & Hr). simpl in Hr.
      rewrite decide_True in Hr by done. destruct Hr as (n & -> & ->).
      exists i. split; [done|]. split; [by eexists|done].
  - destruct oh as [h|]; simpl.
    + rewrite Hmake. split.
      * intros (i & -> & Hn & ->). exists i, m. split; [done|]. split; [done|].
        simpl. rewrite decide_False by done.
        destruct Hn as [n ->]; [done|]. by exists n.
      * intros (i & m' & -> & [= <-] & Hr). simpl in Hr.
        rewrite decide_False in Hr by done. destruct Hr as (n & -> & ->).
        exists i. split; [done|]. split; [by eexists|done].
    + case_bool_decide as Hid.
      * rewrite Hmake. split.
        -- intros (i & -> & Hn & ->). exists i, m. split; [done|].
           split; [done|]. simpl. by rewrite decide_False by done.
        -- intros (i & m' & -> & [= <-] & Hr). simpl in Hr.
           rewrite decide_False in Hr by done. subst r.
           exists i. split; [done|]. split; [done|done].
      * split; [done|]. intros (i & m' & -> & _). destruct Hid.
        split; by eexists.
Qed.

Lemma from_item_make (item : Item) (m : string) :
  item_mimeType item = Some m →
  from_item item =
    if decide (m = FolderMimeType) then make DriveFolderClass item
    else if decide (is_Some (item_md5Checksum item))
    then make DriveFileClass item
    else if decide (is_Some (item_id item)) then make ResourceClass item
    else Raise unknown_item.
Proof.
  intros Hm. unfold from_item. rewrite is_a_resource. simpl. rewrite Hm.
  simpl. case_bool_decide; [by rewrite decide_True|].
  rewrite decide_False by done.
  case_bool_decide; [by rewrite decide_True|].
  rewrite decide_False by done.
  case_bool_decide as Hid.
  - by rewrite decide_True by apply Hid.
  - rewrite decide_False; [done|]. intros Hsome. apply Hid. split; [done|].
    by eexists.
Qed.

Lemma make_raises (cls : Class_) (item : Item) :
  is_Some (item_mimeType item) →
  ((∃ x, make cls item = Raise x) ↔
   item_id item = None ∨ (cls ≠ ResourceClass ∧ item_name item = None)) ∧
  (∀ x, make cls item = Raise x →
        (x = KeyError "id" ∧ item_id item = None) ∨
        (x = KeyError "name" ∧ item_name item = None ∧ cls ≠ ResourceClass)).
Proof.
  intros Hmime.
  assert (∀ o : option string, ¬ is_Some o → o = None) as Hnone.
  { intros [?|] Ho; [|done]. destruct Ho. by eexists. }
  assert (∀ A (o : option A), ¬ is_Some o → o = None) as Hnone'.
  { intros A [?|] Ho; [|done]. destruct Ho. by eexists. }
  destruct (make_cases cls item) as [[Hok Hall]|(k & Hk & Hin & Hmiss)].
  - rewrite Hok. split; [|done]. split; [by intros [? ?]|].
    intros [Hid|[Hcls Hname]].
    + specialize (Hall "id" ltac:(apply mandatory_fields; auto)).
      apply has_field_id in Hall as [? Hall]. congruence.
    + specialize (Hall "name" ltac:(apply mandatory_fields; auto)).
      apply has_field_name in Hall as [? Hall]. congruence.
  - rewrite Hk. apply not_true_iff_false in Hmiss.
    apply mandatory_fields in Hin as [->|[->|[Hcls ->]]].
    + rewrite has_field_id in Hmiss. apply Hnone in Hmiss.
      split; [split; [auto|by eexists]|]. intros x [= <-]. by left.
    + by rewrite has_field_mimeType in Hmiss.
    + rewrite has_field_name in Hmiss. apply Hnone in Hmiss.
      split; [split; [auto|by eexists]|]. intros x [= <-]. by right.
Qed.

(** How [Resource.from_item] fails, whatever the order of Python's sets.
    An item without a MIME type raises [KeyError('mimeType')] from the folder
    test, whatever else it holds. An item with the folder type or with a
    checksum raises exactly when its id or its name is missing, and the
    exception is the [KeyError] of a missing one of the two; which one, when
    both are missing, is up to the order of the set. Any other item raises
    exactly when its id is missing, and then with the final exception. *)
Theorem from_item_raises (item : Item) :
  (item_mimeType item = None → from_item item = Raise (KeyError "mimeType")) ∧
  (∀ m,
     item_mimeType item = Some m →
     m = FolderMimeType ∨ is_Some (item_md5Checksum item) →
     ((∃ x, from_item item = Raise x) ↔
      item_id item = None ∨ item_name item = None) ∧
     (∀ x, from_item item = Raise x →
           (x = KeyError "id" ∧ item_id item = None) ∨
           (x = KeyError "name" ∧ item_name item = None))) ∧
  (∀ m,
     item_mimeType item = Some m →
     m ≠ FolderMimeType → item_md5Checksum item = None →
     ∀ x, from_item item = Raise x ↔ item_id item = None ∧ x = unknown_item).
Proof.
  split; [|split].
  - intros Hm. unfold from_item. simpl. by rewrite Hm.
  - intros m Hm Hclass. rewrite (from_item_make item m Hm).
    assert (is_Some (item_mimeType item)) as Hmime by (by eexists).
    assert (∃ cls, cls ≠ ResourceClass ∧
                   (if decide (m = FolderMimeType)
                    then make DriveFolderClass item
                    else if decide (is_Some (item_md5Checksum item))
                    then make DriveFileClass item
                    else if decide (is_Some (item_id item))
                    then make ResourceClass item
                    else Raise unknown_item) = make cls item)
      as (cls & Hcls & ->).
    { destruct (decide (m = FolderMimeType)); [by exists DriveFolderClass|].
      destruct Hclass as [?|Hmd5]; [done|].
      rewrite decide_True by done. by exists DriveFileClass. }
    destruct (make_raises cls item Hmime) as [Hiff Hwhich]. split.
    + rewrite Hiff. naive_solver.
    + intros x Hx. destruct (Hwhich x Hx) as [?|(? & ? & _)]; auto.
  - intros m Hm Hfolder Hmd5 x. rewrite (from_item_make item m Hm).
    rewrite decide_False by done.
    rewrite decide_False by (rewrite Hmd5; by intros [? ?]).
    assert (is_Some (item_mimeType item)) as Hmime by (by eexists).
    destruct (item_id item) as [i|] eqn:Hid.
    + rewrite decide_True by (by eexists).
      destruct (make_raises ResourceClass item Hmime) as [Hiff Hwhich].
      split; [|by intros [? _]]. intros Hx.
      destruct (Hwhich x Hx) as [[_ ?]|(_ & _ & ?)]; [congruence|done].
    + rewrite decide_False by (by intros [? ?]).
      split; [by intros [= <-]|by intros [_ ->]].
Qed.
End Items.

(** ** [ResourcePath.from_name] *)

Lemma split_slash_nonempty (s : string) : split_slash s ≠ [].
Proof.
  destruct s as [|c s]; simpl; [done|].
  case_decide; [done|]. by destruct (split_slash s).
Qed.

Lemma split_slash_app (a b : string) :
  split_slash (a +:+ String slash b) = split_slash a ++ split_slash b.
Proof.
  induction a as [|c a IH]; simpl.
  - done.
  - case_decide; [by rewrite IH|]. rewrite IH.
    pose proof (split_slash_nonempty a). by destruct (split_slash a).
Qed.

Lemma split_slash_plain (s : string) :
  has_slash s = false → split_slash s = [s].
Proof.
  induction s as [|c s IH]; simpl; [done|].
  intros [Hc Hs]%orb_false_iff. apply bool_decide_eq_false in Hc.
  rewrite decide_False by done. by rewrite IH.
Qed.

Lemma path_elements_snoc (parent element : string) :
  element ≠ "" → has_slash element = false →
  path_elements (parent +:+ "/" +:+ element) =
    path_elements parent ++ [element].
Proof.
  intros Hne Hplain. unfold path_elements.
  change ("/" +:+ element) with (String slash element).
  rewrite split_slash_app, filter_app, (split_slash_plain element) by done.
  by rewrite filter_cons_True, filter_nil by done.
Qed.

Section FromName.
Context {World : Type} `{!Files World} `{!SetOrder}.

Lemma walk_app (path : string) (es1 es2 : list string)
  (rs : list Resource) (w : World) :
  walk path (es1 ++ es2) rs w =
    match walk path es1 rs w with
    | (Ok rs', w') => walk path es2 rs' w'
    | (Raise x, w') => (Raise x, w')
    end.
Proof.
  revert rs w. induction es1 as [|e es1 IH]; intros rs w; simpl; [done|].
  destruct (unique rs path false false) as [[]|]; try done.
  by destruct (children_named _ _ _) as [[]].
Qed.

Lemma walk_alias (path path' : string) (es : list string)
  (rs found : list Resource) (w w' : World) :
  walk path es rs w = (Ok found, w') → walk path' es rs w = (Ok found, w').
Proof.
  revert rs w. induction es as [|e es IH]; intros rs w; simpl; [done|].
  destruct rs as [|r [|r' rs]]; try done. simpl.
  destruct r; try done.
  destruct (children_named _ _ _) as [[]]; [|done]. apply IH.
Qed.

(** [from_name], element by element. A path without elements, such as
    [/], resolves to the root alone, whatever the root is. A path that ends in
    a non-empty element without a slash resolves exactly when the path before
    it resolves to a single resource, that resource is a folder, and the
    lookup of the element among the children of the folder succeeds; the
    result is that of the lookup, which is not checked: it may be empty or
    hold several resources. *)
Theorem from_name_descends (w w' : World) (found : list Resource) :
  (∀ path,
     path_elements path = [] →
     from_name path w = (Ok found, w') ↔
     ∃ r, DriveFolder_root w = (Ok r, w') ∧ found = [r]) ∧
  (∀ parent element,
     element ≠ "" → has_slash element = false →
     from_name (parent +:+ "/" +:+ element) w = (Ok found, w') ↔
     ∃ n folder_id m ps w1,
       from_name parent w = (Ok [DriveFolder n folder_id m ps], w1) ∧
       children_named folder_id element w1 = (Ok found, w')).
Proof.
  split.
  - intros path Hroot. unfold from_name. rewrite Hroot.
    destruct (DriveFolder_root w) as [[r|x] w0]; simpl.
    + split; [intros [= <- <-]; by exists r|]. by intros (? & [= <- <-] & ->).
    + split; [done|]. by intros (? & ? & _).
  - intros parent element Hne Hplain. unfold from_name.
    destruct (DriveFolder_root w) as [[r|x] w0];
      [|split; [done|by intros (?&?&?&?&?&?&_)]].
    rewrite path_elements_snoc, walk_app by done.
    split.
    + destruct (walk _ (path_elements parent) _ _) as [[rs|x] w1] eqn:Hwalk;
        [|done].
      simpl. destruct rs as [|[] [|? ?]]; try done. simpl.
      destruct (children_named _ _ _) as [[rs|x] w2] eqn:Hch; [|done].
      intros [= <- <-]. eexists _, _, _, _, _. split; [|exact Hch].
      by eapply walk_alias.
    + intros (n & folder_id & m & ps & w1 & Hwalk & Hch).
      rewrite (walk_alias _ (parent +:+ "/" +:+ element) _ _ _ _ _ Hwalk).
      simpl. by rewrite Hch.
Qed.
End FromName.

(** ** [_resource_path] and [resolve_paths] *)

Lemma resource_path_ancestors (depth : nat) (r : Resource)
  (table : dict string Resource) (path : list Resource) :
  _resource_path depth r table = Ok path ↔
  ancestors table r path ∧ (length path < depth)%nat.
Proof.
  revert r path. induction depth as [|depth IH]; intros r path.
  { simpl. split; [done|]. intros [_ ?]. lia. }
  simpl. destruct (parents r) as [|p ps] eqn:Hps.
  { split.
    - intros [= <-]. simpl. split; [done|lia].
    - intros [Hanc _]. destruct path as [|parent rest]; [done|].
      simpl in Hanc. rewrite Hps in Hanc. by destruct Hanc as [(? & ? & _) _]. }
  case_bool_decide as Hmany.
  { split; [done|]. intros [Hanc _]. destruct path as [|parent rest].
    - simpl in Hanc. by rewrite Hps in Hanc.
    - simpl in Hanc. rewrite Hps in Hanc.
      destruct Hanc as [(p' & [= -> ->] & _) _]. simpl in Hmany. lia. }
  destruct ps as [|]; [|simpl in Hmany; lia].
  destruct (dict_get p table) as [parent|] eqn:Hget.
  2:{ split; [done|]. intros [Hanc _]. destruct path as [|parent rest].
      - simpl in Hanc. by rewrite Hps in Hanc.
      - simpl in Hanc. rewrite Hps in Hanc.
        destruct Hanc as [(p' & [= <-] & Hget') _]. by rewrite Hget in Hget'. }
  destruct path as [|parent' rest'].
  { split.
    - by destruct (_resource_path depth parent table).
    - intros [Hanc _]. simpl in Hanc. by rewrite Hps in Hanc. }
  split.
  - destruct (_resource_path depth parent table) as [rest|x] eqn:Hrest;
      simpl; [|done].
    intros [= <- <-]. apply IH in Hrest as [? ?]. simpl. rewrite Hps.
    split; [split; [by exists p|done]|lia].
  - simpl. rewrite Hps. intros [[(p' & [= <-] & Hget') Hanc] Hlen].
    rewrite Hget in Hget'. injection Hget' as <-.
    assert (_resource_path depth parent table = Ok rest') as ->; [|done].
    apply IH. split; [done|lia].
Qed.

Lemma ancestors_unique (table : dict string Resource) (r : Resource)
  (path path' : list Resource) :
  ancestors table r path → ancestors table r path' → path = path'.
Proof.
  revert r path'. induction path as [|parent rest IH]; intros r [|parent' rest'].
  - done.
  - simpl. intros -> [(? & ? & _) _]. done.
  - simpl. intros [(? & ? & _) _] ?. congruence.
  - simpl. intros [(p & Hp & Hget) Hrest] [(p' & Hp' & Hget') Hrest'].
    rewrite Hp in Hp'. injection Hp' as <-. rewrite Hget in Hget'.
    injection Hget' as <-. f_equal. by eapply IH.
Qed.

(** [_resource_path] returns the chain of ancestors. A resource has at most
    one chain of single parents that ends at a resource without parents; the
    walk returns a path exactly when that path is the chain and the chain is
    shorter than the recursion limit. *)
Theorem resource_path_is_the_chain (depth : nat) (r : Resource)
  (table : dict string Resource) :
  (∀ path, _resource_path depth r table = Ok path ↔
           ancestors table r path ∧ (length path < depth)%nat) ∧
  (∀ path path', ancestors table r path → ancestors table r path' →
                 path = path').
Proof.
  split; [apply resource_path_ancestors|apply ancestors_unique].
Qed.

(** A chain of single parents that never ends, as a cycle of folders gives
    one: whatever the recursion limit, [_resource_path] overflows it. *)
Theorem endless_chain_overflows (table : dict string Resource)
  (endless : Resource → Prop) (r : Resource) (depth : nat) :
  (∀ r, endless r →
        ∃ p parent, parents r = [p] ∧ dict_get p table = Some parent ∧
                    endless parent) →
  endless r →
  _resource_path depth r table = Raise RecursionError.
Proof.
  intros Hstep. revert r. induction depth as [|depth IH]; intros r Hr; [done|].
  simpl. destruct (Hstep r Hr) as (p & parent & -> & -> & Hparent).
  simpl. by rewrite (IH parent Hparent).
Qed.

Lemma traverse_Forall2 {A B} (f : A → result B) (l : list A) (ys : list B) :
  traverse f l = Ok ys ↔ Forall2 (λ a y, f a = Ok y) l ys.
Proof.
  revert ys. induction l as [|a l IH]; intros ys; simpl.
  - split; [by intros [= <-]; constructor|]. by intros ->%Forall2_nil_inv_l.
  - split.
    + destruct (f a) as [y|] eqn:Ha; [|done]. simpl.
      destruct (traverse f l) as [ys'|] eqn:Hl; [|done]. simpl.
      intros [= <-]. constructor; [done|]. by apply IH.
    + intros (y & ys' & Ha & Hl & ->)%Forall2_cons_inv_l.
      rewrite Ha. simpl. apply IH in Hl. by rewrite Hl.
Qed.

Section Resolver.
Context {World : Type} `{!Drive World} `{!SetOrder}.

Lemma resolve_loop_closed (fuel : nat) (resolved table : dict string Resource)
  (w w' : World) :
  resolve_loop fuel resolved w = Some (Ok table, w') →
  unresolved_parents table = ∅.
Proof.
  revert resolved w. induction fuel as [|fuel IH]; intros resolved w; [done|].
  simpl. case_decide as Hclosed; [by intros [= <- <-]|].
  destruct (get_resources _ _) as [[rs|x] w1]; [|done]. apply IH.
Qed.

Lemma resolve_paths_pairs (fuel depth : nat) (leaves : list Resource)
  (w w' : World) (pairs : list (Resource * ResourcePath)) :
  resolve_paths fuel depth leaves w = Some (Ok pairs, w') →
  ∃ table,
    unresolved_parents table = ∅ ∧
    Forall2 (λ leaf pair,
               pair.1 = leaf ∧ resource pair.2 = leaf ∧
               ancestors table pair.1 (path pair.2) ∧
               (length (path pair.2) < depth)%nat) leaves pairs.
Proof.
  unfold resolve_paths.
  destruct (resolve_loop _ _ _) as [[[table|x] w1]|] eqn:Hloop; [|done..].
  intros [= Hpairs <-]. apply resolve_loop_closed in Hloop.
  apply traverse_Forall2 in Hpairs.
  exists table. split; [done|].
  eapply Forall2_impl; [exact Hpairs|]. intros leaf [l rp]. simpl.
  destruct (_resource_path depth leaf table) as [p|] eqn:Hp; [|done].
  simpl. intros [= <- <-]. simpl.
  by apply resource_path_ancestors in Hp as [? ?].
Qed.

(** The shape of what [resolve_paths] returns: one pair per leaf, in the
    order of the leaves, each with the leaf itself and a path for that same
    leaf; and all the paths are chains of ancestors in one table in which no
    parent is unresolved. *)
Theorem resolve_paths_shape (fuel depth : nat) (leaves : list Resource)
  (w w' : World) (pairs : list (Resource * ResourcePath)) :
  resolve_paths fuel depth leaves w = Some (Ok pairs, w') →
  pairs.*1 = leaves ∧
  resource <$> pairs.*2 = leaves ∧
  ∃ table,
    unresolved_parents table = ∅ ∧
    Forall (λ pair, ancestors table pair.1 (path pair.2) ∧
                    (length (path pair.2) < depth)%nat) pairs.
Proof.
  intros (table & Hclosed & Hall)%resolve_paths_pairs.
  assert (pairs.*1 = leaves ∧ resource <$> pairs.*2 = leaves ∧
          Forall (λ pair, ancestors table pair.1 (path pair.2) ∧
                          (length (path pair.2) < depth)%nat) pairs)
    as (? & ? & ?); [|by eauto].
  clear Hclosed.
  induction Hall
    as [|leaf [l rp] leaves pairs (H1 & H2 & H3 & H4) _ (IH1 & IH2 & IH3)];
    [done|].
  rewrite !fmap_cons. cbn [fst snd] in *.
  rewrite IH1, IH2, H1, H2. split; [done|]. split; [done|].
  constructor; [|done]. by subst l.
Qed.

Lemma update_values (resolved : dict string Resource) (rs : list Resource)
  (r : Resource) :
  r ∈ values (update resolved rs) → r ∈ values resolved ∨ r ∈ rs.
Proof.
  unfold update. revert resolved.
  induction rs as [|a rs IH]; intros resolved; simpl; [by left|].
  intros [Hin|Hin]%IH; [|right; by right].
  assert (∀ (d : dict string Resource) k v,
            r ∈ values (dict_set k v d) → r ∈ values d ∨ r = v) as Hset.
  { clear. unfold values. induction d as [|[k' v'] d IH]; intros k v; simpl.
    - intros ->%list_elem_of_singleton. by right.
    - case_decide.
      + rewrite !fmap_cons, !elem_of_cons. simpl. naive_solver.
      + rewrite !fmap_cons, !elem_of_cons. simpl.
        intros [->|[?|?]%IH]; auto. }
  apply Hset in Hin as [? | ->]; [by left|]. right. by left.
Qed.

(** Leaves without parents are resolved without a request: the service is
    left as it was and every path is empty. *)
Theorem orphans_need_no_fetch (fuel depth : nat) (leaves : list Resource)
  (w : World) :
  Forall (λ leaf, parents leaf = []) leaves →
  resolve_paths (S fuel) (S depth) leaves w =
    Some (Ok ((λ leaf, (leaf, mkResourcePath leaf [])) <$> leaves), w).
Proof.
  intros Horphans. unfold resolve_paths. simpl.
  assert (unresolved_parents (update [] leaves) = ∅) as ->.
  { unfold unresolved_parents.
    assert (values (update [] leaves) ≫= parents = []) as ->; [|set_solver].
    assert (Forall (λ r, parents r = []) (values (update [] leaves))) as Hall.
    { apply Forall_forall. intros r [Hin|Hin]%update_values.
      - by apply elem_of_nil in Hin.
      - by apply (proj1 (Forall_forall _ _) Horphans). }
    induction Hall as [|r rs Hr _ IH]; [done|]. rewrite bind_cons, Hr, IH. done. }
  rewrite decide_True by done. do 2 f_equal.
  apply traverse_Forall2, Forall2_fmap_r, Forall_Forall2_diag.
  eapply Forall_impl; [exact Horphans|]. intros leaf Hleaf. simpl.
  by rewrite Hleaf.
Qed.
End Resolver.

(** An item with a checksum and neither id nor MIME type. *)
Lemma from_item_raises_witness :
  from_item (mkItem None None (Some "x") None (Some "h1")) =
    Raise (KeyError "mimeType").
Proof.
  by apply (proj1 (from_item_raises
                     (mkItem None None (Some "x") None (Some "h1")))).
Defined.
(** The picture of the small drive, found below its folder. *)
Lemma from_name_descends_witness :
  from_name ("/Pictures" +:+ "/" +:+ "holiday.jpg") (0%nat : nat) =
    (Ok [DriveFile "holiday.jpg" "id-hol" "image/jpeg" ["id-pics"] (Some "h1")],
     3%nat).
Proof.
  apply (proj2 (from_name_descends 0%nat 3%nat _) "/Pictures" "holiday.jpg");
    [done..|].
  exists "Pictures", "id-pics", FolderMimeType, ["id-root"], 2%nat.
  split; vm_compute; reflexivity.
Defined.

(** A folder that is its own parent. *)
Lemma endless_chain_overflows_witness :
  _resource_path 1000 Fixtures.loop_dir [("id-loop", Fixtures.loop_dir)] =
    Raise RecursionError.
Proof.
  apply (endless_chain_overflows [("id-loop", Fixtures.loop_dir)]
           (λ r, r = Fixtures.loop_dir)); [|done].
  intros r ->. by exists "id-loop", Fixtures.loop_dir.
Defined.

(** The leaf of the hierarchy root, A, B. *)
Lemma resolve_paths_shape_witness :
  ∃ pairs w',
    resolve_paths 4 4 [Fixtures.leaf] Fixtures.hierarchy =
      Some (Ok pairs, w') ∧
    pairs.*1 = [Fixtures.leaf] ∧ resource <$> pairs.*2 = [Fixtures.leaf].
Proof.
  destruct (resolve_paths 4 4 [Fixtures.leaf] Fixtures.hierarchy)
    as [[[pairs|x] w']|] eqn:Hrun;
    [|vm_compute in Hrun; discriminate..].
  exists pairs, w'. split; [done|].
  destruct (resolve_paths_shape 4 4 [Fixtures.leaf] Fixtures.hierarchy w' pairs
              Hrun) as (Hl & Hr & _).
  by split.
Defined.

(** Two folders without parents. *)
Lemma orphans_need_no_fetch_witness :
  resolve_paths 1 1 [Fixtures.root; Fixtures.pictures] Fixtures.hierarchy =
    Some (Ok [(Fixtures.root, mkResourcePath Fixtures.root []);
              (Fixtures.pictures, mkResourcePath Fixtures.pictures [])],
          Fixtures.hierarchy).
Proof.
  apply (orphans_need_no_fetch 0 0 [Fixtures.root; Fixtures.pictures]
           Fixtures.hierarchy).
  by repeat constructor.
Defined.

End ApiMore.

(** * More of commands/dedup.py *)
Module DedupMore.
Import Api Dedup.

Lemma dict_get_filter {K V} `{!EqDecision K} (P : K * V → Prop)
  `{!∀ kv, Decision (P kv)} (d : dict K V) (k : K) :
  NoDup (keys d) →
  dict_get k (filter P d) =
    match dict_get k d with
    | Some v => if decide (P (k, v)) then Some v else None
    | None => None
    end.
Proof.
  unfold keys, dict in *. induction d as [|[k' v'] d IH]; [done|].
  rewrite fmap_cons. intros [Hk' Hd]%NoDup_cons. simpl in Hk'.
  cbn [dict_get]. destruct (decide (k = k')) as [->|Hk].
  - destruct (decide (P (k', v'))) as [HP|HP].
    + rewrite filter_cons_True by done. simpl. by rewrite decide_True.
    + rewrite filter_cons_False, IH by done.
      destruct (dict_get k' d) eqn:Hget; [|done].
      destruct Hk'. apply SyncSpec.dict_get_keys. by eexists.
  - destruct (decide (P (k', v'))) as [HP|HP].
    + rewrite filter_cons_True by done. simpl.
      rewrite decide_False by done. by apply IH.
    + rewrite filter_cons_False by done. by apply IH.
Qed.

Lemma filter_keys_NoDup {K V} `{!EqDecision K} (P : K * V → Prop)
  `{!∀ kv, Decision (P kv)} (d : dict K V) :
  NoDup (keys d) → NoDup (keys (filter P d)).
Proof.
  unfold keys, dict in *. intros Hd.
  refine (sublist_NoDup _ _ Hd _). apply fmap_sublist, sublist_filter.
Qed.

Lemma grouped_by_md5 (ss : Snapshot) :
  NoDup (keys (by_md5 ss)) ∧
  ∀ k, dict_get k (by_md5 ss) =
       match files_with k ss with
       | [] => None
       | l => Some l
       end.
Proof.
  unfold by_md5, files_with. destruct ss as [es]. simpl.
  induction es as [|e es [Hnd IH]] using rev_ind.
  { split; [constructor|done]. }
  rewrite foldl_app. simpl. split.
  - destruct e; try done. by apply HttpMore.dict_set_NoDup.
  - intros k. rewrite filter_app.
    destruct e as [| |n i m ps h]; simpl.
    + rewrite filter_cons_False, filter_nil, (right_id_L [] (++)) by done.
      apply IH.
    + rewrite filter_cons_False, filter_nil, (right_id_L [] (++)) by done.
      apply IH.
    + rewrite SyncSpec.dict_get_set. case_decide as Hk.
      * subst k. rewrite IH, filter_cons_True, filter_nil
          by (simpl; by apply bool_decide_eq_true).
        by destruct (filter _ es).
      * rewrite filter_cons_False, filter_nil, (right_id_L [] (++)).
        { apply IH. }
        simpl. rewrite bool_decide_eq_true. congruence.
Qed.

(** The grouping of [compute_duplicates]. Every hash has at most one group;
    a hash has a group exactly when at least two file entries of the snapshot
    carry it, and the group is these entries in the order of the snapshot.
    Folders and plain resources are in no group. Files without a checksum
    count as carrying the same hash, [None]: two of them make a group. *)
Theorem duplicates_are_the_groups (ss : Snapshot) :
  NoDup (keys (duplicates_of ss)) ∧
  ∀ md5, dict_get md5 (duplicates_of ss) =
         if decide (1 < length (files_with md5 ss))%nat
         then Some (files_with md5 ss) else None.
Proof.
  destruct (grouped_by_md5 ss) as [Hnd Hget]. unfold duplicates_of.
  split; [by apply filter_keys_NoDup|].
  intros md5. rewrite dict_get_filter, Hget by done.
  destruct (files_with md5 ss) as [|e l] eqn:Hl.
  - rewrite decide_False by (simpl; lia). done.
  - simpl. by repeat case_decide.
Qed.


Lemma paths_dict_get (pairs : list (Resource * ResourcePath)) (i : string) :
  dict_get i (paths_dict pairs) =
    snd <$> last (filter (λ pair, id pair.1 = i) pairs).
Proof.
  unfold paths_dict. induction pairs as [|pair pairs IH] using rev_ind; [done|].
  rewrite foldl_app, filter_app. simpl. rewrite SyncSpec.dict_get_set.
  case_decide as Hi.
  - subst i. rewrite filter_cons_True, filter_nil by done.
    by rewrite last_snoc.
  - rewrite filter_cons_False, filter_nil, (right_id_L [] (++)) by done.
    apply IH.
Qed.

Section Paths.
Context {World : Type} `{!Drive World} `{!SetOrder}.

(** [compute_duplicates] hands back a path for every duplicate. When it
    returns, every entry of every group has a path in the dictionary, so
    that [paths[entry]] in the two commands does not raise; the path is that
    of a resource with the id of the entry. *)
Theorem paths_cover_the_duplicates (fuel depth : nat) (ss : Snapshot)
  (w w' : World) (duplicates : dict (option string) (list Resource))
  (paths : dict string ResourcePath) :
  compute_duplicates fuel depth ss w = Some (Ok (duplicates, paths), w') →
  duplicates = duplicates_of ss ∧
  ∀ group entry,
    group ∈ values duplicates → entry ∈ group →
    ∃ p, path_of paths entry = Ok p ∧ id (resource p) = id entry.
Proof.
  unfold compute_duplicates.
  destruct (resolve_paths _ _ _ _) as [[[pairs|x] w1]|] eqn:Hpaths; [|done..].
  intros [= <- <- <-]. split; [done|]. intros group entry Hgroup Hentry.
  apply ApiMore.resolve_paths_pairs in Hpaths as (table & _ & Hall).
  assert (entry ∈ concat (values (duplicates_of ss))) as Hin.
  { apply list_elem_of_In, in_concat. exists group.
    by rewrite <- !list_elem_of_In. }
  apply list_elem_of_lookup in Hin as [j Hj].
  destruct (Forall2_lookup_l _ _ _ _ _ Hall Hj) as (pair & Hpair & <- & _).
  unfold path_of. rewrite paths_dict_get.
  assert (pair ∈ filter (λ q, id q.1 = id pair.1) pairs) as Hf.
  { apply list_elem_of_filter. split; [done|]. by eapply list_elem_of_lookup_2. }
  destruct (last (filter (λ q, id q.1 = id pair.1) pairs)) as [q|] eqn:Hlast.
  2:{ apply last_None in Hlast. rewrite Hlast in Hf. by apply elem_of_nil in Hf. }
  simpl. exists q.2. split; [done|].
  assert (q ∈ filter (λ q, id q.1 = id pair.1) pairs) as Hq.
  { by apply last_Some_elem_of. }
  apply list_elem_of_filter in Hq as [Hid Hq].
  apply list_elem_of_lookup in Hq as [j' Hj'].
  destruct (Forall2_lookup_r _ _ _ _ _ Hall Hj') as (leaf & _ & H1 & H2 & _).
  by rewrite H2, <- H1.
Qed.
End Paths.

Lemma sorted_same_key {A} (key : A → nat) (l : list A) (c : nat) :
  Forall (λ x, key x = c) l → sorted key l = l.
Proof.
  unfold sorted. induction 1 as [|x l Hx Hl IH]; [done|].
  simpl. rewrite IH. destruct Hl as [|y l Hy _]; [done|].
  simpl. rewrite decide_True by lia. done.
Qed.

Lemma rank_slash (ps : list ResourcePath) (ranks : list nat) :
  rank ["/"] ps = Ok ranks →
  length ranks = length ps ∧ Forall (λ r, r = 0%nat) ranks.
Proof.
  unfold rank. intros Hall%ApiMore.traverse_Forall2.
  split; [symmetry; by eapply Forall2_length|].
  induction Hall as [|p r ps ranks Hr _ IH]; constructor; [|done].
  simpl in Hr. destruct (startswith p "/") as [[]|]; simpl in Hr;
    [congruence| |done].
  by destruct (str p).
Qed.

(** The single prefix [/], which the help text gives for deleting
    duplicates at random. Every rendered path starts with it, so no group
    raises; all the ranks are equal, the stable sort leaves the group as it
    is, and the deletions are those of all the entries but the first, in the
    order of the group. *)
Theorem slash_keeps_the_first (paths : dict string ResourcePath)
  (entries : list Resource) (ss : list string) :
  Forall2 (renders_as paths) entries ss →
  ∃ reqs,
    group_deletions ["/"] paths entries = Ok reqs ∧
    Http.request <$> reqs = delete <$> drop 1 entries.
Proof.
  intros Hrender. unfold group_deletions.
  destruct (DedupSpec.traverse_path_of paths entries ss Hrender)
    as (ps & -> & Hstr).
  simpl.
  destruct (DedupSpec.rank_spec ["/"] ps ss Hstr)
    as [(ranks & Hrank & _)|(s & Hin & Hu & _)].
  2:{ exfalso. apply list_elem_of_lookup in Hin as [j Hj].
      destruct (Forall2_lookup_r _ _ _ _ _ Hstr Hj) as (p & _ & Hp).
      specialize (Hu "/" ltac:(by left)). unfold str in Hp.
      destruct (name (resource p)) as [n|]; [|done]. simpl in Hp.
      destruct (traverse name (path p)) as [ns|]; [|done]. simpl in Hp.
      injection Hp as <-. simpl in Hu. by destruct (_ +:+ _). }
  rewrite Hrank. simpl.
  apply rank_slash in Hrank as [Hlen Hzero].
  assert (length entries = length ranks) as Hlen'.
  { rewrite Hlen, (Forall2_length _ _ _ Hrender).
    symmetry. by eapply Forall2_length. }
  rewrite (sorted_same_key snd (zip entries ranks) 0).
  2:{ apply Forall_forall. intros [e r] [j Hj]%list_elem_of_lookup.
      apply DedupSpec.lookup_zip in Hj as [_ Hr]. simpl.
      apply list_elem_of_lookup_2 in Hr.
      by apply (proj1 (Forall_forall _ _) Hzero). }
  destruct (DedupSpec.traverse_requests paths (drop 1 (zip entries ranks)))
    as (reqs & -> & Hreqs).
  { apply Forall_forall. intros [e r] Hin. simpl.
    apply list_elem_of_lookup in Hin as [j Hj]. rewrite lookup_drop in Hj.
    apply DedupSpec.lookup_zip in Hj as [He _].
    destruct (Forall2_lookup_l _ _ _ _ _ Hrender He) as (s & _ & Hs).
    by exists s. }
  exists reqs. split; [done|].
  by rewrite Hreqs, fmap_drop, fst_zip by lia.
Qed.

(** Two copies of a picture and the single prefix. *)
Lemma slash_keeps_the_first_witness :
  ∃ reqs,
    group_deletions ["/"] Fixtures.dup_paths Fixtures.dup_group = Ok reqs ∧
    Http.request <$> reqs = [FilesDelete "id-new"].
Proof.
  apply (slash_keeps_the_first Fixtures.dup_paths Fixtures.dup_group
           ["/Pictures/Old/x.jpg"; "/Pictures/New/x.jpg"]).
  repeat constructor; by eexists.
Defined.

(** The two copies of the picture, with their folders in the store. *)
Lemma paths_cover_the_duplicates_witness :
  ∃ duplicates paths w',
    compute_duplicates 4 4 Fixtures.album_snapshot Fixtures.albums =
      Some (Ok (duplicates, paths), w') ∧
    duplicates = duplicates_of Fixtures.album_snapshot ∧
    ∃ p, path_of paths Fixtures.x_new = Ok p ∧
         id (resource p) = id Fixtures.x_new.
Proof.
  destruct (compute_duplicates 4 4 Fixtures.album_snapshot Fixtures.albums)
    as [[[[duplicates paths]|x] w']|] eqn:Hrun;
    [|vm_compute in Hrun; discriminate..].
  exists duplicates, paths, w'. split; [done|].
  destruct (paths_cover_the_duplicates 4 4 Fixtures.album_snapshot
              Fixtures.albums w' duplicates paths Hrun) as [Hdup Hpaths].
  split; [done|].
  apply (Hpaths Fixtures.dup_group); [|by right; left].
  rewrite Hdup. vm_compute. by left.
Defined.

End DedupMore.

(** * More of commands/sync/sync.py and commands/sync/state.py *)
Module SyncMore.
Import Api Sync.

Lemma NoDup_fmap_count {A B} `{!EqDecision B} (f : A → B) (l : list A) :
  NoDup (f <$> l) ↔ ∀ h, (length (filter (λ x, f x = h) l) ≤ 1)%nat.
Proof.
  induction l as [|x l IH].
  { split; [intros _ h; simpl; lia|constructor]. }
  rewrite fmap_cons, NoDup_cons, IH. split.
  - intros [Hx Hl] h. destruct (decide (f x = h)) as [<-|Hh].
    + rewrite filter_cons_True by done.
      destruct (filter (λ y, f y = f x) l) as [|y l'] eqn:Hf; [simpl; lia|].
      destruct Hx. assert (y ∈ filter (λ y, f y = f x) l) as Hy
        by (rewrite Hf; left).
      apply list_elem_of_filter in Hy as [<- Hy]. by apply list_elem_of_fmap_2.
    + rewrite filter_cons_False by done. apply Hl.
  - intros Hall. split.
    + intros (y & Hy & Hin)%list_elem_of_fmap. specialize (Hall (f x)).
      rewrite filter_cons_True in Hall by done.
      assert (y ∈ filter (λ y, f y = f x) l) as Hf
        by (by apply list_elem_of_filter).
      destruct (filter (λ y, f y = f x) l); [by apply elem_of_nil in Hf|].
      simpl in Hall. lia.
    + intros h. specialize (Hall h).
      destruct (decide (f x = h)).
      * rewrite filter_cons_True in Hall by done. simpl in Hall. lia.
      * by rewrite filter_cons_False in Hall by done.
Qed.

Lemma dict_get_elem {K V} `{!EqDecision K} (d : dict K V) (k : K) (v : V) :
  NoDup (keys d) → (k, v) ∈ d ↔ dict_get k d = Some v.
Proof.
  unfold keys, dict in *. induction d as [|[k' v'] d IH]; simpl.
  { intros _. split; [by intros ?%elem_of_nil|done]. }
  intros [Hk' Hd]%NoDup_cons. rewrite elem_of_cons, (IH Hd).
  case_decide as Hk.
  - subst k'. split; [|intros [= ->]; by left].
    intros [[= ->]|Hget]; [done|]. destruct Hk'.
    apply SyncSpec.dict_get_keys. by eexists.
  - split; [|by right]. by intros [[= -> ->]|?].
Qed.

Lemma by_md5_NoDup (fs : list LocalFile) : NoDup (keys (_by_md5 fs)).
Proof.
  unfold _by_md5. induction fs as [|f fs IH] using rev_ind; [constructor|].
  rewrite foldl_app. simpl. by apply HttpMore.dict_set_NoDup.
Qed.

Lemma check_duplicates_distinct (fs : list LocalFile) :
  _check_duplicates (_by_md5 fs) = Done () ↔ NoDup (md5_checksum <$> fs).
Proof.
  unfold _check_duplicates. rewrite NoDup_fmap_count.
  assert (∀ A (l : list A), length l = 0%nat ↔ l = []) as Hnil
    by (intros A [|? ?]; naive_solver).
  split.
  - case_bool_decide as Hlen; [|done]. intros _ h.
    apply Hnil in Hlen.
    pose proof (SyncSpec.by_md5_get fs h) as Hget. unfold has_md5 in Hget.
    destruct (filter (λ x, md5_checksum x = h) fs) as [|f l] eqn:Hf;
      [simpl; lia|].
    apply dict_get_elem in Hget; [|apply by_md5_NoDup].
    destruct (decide (1 < length (f :: l))%nat) as [Hlong|]; [|lia].
    assert ((h, f :: l) ∈ filter (λ kv : string * list LocalFile,
                                    (1 < length kv.2)%nat) (_by_md5 fs))
      as Hin by (by apply list_elem_of_filter).
    unfold dict in *. rewrite Hlen in Hin. by apply elem_of_nil in Hin.
  - intros Hall. rewrite bool_decide_eq_true_2; [done|]. apply Hnil.
    destruct (filter _ (_by_md5 fs)) as [|[h l] rest] eqn:Hf; [done|].
    assert ((h, l) ∈ filter (λ kv : string * list LocalFile,
                               (1 < length kv.2)%nat) (_by_md5 fs))
      as [Hlong Hin]%list_elem_of_filter.
    { unfold dict in *. rewrite Hf. by left. }
    apply dict_get_elem in Hin; [|apply by_md5_NoDup].
    rewrite SyncSpec.by_md5_get in Hin. specialize (Hall h).
    unfold has_md5 in Hin.
    destruct (filter (λ x, md5_checksum x = h) fs); [done|].
    injection Hin as <-. simpl in *. lia.
Qed.

(** The MIME filter. Without [--include-pictures-only] every file passes;
    with it, a file passes exactly when its MIME type starts with one of
    [image], [video] and [audio], whatever follows, a slash or not. *)
Theorem mime_allow_is_a_prefix_test (local_file : LocalFile) :
  _mime_allow local_file false = true ∧
  (_mime_allow local_file true = true ↔
   String.prefix "image" (mime_type local_file) = true ∨
   String.prefix "video" (mime_type local_file) = true ∨
   String.prefix "audio" (mime_type local_file) = true).
Proof.
  split; [done|]. unfold _mime_allow, MEDIA_MIMES. simpl.
  rewrite bool_decide_eq_true, !elem_of_union, !elem_of_singleton.
  rewrite !String.prefix_correct. simpl String.length.
  naive_solver.
Qed.

Lemma insert_latest_head (x : SyncState) (l : list SyncState) :
  ∃ m rest, insert_latest x l = m :: rest.
Proof. destruct l; simpl; [by eauto|]. case_decide; by eauto. Qed.

Lemma latest_first_head (states : list SyncState) (s : SyncState)
  (rest : list SyncState) :
  latest_first states = s :: rest →
  ∃ k, states !! k = Some s ∧
       (∀ j t, states !! j = Some t → timestamp t ≤ timestamp s) ∧
       (∀ j t, (j < k)%nat → states !! j = Some t →
               timestamp t < timestamp s).
Proof.
  revert s rest. induction states as [|x states IH]; intros s rest; [done|].
  simpl. destruct (latest_first states) as [|m tail] eqn:Htail.
  - intros [= <- <-]. destruct states as [|y states].
    + exists 0%nat. split; [done|]. split.
      * intros [|j] t; simpl; [intros [= <-]; lia|done].
      * intros; lia.
    + simpl in Htail.
      destruct (insert_latest_head y (latest_first states)) as (? & ? & Hh).
      by rewrite Hh in Htail.
  - destruct (IH m tail eq_refl) as (k & Hk & Hmax & Hfirst).
    simpl. case_decide as Hx.
    + intros [= <- <-]. exists 0%nat. split; [done|]. split.
      * intros [|j] t; simpl; [intros [= <-]; lia|].
        intros Ht%Hmax. lia.
      * intros; lia.
    + intros [= <- <-]. exists (S k). split; [done|]. split.
      * intros [|j] t; simpl; [intros [= <-]; lia|]. apply Hmax.
      * intros [|j] t Hj; simpl; [intros [= <-]; lia|].
        apply Hfirst. lia.
Qed.

(** Picking the state to resume. The process exits with code -1 exactly
    when no state was found; otherwise the state picked has the greatest
    time stamp, and of several states with that time stamp it is the first
    in the order of the directory listing. *)
Theorem latest_sync_state_is_the_newest (states : list SyncState) :
  (∀ code, _latest_sync_state states = SystemExit code ↔
           states = [] ∧ code = -1) ∧
  (∀ state, _latest_sync_state states = Done state ↔
            ∃ k, states !! k = Some state ∧
                 (∀ j t, states !! j = Some t →
                         timestamp t ≤ timestamp state) ∧
                 (∀ j t, (j < k)%nat → states !! j = Some t →
                         timestamp t < timestamp state)).
Proof.
  unfold _latest_sync_state.
  destruct (latest_first states) as [|m tail] eqn:Hsorted.
  - assert (states = []) as ->.
    { destruct states as [|x states]; [done|]. simpl in Hsorted.
      destruct (insert_latest_head x (latest_first states)) as (? & ? & Hh).
      by rewrite Hh in Hsorted. }
    split.
    + intros code. split; [by intros [= <-]|by intros [_ ->]].
    + intros state. split; [done|]. by intros (k & ? & _).
  - apply latest_first_head in Hsorted as (k & Hk & Hmax & Hfirst). split.
    + intros code. split; [done|]. intros [-> _]. done.
    + intros state. split.
      * intros [= <-]. by exists k.
      * intros (k' & Hk' & Hmax' & Hfirst').
        destruct (Nat.lt_trichotomy k k') as [Hlt|[<-|Hlt]].
        -- specialize (Hfirst' _ _ Hlt Hk). specialize (Hmax _ _ Hk'). lia.
        -- congruence.
        -- specialize (Hfirst _ _ Hlt Hk'). specialize (Hmax' _ _ Hk). lia.
Qed.

Section Effects.
Context {World Response : Type} `{!Env World Response} `{!SetOrder}.

(** A state can be stored once. A store that succeeds has removed [func]
    from the arguments, which the state shares with the copy that is
    serialized; a second store on the state it leaves raises
    [KeyError('func')], writes nothing and puts [stored] back to [False]. *)
Theorem store_is_not_repeatable (self self' : SyncState) (w w' : World)
  (fx : list (Effect Response)) :
  store self w = (None, self', fx, w') →
  func (args self) = true ∧ func (args self') = false ∧
  store self' w' = (Some (KeyError "func"), set_stored false self', [], w').
Proof.
  unfold store. simpl. destruct (func (args self)) eqn:Hfunc; [|done].
  destruct (serialize _) as [text|x]; [|done].
  destruct (write_text _ _ _) as [[[]|x] w1]; [|done].
  intros [= <- <- <-]. done.
Qed.

(** A sync from a state that is already stored, as a resumed one is, never
    writes the checkpoint again, whatever happens; the arguments stay as they
    were and the state stays stored. *)
Theorem resume_does_not_rewrite (fuel : nat) (state state' : SyncState)
  (w w' : World) (x : option exn) (fx : list (Effect Response)) :
  stored state = true →
  _sync fuel state w = Some (x, state', fx, w') →
  (∀ file text, Wrote file text ∉ fx) ∧
  args state' = args state ∧ stored state' = true.
Proof.
  intros Hstored. unfold _sync.
  destruct (_uncacheable_exclusions _ _) as [[dynamic|e] w1].
  2:{ intros [= <- <- <- <-]. split; [|done]. by intros ?? ?%elem_of_nil. }
  destruct (from_name _ _) as [[found|e] w2].
  2:{ intros [= <- <- <- <-]. split; [|done]. by intros ?? ?%elem_of_nil. }
  destruct (_ ← unique found _ _ _; _) as [requests|e].
  2:{ intros [= <- <- <- <-]. split; [|done]. by intros ?? ?%elem_of_nil. }
  simpl. rewrite Hstored. simpl.
  destruct (dry_run (args state)).
  { intros [= <- <- <- <-]. split; [|done]. by intros ?? ?%elem_of_nil. }
  destruct (Http.execute _ _ _ _) as [[[| e |] out] w4]; [| |done].
  - destruct (clear _ _) as [[x' fx'] w5] eqn:Hclear. intros [= <- <- <- <-].
    split; [|done]. intros file text. simpl.
    rewrite elem_of_app, list_elem_of_fmap.
    unfold clear in Hclear.
    destruct (remove _ _) as [[[]|?] ?]; injection Hclear as <- <- <-.
    + rewrite list_elem_of_singleton. naive_solver.
    + rewrite elem_of_nil. naive_solver.
  - intros [= <- <- <- <-]. split; [|done]. intros file text. simpl.
    rewrite list_elem_of_fmap. naive_solver.
Qed.
End Effects.

(** Merging exclusions. The remote hashes of a merged snapshot are those
    of either part, so the hashes to upload after the merge of [_sync] are
    those that neither the cached nor the dynamic exclusions hold: reading
    the target folder can only take uploads away. *)
Theorem exclusions_only_remove_uploads (local : dict string (list LocalFile))
  (cached dynamic : Snapshot) :
  remote_md5s (merge cached dynamic) =
    remote_md5s cached ∪ remote_md5s dynamic ∧
  to_sync local (remote_md5s (merge cached dynamic)) =
    to_sync local (remote_md5s cached) ∩ to_sync local (remote_md5s dynamic).
Proof.
  assert (remote_md5s (merge cached dynamic) =
          remote_md5s cached ∪ remote_md5s dynamic) as Hunion.
  { unfold remote_md5s, merge. simpl.
    by rewrite omap_app, list_to_set_app_L. }
  split; [done|]. rewrite Hunion. unfold to_sync.
  apply set_eq. intros k.
  rewrite elem_of_intersection, !elem_of_filter, not_elem_of_union.
  naive_solver.
Qed.

(** The first store of a fresh state on the empty disk, and the second. *)
Lemma store_is_not_repeatable_witness :
  ∃ self' fx w',
    store (Fixtures.fresh_state false) Fixtures.empty_disk =
      (None, self', fx, w') ∧
    store self' w' =
      (Some (KeyError "func"), set_stored false self', [], w').
Proof.
  destruct (store (Fixtures.fresh_state false) Fixtures.empty_disk)
    as [[[x self'] fx] w'] eqn:Hstore.
  assert (x = None) as -> by (vm_compute in Hstore; by injection Hstore as <-).
  exists self', fx, w'. split; [done|].
  by destruct (store_is_not_repeatable (Fixtures.fresh_state false) self'
                 Fixtures.empty_disk w' fx Hstore) as (_ & _ & ?).
Defined.

(** A dry run from a state that is already stored. *)
Lemma resume_does_not_rewrite_witness :
  ∃ x state' fx w',
    _sync 1 (set_stored true (Fixtures.fresh_state true)) Fixtures.empty_disk =
      Some (x, state', fx, w') ∧
    (∀ file text, Wrote file text ∉ fx) ∧ stored state' = true.
Proof.
  destruct (_sync 1 (set_stored true (Fixtures.fresh_state true))
              Fixtures.empty_disk) as [[[[x state'] fx] w']|] eqn:Hrun;
    [|vm_compute in Hrun; discriminate].
  exists x, state', fx, w'. split; [done|].
  destruct (resume_does_not_rewrite 1 (set_stored true (Fixtures.fresh_state true))
              state' Fixtures.empty_disk w' x fx eq_refl Hrun) as (? & _ & ?).
  by split.
Defined.

End SyncMore.

(** * More of drive/api.py: listing folders *)
Module ListMore.
Import Api.

Lemma scanned_app (l1 l2 : list Progress) :
  scanned (l1 ++ l2) = scanned l1 ++ scanned l2.
Proof. apply omap_app. Qed.

Section ListingFacts.
Context {World : Type} `{!Listing World} `{!SetOrder}.

Lemma scan_pages_quiet (fuel : nat) (self : Resource) (recurse : bool)
  (token : option string) (total : nat) (folders : list Resource)
  (w w' : World) r (log : list Progress) :
  scan_pages fuel self recurse token total folders w = Some (r, log, w') →
  scanned log = [].
Proof.
  revert token total folders w r log.
  induction fuel as [|fuel IH]; intros token total folders w r log; [done|].
  simpl. destruct (list_page _ _ _) as [o w1].
  destruct (_ ← raised o; _) as [[rs [items next]]|x];
    [|by intros [= <- <- <-]].
  destruct next as [page_token|]; [|by intros [= <- <- <-]].
  destruct (scan_pages fuel _ _ _ _ _ _) as [[[[[rs' fs]|x] log'] w2]|] eqn:Hrest;
    [| |done]; intros [= <- <- <-]; simpl; by eapply IH.
Qed.

Lemma scan_pages_no_recurse (fuel : nat) (self : Resource)
  (token : option string) (total : nat) (folders : list Resource)
  (w w' : World) rs fs (log : list Progress) :
  scan_pages fuel self false token total folders w = Some (Ok (rs, fs), log, w') →
  fs = folders.
Proof.
  revert token total w rs log.
  induction fuel as [|fuel IH]; intros token total w rs log; [done|].
  simpl. destruct (list_page _ _ _) as [o w1].
  destruct (_ ← raised o; _) as [[rs0 [items next]]|x]; [|done].
  destruct next as [page_token|]; [|by intros [= <- <- <-]].
  destruct (scan_pages fuel _ _ _ _ _ _) as [[[[[rs' fs']|x] log'] w2]|] eqn:Hrest;
    [|done..]. intros [= <- <- <- <-]. by eapply IH.
Qed.

Lemma in_set_order_ids (folders : list Resource) :
  id <$> in_set_order folders = iter_set (list_to_set (id <$> folders)).
Proof.
  unfold in_set_order.
  assert (∀ i, i ∈ iter_set (list_to_set (id <$> folders)) →
               ∃ f, find (λ f, bool_decide (id f = i)) folders = Some f ∧
                    id f = i) as Hfind.
  { intros i Hi. rewrite iter_set_perm in Hi.
    apply elem_of_elements, elem_of_list_to_set, list_elem_of_fmap in Hi
      as (f & -> & Hf).
    destruct (find _ folders) as [g|] eqn:Hg.
    - exists g. split; [done|]. apply find_some in Hg as [_ Hg].
      by apply bool_decide_eq_true in Hg.
    - apply list_elem_of_In in Hf.
      pose proof (find_none _ _ Hg _ Hf) as Hn. simpl in Hn.
      by apply bool_decide_eq_false in Hn. }
  induction (iter_set _) as [|i l IH]; [done|]. simpl.
  destruct (Hfind i ltac:(by left)) as (f & -> & Hf). simpl.
  rewrite Hf. f_equal. apply IH. intros j Hj. apply Hfind. by right.
Qed.

Lemma recurse_into_once
  (rec : Resource → gset string → World →
         option (result (list Resource) * gset string * list Progress * World))
  (self : Resource) (subs : list Resource) (exclude exclude' : gset string)
  (w w' : World) r (log : list Progress) :
  (∀ folder excl w r excl' log w',
     rec folder excl w = Some (r, excl', log, w') →
     excl ⊆ excl' ∧
     ∃ rest, scanned log = id folder :: rest ∧ NoDup rest ∧
             (∀ i, i ∈ rest → (i ∉ excl) ∧ i ∈ excl')) →
  NoDup (id <$> subs) →
  (∀ i, i ∈ id <$> subs → i ∈ exclude) →
  recurse_into rec self subs exclude w = Some (r, exclude', log, w') →
  exclude ⊆ exclude' ∧ NoDup (scanned log) ∧
  (∀ i, i ∈ scanned log → (i ∈ id <$> subs ∨ (i ∉ exclude)) ∧ i ∈ exclude').
Proof.
  intros Hrec. revert exclude exclude' w w' r log.
  induction subs as [|folder subs IH];
    intros exclude exclude' w w' r log Hnd Hsubs.
  { simpl. intros [= <- <- <- <-]. split; [done|]. split; [constructor|].
    by intros i ?%elem_of_nil. }
  simpl. rewrite fmap_cons in Hnd, Hsubs. apply NoDup_cons in Hnd as [Hf Hnd].
  destruct (rec folder exclude w) as [[[[res1 ex1] log1] w1]|] eqn:Hcall;
    [|done].
  destruct (Hrec _ _ _ _ _ _ _ Hcall) as (Hsub1 & rest & Hlog1 & Hnd1 & Hrest).
  assert (id folder ∈ exclude) as Hfolder by (apply Hsubs; by left).
  assert (∀ i, i ∈ id <$> subs → i ∈ ex1) as Hsubs1.
  { intros i Hi. apply Hsub1, Hsubs. by right. }
  destruct res1 as [rs|x].
  2:{ intros [= <- <- <- <-]. simpl. rewrite Hlog1.
      split; [done|]. split.
      - apply NoDup_cons. split; [|done]. intros Hin. by apply Hrest in Hin as [? _].
      - intros i [->|Hi]%elem_of_cons.
        + split; [left; by left|by apply Hsub1].
        + apply Hrest in Hi as [? ?]. split; [by right|done]. }
  destruct (recurse_into rec self subs ex1 w1) as [[[[res2 ex2] log2] w2]|]
    eqn:Hloop; [|done].
  destruct (IH _ _ _ _ _ _ Hnd Hsubs1 Hloop) as (Hsub2 & Hnd2 & Hlog2).
  assert (exclude ⊆ ex2 ∧
          NoDup (scanned (Recursing self folder :: log1 ++ log2)) ∧
          (∀ i, i ∈ scanned (Recursing self folder :: log1 ++ log2) →
                (i ∈ id folder :: (id <$> subs) ∨ (i ∉ exclude)) ∧ i ∈ ex2))
    as Hgoal.
  { simpl. rewrite scanned_app, Hlog1. split; [set_solver|]. split.
    - simpl. apply NoDup_cons. split.
      + rewrite elem_of_app. intros [Hin|Hin].
        * by apply Hrest in Hin as [? _].
        * apply Hlog2 in Hin as [[?|Hin] _]; [done|]. by apply Hin, Hsub1.
      + apply NoDup_app. split; [done|]. split; [|done].
        intros i Hi Hi'. apply Hrest in Hi as [Hi1 Hi2].
        apply Hlog2 in Hi' as [[Hi'|Hi'] _]; [|done].
        apply Hi1, Hsubs. by right.
    - intros i. simpl. rewrite elem_of_cons, elem_of_app.
      intros [->|[Hi|Hi]].
      + split; [left; by left|]. by apply Hsub2, Hsub1.
      + apply Hrest in Hi as [? ?]. split; [by right|by apply Hsub2].
      + apply Hlog2 in Hi as [[?|Hi] ?]; (split; [|done]).
        * left. by right.
        * right. intros ?. by apply Hi, Hsub1. }
  destruct res2; by intros [= <- <- <- <-].
Qed.

Lemma list_once (fuel : nat) (self : Resource) (recurse : bool)
  (exclude exclude' : gset string) (w w' : World) r (log : list Progress) :
  _list fuel self recurse exclude w = Some (r, exclude', log, w') →
  exclude ⊆ exclude' ∧
  ∃ rest, scanned log = id self :: rest ∧ NoDup rest ∧
          (∀ i, i ∈ rest → (i ∉ exclude) ∧ i ∈ exclude').
Proof.
  revert self exclude exclude' w w' r log.
  induction fuel as [|fuel IH]; intros self exclude exclude' w w' r log;
    [done|].
  simpl.
  destruct (scan_pages fuel self recurse None 0 [] w)
    as [[[[[rs folders]|x] log0] w1]|] eqn:Hscan; [| |done].
  2:{ intros [= <- <- <- <-]. split; [done|]. exists []. simpl.
      rewrite (scan_pages_quiet _ _ _ _ _ _ _ _ _ _ Hscan).
      split; [done|]. split; [constructor|]. by intros i ?%elem_of_nil. }
  apply scan_pages_quiet in Hscan.
  set (fresh := filter (λ f, id f ∉ exclude) folders).
  destruct (recurse_into _ self (in_set_order fresh) _ w1)
    as [[[[res2 ex2] log2] w2]|] eqn:Hloop; [|done].
  apply recurse_into_once in Hloop as (Hsub & Hnd & Hlog).
  2:{ intros folder excl w0 r0 excl' log' w0'. apply IH. }
  2:{ rewrite in_set_order_ids, iter_set_perm. apply NoDup_elements. }
  2:{ intros i. rewrite in_set_order_ids, iter_set_perm, elem_of_elements.
      set_solver. }
  assert (exclude ⊆ ex2 ∧
          ∃ rest, scanned (Scanning self :: log0 ++ DoneScanning self :: log2) =
                    id self :: rest ∧ NoDup rest ∧
                  (∀ i, i ∈ rest → (i ∉ exclude) ∧ i ∈ ex2)) as Hgoal.
  { split; [set_solver|]. exists (scanned log2). simpl.
    rewrite scanned_app, Hscan. split; [done|]. split; [done|].
    intros i Hi. apply Hlog in Hi as [[Hi|Hi] ?]; (split; [|done]).
    - rewrite in_set_order_ids, iter_set_perm, elem_of_elements,
        elem_of_list_to_set, list_elem_of_fmap in Hi.
      destruct Hi as (f & -> & Hf). unfold fresh in Hf.
      by apply list_elem_of_filter in Hf as [? _].
    - set_solver. }
  destruct res2; by intros [= <- <- <- <-].
Qed.

(** The shared set of excluded folders does its work. In every listing,
    finished or cut short by an exception, the folder the listing starts at
    is scanned first, and every folder scanned after it was not excluded
    before, is excluded afterwards and is scanned once; nothing leaves the
    set. The starting folder itself is not in the set at first, so a cycle
    that leads back to it makes it be scanned a second time, and no more.
    Without [recurse] only the starting folder is scanned. *)
Theorem folders_are_scanned_once (fuel : nat) (self : Resource)
  (recurse : bool) (exclude exclude' : gset string) (w w' : World)
  (r : result (list Resource)) (log : list Progress) :
  _list fuel self recurse exclude w = Some (r, exclude', log, w') →
  exclude ⊆ exclude' ∧
  ∃ rest,
    scanned log = id self :: rest ∧ NoDup rest ∧
    (∀ i, i ∈ rest → (i ∉ exclude) ∧ i ∈ exclude') ∧
    (recurse = false → rest = []).
Proof.
  intros Hrun. destruct (list_once _ _ _ _ _ _ _ _ _ Hrun)
    as (Hsub & rest & Hlog & Hnd & Hrest).
  split; [done|]. exists rest. split; [done|]. split; [done|]. split; [done|].
  intros ->. destruct fuel as [|fuel]; [done|]. simpl in Hrun.
  destruct (scan_pages fuel self false None 0 [] w)
    as [[[[[rs folders]|x] log0] w1]|] eqn:Hscan; [| |done].
  - pose proof (scan_pages_no_recurse _ _ _ _ _ _ _ _ _ _ Hscan) as ->.
    apply scan_pages_quiet in Hscan.
    rewrite filter_nil in Hrun. 
    assert (in_set_order [] = []) as Hnil.
    { apply fmap_nil_inv with (f := id). rewrite in_set_order_ids. simpl.
      apply Permutation_nil_r. by rewrite iter_set_perm, elements_empty. }
    rewrite Hnil in Hrun. simpl in Hrun. injection Hrun as <- <- <- <-.
    simpl in Hlog. rewrite scanned_app, Hscan in Hlog. simpl in Hlog.
    by injection Hlog as <-.
  - injection Hrun as <- <- <- <-. simpl in Hlog.
    rewrite (scan_pages_quiet _ _ _ _ _ _ _ _ _ _ Hscan) in Hlog.
    by injection Hlog as <-.
Qed.

End ListingFacts.

(** The drive whose folder of pictures holds its own parent. *)
Lemma folders_are_scanned_once_witness :
  ∃ r exclude' log w',
    _list 4 Fixtures.my_drive true ∅ (0%nat : nat) =
      Some (r, exclude', log, w') ∧
    scanned log = ["id-root"; "id-pics"; "id-root"] ∧
    ∃ rest, scanned log = id Fixtures.my_drive :: rest ∧ NoDup rest.
Proof.
  assert (option_map (λ x, scanned x.1.2)
            (_list 4 Fixtures.my_drive true ∅ (0%nat : nat)) =
          Some ["id-root"; "id-pics"; "id-root"]) as Hlog
    by (vm_compute; reflexivity).
  destruct (_list 4 Fixtures.my_drive true ∅ (0%nat : nat))
    as [[[[r exclude'] log] w']|] eqn:Hrun; [|discriminate Hlog].
  exists r, exclude', log, w'. split; [reflexivity|].
  split; [by injection Hlog|].
  destruct (folders_are_scanned_once 4 Fixtures.my_drive true ∅ exclude'
              0%nat w' r log Hrun) as (_ & rest & Hrest & Hnd & _).
  exists rest. exact (conj Hrest Hnd).
Defined.

End ListMore.

(** * commands/snapshot.py *)
Module SnapshotMore.
Import Api SnapshotCmd.

Lemma find_first {A} (p : A → bool) (l : list A) (a : A) :
  find p l = Some a →
  ∃ k, l !! k = Some a ∧ p a = true ∧
       ∀ j b, (j < k)%nat → l !! j = Some b → p b = false.
Proof.
  induction l as [|x l IH]; [done|]. simpl.
  destruct (p x) eqn:Hx.
  - intros [= <-]. exists 0%nat. split; [done|]. split; [done|]. intros; lia.
  - intros (k & Hk & Ha & Hfirst)%IH. exists (S k). split; [done|].
    split; [done|]. intros [|j] b Hj; simpl; [by intros [= <-]|].
    apply Hfirst. lia.
Qed.

Section SnapshotFacts.
Context {World : Type} `{!Files World} `{!Listing World} `{!SetOrder}.

Lemma in_set_order_first (entries : list Resource) (e : Resource) :
  e ∈ in_set_order entries → first_with_id entries e.
Proof.
  unfold in_set_order. intros (i & _ & Hfind)%list_elem_of_omap.
  apply find_first in Hfind as (k & Hk & Hid & Hfirst).
  apply bool_decide_eq_true in Hid. subst i.
  exists k. split; [done|]. intros j e' Hj He'.
  specialize (Hfirst j e' Hj He'). by apply bool_decide_eq_false in Hfirst.
Qed.

Lemma find_folders_length (folder_paths : list string) (w w' : World)
  (folders : list Resource) :
  find_folders folder_paths w = (Ok folders, w') →
  length folders = length folder_paths.
Proof.
  revert w folders. induction folder_paths as [|path rest IH];
    intros w folders; simpl; [by intros [= <- <-]|].
  destruct (from_name path w) as [[found|x] w1]; [|done].
  destruct (unique found path false false) as [folder|x]; [|done].
  destruct (find_folders rest w1) as [[folders'|x] w2] eqn:Hrest; [|done].
  intros [= <- <-]. simpl. f_equal. by eapply IH.
Qed.

Lemma list_folders_finished (fuel : nat) (folders entries : list Resource)
  (w w' : World) (log : list Progress) :
  list_folders fuel folders w = Some (Finished entries, log, w') →
  Forall (λ folder, is_folder folder = true) folders.
Proof.
  revert entries w log. induction folders as [|folder rest IH];
    intros entries w log; simpl; [constructor|].
  destruct (is_folder folder) eqn:Hf; [|done].
  destruct (list_folder fuel folder true w) as [[[[[es|x] ex] log1] w1]|];
    [|done..].
  destruct (list_folders fuel rest w1) as [[[[es'|x|c] log2] w2]|] eqn:Hrest;
    [|done..].
  intros [= <- <- <-]. constructor; [done|]. by eapply IH.
Qed.

(** What a snapshot holds. When [snapshot] returns, every path was
    resolved to a single resource before anything was listed, every one of
    them is a folder, and the snapshot holds one entry for every id that was
    listed: all ids are distinct, none is lost, and the entry kept for an id
    is the first one listed with it. *)
Theorem snapshot_holds_each_id_once (fuel : nat) (folder_paths : list string)
  (w w' : World) (ss : Snapshot) (log : list Progress) :
  snapshot fuel folder_paths w = Some (Finished ss, log, w') →
  ∃ folders listed w1,
    find_folders folder_paths w = (Ok folders, w1) ∧
    length folders = length folder_paths ∧
    Forall (λ folder, is_folder folder = true) folders ∧
    list_folders fuel folders w1 = Some (Finished listed, log, w') ∧
    NoDup (id <$> entries ss) ∧
    (∀ i, i ∈ id <$> entries ss ↔ i ∈ id <$> listed) ∧
    Forall (first_with_id listed) (entries ss).
Proof.
  unfold snapshot.
  destruct (find_folders folder_paths w) as [[folders|x] w1] eqn:Hfind;
    [|done].
  destruct (list_folders fuel folders w1) as [[[[listed|x|c] log1] w2]|]
    eqn:Hlist; [|done..].
  intros [= <- <- <-]. exists folders, listed, w1. simpl.
  split; [done|]. split; [by eapply find_folders_length|].
  split; [by eapply list_folders_finished|]. split; [done|].
  rewrite ListMore.in_set_order_ids. split; [|split].
  - rewrite iter_set_perm. apply NoDup_elements.
  - intros i. by rewrite iter_set_perm, elem_of_elements, elem_of_list_to_set.
  - apply Forall_forall. intros e. apply in_set_order_first.
Qed.
End SnapshotFacts.

(** The snapshot of the drive with a cycle: four entries are listed, the
    folder of pictures twice, and three are kept. *)
Lemma snapshot_holds_each_id_once_witness :
  ∃ ss log w',
    snapshot 4 ["/"] (0%nat : nat) = Some (Finished ss, log, w') ∧
    length (entries ss) = 3%nat ∧ NoDup (id <$> entries ss).
Proof.
  assert (option_map (λ x, match x.1.1 with
                           | Finished ss => length (entries ss)
                           | _ => 0%nat
                           end) (snapshot 4 ["/"] (0%nat : nat)) =
          Some 3%nat) as Hlen by (vm_compute; reflexivity).
  destruct (snapshot 4 ["/"] (0%nat : nat)) as [[[[ss|x|c] log] w']|] eqn:Hrun;
    [|discriminate Hlen..].
  exists ss, log, w'. split; [reflexivity|].
  split; [by injection Hlen|].
  destruct (snapshot_holds_each_id_once 4 ["/"] 0%nat w' ss log Hrun)
    as (folders & listed & w1 & _ & _ & _ & _ & Hnd & _).
  exact Hnd.
Defined.

End SnapshotMore.

(** * More of commands/sync/state.py: the names of the state files *)
Module StateMore.
Import Api Sync.

Lemma span_digits_spec (s : string) :
  s = (span_digits s).1 +:+ (span_digits s).2 ∧
  all_digits (span_digits s).1 = true ∧
  match (span_digits s).2 with
  | String c _ => is_digit c = false
  | EmptyString => True
  end.
Proof.
  induction s as [|c s (IH1 & IH2 & IH3)]; simpl; [done|].
  destruct (is_digit c) eqn:Hc.
  - destruct (span_digits s) as [digits rest]. simpl in *.
    rewrite Hc, IH2. split; [|done].
    change (String c s = String c (digits +:+ rest)). by f_equal.
  - simpl. by rewrite Hc.
Qed.

Lemma span_digits_app (a r : string) :
  all_digits a = true →
  match r with String c _ => is_digit c = false | EmptyString => True end →
  span_digits (a +:+ r) = (a, r).
Proof.
  intros Ha Hr. induction a as [|c a IH]; simpl in *.
  - destruct r as [|c r]; [done|]. simpl. by rewrite Hr.
  - apply andb_true_iff in Ha as [-> Ha]. by rewrite IH.
Qed.

Lemma numbers_match (seconds number : string) :
  is_number seconds → is_number number →
  NAME_REGEX_fullmatch (seconds +:+ "-" +:+ number +:+ ".sync") = true.
Proof.
  intros [Hs Hds] [Hn Hdn]. unfold NAME_REGEX_fullmatch.
  rewrite (span_digits_app seconds) by done. simpl.
  change ("" +:+ number +:+ ".sync") with (number +:+ ".sync").
  rewrite (span_digits_app number ".sync") by done.
  rewrite !andb_true_iff, !negb_true_iff, !bool_decide_eq_true,
    !bool_decide_eq_false. done.
Qed.

(** The language of [NAME_REGEX]. A name is taken for a state file exactly
    when it is a non-empty run of digits, a dash, a second non-empty run of
    digits and the suffix [.sync], with nothing before or after. *)
Theorem state_names_are_two_numbers (s : string) :
  NAME_REGEX_fullmatch s = true ↔
  ∃ seconds number,
    s = seconds +:+ "-" +:+ number +:+ ".sync" ∧
    is_number seconds ∧ is_number number.
Proof.
  unfold NAME_REGEX_fullmatch, is_number. split.
  - destruct (span_digits_spec s) as (Hs & Hd & _).
    destruct (span_digits s) as [seconds rest]. simpl in *.
    destruct rest as [|c rest]; [done|].
    destruct (span_digits_spec rest) as (Hr & Hd' & _).
    destruct (span_digits rest) as [number suffix]. simpl in *.
    rewrite !andb_true_iff, !negb_true_iff, !bool_decide_eq_true,
      !bool_decide_eq_false.
    intros [[[[= ->] ?] ?] ->]. exists seconds, number.
    split; [|done]. by rewrite Hs, Hr.
  - intros (seconds & number & -> & Hs & Hn). by apply numbers_match.
Qed.

Lemma pretty_N_char_digit (x : N) : is_digit (pretty_N_char x) = true.
Proof.
  destruct x as [|p]; [done|].
  do 4 (try reflexivity; destruct p as [p|p|]); reflexivity.
Qed.

Lemma pretty_N_go_digits (x : N) (s : string) :
  all_digits s = true → all_digits (pretty_N_go x s) = true.
Proof.
  revert s. induction (N.lt_wf_0 x) as [x _ IH]; intros s Hs.
  destruct (decide (x = 0)%N) as [->|Hx]; [by rewrite pretty_N_go_0|].
  rewrite pretty_N_go_step by lia. apply IH.
  - apply N.div_lt; lia.
  - simpl. by rewrite pretty_N_char_digit.
Qed.

Lemma pretty_N_go_nonempty (x : N) (s : string) :
  (0 < x)%N → pretty_N_go x s ≠ "".
Proof.
  revert s. induction (N.lt_wf_0 x) as [x _ IH]; intros s Hx.
  rewrite pretty_N_go_step by lia.
  destruct (decide (x `div` 10 = 0)%N) as [->|Hx'].
  - by rewrite pretty_N_go_0.
  - apply IH; [apply N.div_lt; lia|by apply N.neq_0_lt_0].
Qed.

Lemma pretty_Z_number (z : Z) : 0 ≤ z → is_number (pretty z).
Proof.
  intros Hz. destruct z as [|p|p]; [done| |lia].
  unfold pretty, pretty_Z, pretty, pretty_positive, pretty, pretty_N.
  simpl. split.
  - apply pretty_N_go_nonempty. lia.
  - by apply pretty_N_go_digits.
Qed.

(** [new_name] and [NAME_REGEX] agree. The name drawn for a new state
    matches the pattern exactly when neither the clock nor the random number
    is negative, as is the case for [time.monotonic] and [randint(0, ...)];
    a state stored under such a name in the working directory is among the
    files that [sync_states] reads on resume. *)
Theorem new_names_are_state_names (now random : Z) :
  (NAME_REGEX_fullmatch (new_name now random) = true ↔
   0 ≤ now ∧ 0 ≤ random) ∧
  (∀ listing, 0 ≤ now → 0 ≤ random →
              new_name now random ∈ listing →
              new_name now random ∈ state_files listing).
Proof.
  assert (0 ≤ now → 0 ≤ random →
          NAME_REGEX_fullmatch (new_name now random) = true) as Hmatch.
  { intros. apply numbers_match; by apply pretty_Z_number. }
  split.
  - split; [|intros []; by apply Hmatch].
    unfold NAME_REGEX_fullmatch, new_name.
    destruct (decide (0 ≤ now)) as [Hnow|Hnow].
    + destruct (decide (0 ≤ random)) as [Hrandom|Hrandom]; [done|].
      destruct (pretty_Z_number now Hnow) as [_ Hd].
      rewrite (span_digits_app (pretty now)) by done. simpl.
      destruct random as [|p|p]; [lia..|].
      change (pretty (Z.neg p)) with ("-" +:+ pretty p). simpl.
      by rewrite !andb_false_r.
    + destruct now as [|p|p]; [lia..|].
      change (pretty (Z.neg p)) with ("-" +:+ pretty p). simpl.
      by destruct (span_digits _).
  - intros listing Hnow Hrandom Hin. apply list_elem_of_filter. auto.
Qed.

End StateMore.

(** * More of commands/sync/sync.py: setting up a sync *)
Module SetupMore.
Import Api Sync SnapshotCmd SyncSetup.

Section SetupFacts.
Context {World : Type}.
Context `{!Local World} `{!Files World} `{!Listing World} `{!SetOrder}.

(** Setting up a sync. A scan that raises ends the setup. Otherwise the
    local files are the scanned files that pass the MIME filter, in the order
    of the scan. Unless duplicates are allowed, two of them with the same
    hash make the process exit with code -1 before any exclusion is read:
    nothing is listed and the world is as the scan left it. In every other
    case the outcome is that of [_cacheable_exclusions], which may itself
    raise or exit: when it finishes the state is built with its snapshot and
    these files, not yet stored; without exclusions on the command line that
    is at once, with an empty snapshot. *)
Theorem new_sync_state_admits (fuel : nat) (a : SetupArgs)
  (cwd new_name : string) (now : Z) (w : World) :
  let run := _new_sync_state fuel a cwd new_name now w in
  (∀ x w1,
     _local_files (local (sync_args a)) w = (Raise x, w1) →
     run = Some (Failed x, [], w1)) ∧
  (∀ scanned w1,
     _local_files (local (sync_args a)) w = (Ok scanned, w1) →
     let local :=
       filter (λ f, _mime_allow f (include_pictures_only a) = true)
         scanned in
     (allow_duplicates a = false → ¬ NoDup (md5_checksum <$> local) →
      run = Some (Exited (-1), [], w1)) ∧
     (allow_duplicates a = true ∨ NoDup (md5_checksum <$> local) →
      run =
        match _cacheable_exclusions fuel a w1 with
        | None => None
        | Some (Failed x, log, w2) => Some (Failed x, log, w2)
        | Some (Exited code, log, w2) => Some (Exited code, log, w2)
        | Some (Finished ss, log, w2) =>
            Some (Finished
                    (mkSyncState new_name cwd (sync_args a) ss local now
                       false), log, w2)
        end) ∧
     (allow_duplicates a = true ∨ NoDup (md5_checksum <$> local) →
      exclude_snapshot a = [] → exclude_folder a = [] →
      run =
        Some (Finished
                (mkSyncState new_name cwd (sync_args a) (mkSnapshot [])
                   local now false), [], w1))).
Proof.
  intros run. unfold run, _new_sync_state. split.
  - intros x w1 ->. done.
  - intros scanned w1 Hscan. rewrite Hscan. cbv zeta.
    set (local := filter _ scanned).
    pose proof (SyncMore.check_duplicates_distinct local) as Hcheck.
    assert (allow_duplicates a = true ∨ NoDup (md5_checksum <$> local) →
            (if negb (allow_duplicates a)
             then _check_duplicates (_by_md5 local) else Done ()) = Done ())
      as Hpass.
    { intros [-> |Hnd]; [done|]. destruct (allow_duplicates a); [done|].
      simpl. by apply Hcheck. }
    split; [|split].
    + intros -> Hdup. simpl. unfold _check_duplicates in *.
      case_bool_decide; [|done]. destruct Hdup. by apply Hcheck.
    + intros Hok. by rewrite (Hpass Hok).
    + intros Hok Hs Hf. rewrite (Hpass Hok).
      unfold _cacheable_exclusions. by rewrite Hs, Hf.
Qed.
End SetupFacts.

(** The photos hold two copies of one picture: the setup exits before it
    reads the exclusions. *)
Lemma new_sync_state_admits_witness :
  _new_sync_state 4
    (mkSetupArgs (mkArgs "pics" "/target" false true) ["old.json"] ["/"]
       false false)
    "/work" "17-42.sync" 1000 (0%nat : nat) =
    Some (Exited (-1), [], 0%nat).
Proof.
  apply (proj1 (proj2 (@new_sync_state_admits nat Fixtures.local_nat
                         Fixtures.small_drive Fixtures.cyclic_drive
                         Fixtures.elements_order 4
                         (mkSetupArgs (mkArgs "pics" "/target" false true)
                            ["old.json"] ["/"] false false)
                         "/work" "17-42.sync" 1000 0%nat)
                  Fixtures.photos 0%nat eq_refl)); [done|].
  intros Hnd. simpl in Hnd.
  apply NoDup_cons in Hnd as [Hin _]. apply Hin. set_solver.
Defined.
End SetupMore.

(** * The checkpoint of a sync *)
Module SyncCheckpoint.
Import Api Sync.

Section Protocol.
Context {World Response : Type} `{!Env World Response} `{!SetOrder}.

End Protocol.



End SyncCheckpoint.
